(** * Scoot: saga log, cluster view, worker handler and Bazel façades

    A shallow embedding of the Go sources of the scheduler's collaborators:
    - [SagaLog]: the in-memory saga log (package [saga]);
    - [Worker]: the worker server handler (package [server]);
    - [ClusterView]: the cluster membership loop (package [cluster]);
    - [Execution]: the Bazel execution server (package [execution]);
    - [CAS]: the Bazel content-addressable store server (package [cas]).

    Go values are modelled as the code has them: maps as [gmap], slices as
    lists (with their backing array where the code relies on aliasing), a
    nil pointer as [None], an [error] as an optional message, and a call that
    can block on a lock or panic as an [outcome]. *)

From Stdlib Require Import ZArith Lia.
From stdpp Require Import base option list strings pretty gmap sorting.

(** ** Outcomes of a call

    A Go call either returns, blocks forever on a lock that is never
    released, or panics (a run-time fatal error included). *)

Inductive outcome (A : Type) : Type :=
  | Returns (a : A)
  | Blocks
  | Panics.

Arguments Returns {A} a.
Arguments Blocks {A}.
Arguments Panics {A}.

#[global] Instance outcome_ret : MRet outcome := fun _ a => Returns a.

#[global] Instance outcome_bind : MBind outcome := fun _ _ k o =>
  match o with
  | Returns a => k a
  | Blocks => Blocks
  | Panics => Panics
  end.

Definition returned {A} (o : outcome A) : bool :=
  match o with Returns _ => true | _ => false end.

(** A Go [error]: [nil] or a value carrying its [Error()] text. *)
Definition error := option string.

(** ** [sync.RWMutex] seen from one caller at a time *)

Record RWMutex := { writer : bool; readers : nat }.

Definition unlocked : RWMutex := {| writer := false; readers := 0 |}.

Definition Lock (m : RWMutex) : outcome RWMutex :=
  if writer m || (0 <? readers m)%nat then Blocks
  else Returns {| writer := true; readers := readers m |}.

Definition Unlock (m : RWMutex) : outcome RWMutex :=
  if writer m then Returns {| writer := false; readers := readers m |}
  else Panics.

Definition RLock (m : RWMutex) : outcome RWMutex :=
  if writer m then Blocks
  else Returns {| writer := false; readers := S (readers m) |}.

Definition RUnlock (m : RWMutex) : outcome RWMutex :=
  match readers m with
  | O => Panics
  | S n => Returns {| writer := writer m; readers := n |}
  end.

(** ** The in-memory saga log *)

Module SagaLog.

(** Modelled from the spec: the message kinds of section 3 (the declaration
    of [SagaMessageType] lives in another file of package [saga]). *)
Inductive SagaMessageType :=
  | MsgStartSaga | MsgEndSaga | MsgAbortSaga
  | MsgStartTask | MsgEndTask | MsgStartCompTask | MsgEndCompTask.

#[global] Instance SagaMessageType_eq_dec : EqDecision SagaMessageType.
Proof. solve_decision. Defined.

(** [sagaMessage]: the fields the log reads ([sagaId], [msgType], [taskId])
    and the payload. *)
Record sagaMessage := {
  sagaId : string;
  msgType : SagaMessageType;
  taskId : string;
  data : list Byte.byte;
}.

(** Modelled from the spec: [StartSagaMessageFactory] builds the [StartSaga]
    record of a saga, carrying the job blob. *)
Definition StartSagaMessageFactory (id : string) (job : list Byte.byte)
  : sagaMessage :=
  {| sagaId := id; msgType := MsgStartSaga; taskId := ""; data := job |}.

Record inMemorySagaLog := {
  sagas : gmap string (list sagaMessage);
  mutex : RWMutex;
}.

(** [InMemorySagaFactory]: an empty map and a fresh lock. *)
Definition InMemorySagaFactory : inMemorySagaLog :=
  {| sagas := ∅; mutex := unlocked |}.

Definition notStartedMsg (id : string) : string :=
  "Saga: " +:+ id +:+ " is not Started yet.".

(** [LogMessage]: the early return of the missing-saga branch leaves the
    write lock as [Lock] set it.  (The [fmt.Println] trace line is console
    output only and is left out.) *)
Definition LogMessage (msg : sagaMessage) (log : inMemorySagaLog)
  : outcome (error * inMemorySagaLog) :=
  let id := sagaId msg in
  m1 ← Lock (mutex log);
  match sagas log !! id with
  | None =>
      Returns (Some (notStartedMsg (sagaId msg)),
               {| sagas := sagas log; mutex := m1 |})
  | Some msgs =>
      let sagas' := <[id := msgs ++ [msg]]> (sagas log) in
      m2 ← Unlock m1;
      Returns (None, {| sagas := sagas'; mutex := m2 |})
  end.

Definition StartSaga (id : string) (job : list Byte.byte)
  (log : inMemorySagaLog) : outcome (error * inMemorySagaLog) :=
  m1 ← Lock (mutex log);
  let startMsg := StartSagaMessageFactory id job in
  let sagas' := <[id := [startMsg]]> (sagas log) in
  m2 ← Unlock m1;
  Returns (None, {| sagas := sagas'; mutex := m2 |}).

(** [GetMessages] returns the stored slice and a nil error, or a nil slice
    and a nil error. *)
Definition GetMessages (id : string) (log : inMemorySagaLog)
  : outcome ((list sagaMessage * error) * inMemorySagaLog) :=
  m1 ← RLock (mutex log);
  let r := sagas log !! id in
  m2 ← RUnlock m1;
  let log' := {| sagas := sagas log; mutex := m2 |} in
  match r with
  | Some msgs => Returns ((msgs, None), log')
  | None => Returns (([], None), log')
  end.

(** A run of [LogMessage] calls, stopping at the first call that does not
    return or that returns an error. *)
Fixpoint LogMessages (ms : list sagaMessage) (log : inMemorySagaLog)
  : outcome (error * inMemorySagaLog) :=
  match ms with
  | [] => Returns (None, log)
  | m :: ms' =>
      r ← LogMessage m log;
      match fst r with
      | Some e => Returns (Some e, snd r)
      | None => LogMessages ms' (snd r)
      end
  end.

Definition hasEndSaga (msgs : list sagaMessage) : bool :=
  existsb (fun m => bool_decide (msgType m = MsgEndSaga)) msgs.

(** *** Inputs and statements for the properties below *)

(** Concrete inputs: a task message of saga [j], and a log in which saga
    [j] has already ended. *)
Definition taskMsg : sagaMessage :=
  {| sagaId := "j"; msgType := MsgStartTask; taskId := "t1"; data := [] |}.

Definition endMsg : sagaMessage :=
  {| sagaId := "j"; msgType := MsgEndSaga; taskId := ""; data := [] |}.

Definition endedLog : inMemorySagaLog :=
  {| sagas := {[ "j" := [StartSagaMessageFactory "j" []; endMsg] ]};
     mutex := unlocked |}.

(** "After [EndSaga], a further [LogMessage] for the saga returns an error
    and leaves the stored sequence unchanged", at one message and log. *)
Definition rejects_after_EndSaga (msg : sagaMessage) (log : inMemorySagaLog)
  : Prop :=
  forall msgs,
    sagas log !! sagaId msg = Some msgs ->
    hasEndSaga msgs = true ->
    exists e log',
      LogMessage msg log = Returns (Some e, log') /\
      sagas log' !! sagaId msg = Some msgs.

(** "[GetMessages] on a saga that was never started returns an error", at
    one saga id and log. *)
Definition unstarted_is_error (id : string) (log : inMemorySagaLog) : Prop :=
  sagas log !! id = None ->
  exists msgs e log', GetMessages id log = Returns ((msgs, Some e), log').

(** A second [StartSaga] with the same blob after the messages [ms] were
    logged: the stored sequence before it, its error, and the stored
    sequence after it. *)
Definition restart (id : string) (job : list Byte.byte) (ms : list sagaMessage)
  (log : inMemorySagaLog)
  : outcome (option (list sagaMessage) * error * option (list sagaMessage)) :=
  r1 ← StartSaga id job log;
  r2 ← LogMessages ms r1.2;
  r3 ← StartSaga id job r2.2;
  Returns (sagas r2.2 !! id, r3.1, sagas r3.2 !! id).

(** "An exact-match second [StartSaga] returns ok and leaves the stored
    sequence unchanged", at one input. *)
Definition restart_preserves (id : string) (job : list Byte.byte)
  (ms : list sagaMessage) (log : inMemorySagaLog) : Prop :=
  exists stored,
    restart id job ms log = Returns (Some stored, None, Some stored).

(** [StartSaga], then the messages [ms], then [GetMessages]. *)
Definition session (id : string) (job : list Byte.byte) (ms : list sagaMessage)
  (log : inMemorySagaLog) : outcome (list sagaMessage * error) :=
  r1 ← StartSaga id job log;
  r2 ← LogMessages ms r1.2;
  r3 ← GetMessages id r2.2;
  Returns r3.1.

End SagaLog.

(** ** The worker server handler *)

Module Worker.

(** A run identifier, as the runner hands it out. *)
Definition RunID := string.

(** Modelled from the spec: the run states of section 4.4 together with the
    [UNKNOWN] and [BADREQUEST] states the handler names (the declaration of
    [runner.RunState] lives in package [runner]). *)
Inductive RunState :=
  | UNKNOWN | PENDING | PREPARING | RUNNING
  | COMPLETE | FAILED | ABORTED | TIMEDOUT | BADREQUEST.

#[global] Instance RunState_eq_dec : EqDecision RunState.
Proof. solve_decision. Defined.

Definition IsDone (s : RunState) : bool :=
  match s with
  | COMPLETE | FAILED | ABORTED | TIMEDOUT | BADREQUEST => true
  | _ => false
  end.

(** [runner.RunStatus], with the fields the handler reads and writes. *)
Record RunStatus := {
  RunID_of : RunID;
  State : RunState;
  Error : string;
}.

#[global] Instance RunStatus_eq_dec : EqDecision RunStatus.
Proof. solve_decision. Defined.

(** The zero value of [runner.RunStatus]. *)
Definition zeroStatus : RunStatus :=
  {| RunID_of := ""; State := UNKNOWN; Error := "" |}.

(** [runner.Command], with the fields [sched.thrift] gives a command.  A Go
    slice is [None] when it is nil: [reflect.DeepEqual] tells a nil slice
    from an empty one. *)
Record Command := {
  Argv : option (list string);
  EnvVars : gmap string string;
  Timeout : Z;
  SnapshotID : string;
}.

#[global] Instance Command_eq_dec : EqDecision Command.
Proof. solve_decision. Defined.

(** [reflect.DeepEqual] on two [[]string] values. *)
Definition DeepEqual (a b : option (list string)) : bool :=
  match a, b with
  | None, None => true
  | Some x, Some y => bool_decide (x = y)
  | _, _ => false
  end.

(** The [runner.Service] interface the handler drives; each method threads
    the runner's own state [R].  [QueueFullMsg] is the text of the error a
    full runner answers [Run] with. *)
Class Service (R : Type) := {
  QueueFullMsg : string;
  Service_Run : Command -> R -> (RunStatus * error) * R;
  Service_Status : RunID -> R -> (RunStatus * error) * R;
  Service_StatusAll : R -> (list RunStatus * error) * R;
  Service_Abort : RunID -> R -> (RunStatus * error) * R;
  Service_Erase : RunID -> R -> R;
}.

(** The thrift wire types and the conversions of package [workerapi]. *)
Class Thrift (TCmd TStatus : Type) := {
  ThriftRunCommandToDomain : TCmd -> Command;
  DomainRunStatusToThrift : RunStatus -> TStatus;
}.

(** The handler.  [mu] tells whether the mutex is held; [currentCmd] is a
    pointer and starts out nil.  The stats receiver only counts and is left
    out. *)
Record handler (R : Type) := {
  run : R;
  timeLastRpc : Z;
  mu : bool;
  currentCmd : option Command;
  currentRunID : RunID;
}.

Arguments run {R} _.
Arguments timeLastRpc {R} _.
Arguments mu {R} _.
Arguments currentCmd {R} _.
Arguments currentRunID {R} _.

(** [NewHandler]: every field but the runner has its zero value. *)
Definition NewHandler {R} (r : R) : handler R :=
  {| run := r; timeLastRpc := 0; mu := false;
     currentCmd := None; currentRunID := "" |}.

(** The RunIDs a runner knows, as [StatusAll] lists them. *)
Definition runIDs {R} `{Service R} (r : R) : gset RunID :=
  list_to_set (RunID_of <$> (Service_StatusAll r).1.1).

Section Handler.
Context {R TCmd TStatus : Type} `{Service R} `{Thrift TCmd TStatus}.

(** [updateTimeLastRpc] takes the mutex, stores the time and releases it. *)
Definition updateTimeLastRpc (now : Z) (h : handler R) : outcome (handler R) :=
  if mu h then Blocks
  else Returns {| run := run h; timeLastRpc := now; mu := false;
                  currentCmd := currentCmd h;
                  currentRunID := currentRunID h |}.

(** The duplicate-retry test of [Run], with the short circuit of [&&]:
    [h.currentCmd.Argv] is read only after the two tests on [err], and reads
    through the pointer. *)
Definition isDupRetry (c : Command) (err : error) (cur : option Command)
  : outcome bool :=
  match err with
  | None => Returns false
  | Some e =>
      if bool_decide (e = QueueFullMsg) then
        match cur with
        | None => Panics
        | Some cc => Returns (DeepEqual (Argv c) (Argv cc))
        end
      else Returns false
  end.

Definition Run (cmd : TCmd) (now : Z) (h : handler R)
  : outcome ((TStatus * error) * handler R) :=
  h1 ← updateTimeLastRpc now h;
  let c := ThriftRunCommandToDomain cmd in
  let '((status, err), r1) := Service_Run c (run h1) in
  dup ← isDupRetry c err (currentCmd h1);
  let '((status, err), r2) :=
    if dup : bool then Service_Status (currentRunID h1) r1
    else ((status, err), r1) in
  match err with
  | Some e =>
      let status' :=
        {| RunID_of := RunID_of status; State := BADREQUEST; Error := e |} in
      Returns ((DomainRunStatusToThrift status', None),
               {| run := r2; timeLastRpc := timeLastRpc h1; mu := mu h1;
                  currentCmd := currentCmd h1;
                  currentRunID := currentRunID h1 |})
  | None =>
      Returns ((DomainRunStatusToThrift status, None),
               {| run := r2; timeLastRpc := timeLastRpc h1; mu := mu h1;
                  currentCmd := Some c;
                  currentRunID := RunID_of status |})
  end.

Definition Abort (runId : string) (now : Z) (h : handler R)
  : outcome ((TStatus * error) * handler R) :=
  h1 ← updateTimeLastRpc now h;
  let '((status, err), r1) := Service_Abort runId (run h1) in
  let status' :=
    match err with
    | Some e => {| RunID_of := runId; State := UNKNOWN; Error := e |}
    | None => status
    end in
  Returns ((DomainRunStatusToThrift status', None),
           {| run := r1; timeLastRpc := timeLastRpc h1; mu := mu h1;
              currentCmd := currentCmd h1;
              currentRunID := currentRunID h1 |}).

Definition Erase (runId : string) (now : Z) (h : handler R)
  : outcome (error * handler R) :=
  h1 ← updateTimeLastRpc now h;
  Returns (None,
           {| run := Service_Erase runId (run h1);
              timeLastRpc := timeLastRpc h1; mu := mu h1;
              currentCmd := currentCmd h1;
              currentRunID := currentRunID h1 |}).

End Handler.

(** What the handler expects of a runner: a [Run] that fails and a [Status]
    query leave the set of runs alone, and [Status] knows every run that
    [StatusAll] lists and answers about the run it was asked about. *)
Class ServiceLaws (R : Type) `{Service R} := {
  Run_error_runIDs : forall c r st e r',
    Service_Run c r = ((st, Some e), r') -> runIDs r' = runIDs r;
  Status_runIDs : forall id r st err r',
    Service_Status id r = ((st, err), r') -> runIDs r' = runIDs r;
  Status_RunID : forall id r st r',
    Service_Status id r = ((st, None), r') -> RunID_of st = id;
  Status_known : forall id r,
    id ∈ runIDs r -> exists st r', Service_Status id r = ((st, None), r');
}.

(** Modelled from the spec: the worker runner of section 4.4, which runs at
    most one active command at a time, answers [QueueFull] to a [Run] while
    a prior run is not done, and serves [Status] from its cache of latest
    statuses (the runner implementations live in package [runners]). *)
Record singleRunner := {
  cache : list RunStatus;
  issued : nat;
}.

Definition newSingleRunner : singleRunner := {| cache := []; issued := 0 |}.

Definition isActive (st : RunStatus) : bool := negb (IsDone (State st)).

Definition findRun (id : RunID) (l : list RunStatus) : option RunStatus :=
  find (fun st => bool_decide (RunID_of st = id)) l.

Definition freshRunID (n : nat) : RunID := "run-" +:+ pretty n.

Definition queueFullText : string := "No resources available".

Definition single_Run (c : Command) (r : singleRunner)
  : (RunStatus * error) * singleRunner :=
  if existsb isActive (cache r) then ((zeroStatus, Some queueFullText), r)
  else
    let st := {| RunID_of := freshRunID (issued r); State := PENDING;
                 Error := "" |} in
    ((st, None), {| cache := cache r ++ [st]; issued := S (issued r) |}).

Definition single_Status (id : RunID) (r : singleRunner)
  : (RunStatus * error) * singleRunner :=
  match findRun id (cache r) with
  | Some st => ((st, None), r)
  | None => ((zeroStatus, Some ("unknown run id " +:+ id)), r)
  end.

Definition single_Abort (id : RunID) (r : singleRunner)
  : (RunStatus * error) * singleRunner :=
  match findRun id (cache r) with
  | Some st =>
      let st' := if isActive st
                 then {| RunID_of := id; State := ABORTED; Error := "" |}
                 else st in
      ((st', None),
       {| cache := (fun s => if bool_decide (RunID_of s = id) then st' else s)
                     <$> cache r;
          issued := issued r |})
  | None => ((zeroStatus, Some ("unknown run id " +:+ id)), r)
  end.

Definition single_Erase (id : RunID) (r : singleRunner) : singleRunner :=
  {| cache := filter (fun s => ¬ (RunID_of s = id ∧ isActive s = false))
                     (cache r);
     issued := issued r |}.

#[global] Instance singleRunner_Service : Service singleRunner := {|
  QueueFullMsg := queueFullText;
  Service_Run := single_Run;
  Service_Status := single_Status;
  Service_StatusAll := fun r => ((cache r, None), r);
  Service_Abort := single_Abort;
  Service_Erase := single_Erase;
|}.

(** A stand-in to run the handler on: the identity binding of the wire
    types. *)
#[global] Instance plain_Thrift : Thrift Command RunStatus := {|
  ThriftRunCommandToDomain := fun c => c;
  DomainRunStatusToThrift := fun s => s;
|}.

(** *** Inputs for the properties below *)

(** Concrete inputs: a command, the runner once it has accepted the command,
    and the handler after that first [Run]. *)
Definition echoCmd : Command :=
  {| Argv := Some ["echo"; "hi"]; EnvVars := ∅; Timeout := 0;
     SnapshotID := "empty" |}.

Definition pendingStatus : RunStatus :=
  {| RunID_of := "run-0"; State := PENDING; Error := "" |}.

Definition busyRunner : singleRunner :=
  {| cache := [pendingStatus]; issued := 1 |}.

Definition busyHandler : handler singleRunner :=
  {| run := busyRunner; timeLastRpc := 1; mu := false;
     currentCmd := Some echoCmd; currentRunID := "run-0" |}.

End Worker.

(** ** The cluster membership view *)

Module ClusterView.

Definition NodeId := string.

(** Modelled from the spec: a node is identified by its [NodeId] and carries
    metadata for the runner adapter (the [Node] interface lives in another
    file of package [cluster]). *)
Record Node := { Id : NodeId; meta : string }.

#[global] Instance Node_eq_dec : EqDecision Node.
Proof. solve_decision. Defined.

(** Modelled from the spec: [NodeUpdate] is the tagged variant [Added(Node)]
    or [Removed(NodeId)]. *)
Inductive NodeUpdate :=
  | Added (n : Node)
  | Removed (id : NodeId).

#[global] Instance NodeUpdate_eq_dec : EqDecision NodeUpdate.
Proof. solve_decision. Defined.

(** *** The membership state (package file [state.go], modelled) *)

(** Modelled from the spec: [MakeState] builds the map [NodeId -> Node] of
    the given nodes. *)
Definition MakeState (ns : list Node) : gmap NodeId Node :=
  foldl (fun m n => <[Id n := n]> m) ∅ ns.

(** Modelled from the spec: node ids are put in lexicographic order. *)
Definition sortIds (l : list NodeId) : list NodeId := merge_sort String.le l.

(** Modelled from the spec: the ids a new membership no longer has, in
    lexicographic order. *)
Definition removals (old new : gmap NodeId Node) : list NodeId :=
  sortIds (elements (dom old ∖ dom new)).

(** Modelled from the spec: the nodes a new membership has gained, in
    lexicographic order of their ids. *)
Definition additions (old new : gmap NodeId Node) : list Node :=
  omap (fun id => new !! id) (sortIds (elements (dom new ∖ dom old))).

(** Modelled from the spec: the delta between two memberships, removals
    first, then additions. *)
Definition delta (old new : gmap NodeId Node) : list NodeUpdate :=
  (Removed <$> removals old new) ++ (Added <$> additions old new).

(** Modelled from the spec: one update of a batch inserts on
    Added-not-present and removes on Removed-present; Added-present and
    Removed-absent change nothing. *)
Definition applyUpdate (m : gmap NodeId Node) (u : NodeUpdate)
  : gmap NodeId Node :=
  match u with
  | Added n => match m !! Id n with Some _ => m | None => <[Id n := n]> m end
  | Removed id => delete id m
  end.

(** Modelled from the spec: [State.FilterAndUpdate] applies a batch and
    answers the computed delta. *)
Definition FilterAndUpdate (us : list NodeUpdate) (st : gmap NodeId Node)
  : list NodeUpdate * gmap NodeId Node :=
  let st' := foldl applyUpdate st us in (delta st st', st').

(** Modelled from the spec: [State.SetAndDiff] replaces the membership by a
    full snapshot and answers the diff. *)
Definition SetAndDiff (ns : list Node) (st : gmap NodeId Node)
  : list NodeUpdate * gmap NodeId Node :=
  let st' := MakeState ns in (delta st st', st').

(** *** Channels, slices and the heap *)

(** A channel is known by its identity; [0] is the nil channel. *)
Definition chanId := nat.

(** Modelled from the spec: a subscriber holds its one-shot initial
    snapshot and the channel the view sends its updates on
    ([newSubscriber] lives in another file of package [cluster]). *)
Record Subscriber := { initial : list Node; inCh : chanId }.

#[global] Instance Subscriber_eq_dec : EqDecision Subscriber.
Proof. solve_decision. Defined.

Definition newSubscriber (ns : list Node) (ch : chanId) : Subscriber :=
  {| initial := ns; inCh := ch |}.

(** What travels on [c.ch] (an [interface{}]). *)
Inductive ingest :=
  | Updates (us : list NodeUpdate)
  | Nodes (ns : list Node)
  | OtherValue.

(** What travels on [c.reqCh] (an [interface{}]): the reply channel of
    [Members], the reply channel of [Subscribe], or the update channel of a
    subscription to close. *)
Inductive request :=
  | MembersReq (reply : chanId)
  | SubscribeReq (reply : chanId)
  | CloseSubReq (sub : chanId)
  | OtherReq.

(** The channel operations the view performs, in program order. *)
Inductive event :=
  | SendUpdates (ch : chanId) (us : list NodeUpdate)
  | SendMembers (ch : chanId) (ns : list Node)
  | SendSubscriber (ch : chanId) (s : Subscriber)
  | CloseChan (ch : chanId).

#[global] Instance event_eq_dec : EqDecision event.
Proof. solve_decision. Defined.

(** A Go slice header: the address of its backing array (the slice starts
    at the array's first element), its length and its capacity.  The nil
    slice has address [0], where no array lives. *)
Record slice := { ptr : nat; len : nat; cap : nat }.

Definition nil_slice : slice := {| ptr := 0; len := 0; cap := 0 |}.

(** The view together with the run-time state its code acts on: the heap of
    backing arrays, the allocation counters, the channels closed so far and
    the trace of channel operations.  [reqCh] and [ch] are [None] when the
    field is nil. *)
Record Cluster := {
  State : gmap NodeId Node;
  reqCh : option chanId;
  ch : option chanId;
  subs : slice;
  heap : gmap nat (list chanId);
  nextLoc : nat;
  nextChan : chanId;
  closed : gset chanId;
  trace : list event;
}.

Definition set_State (v : gmap NodeId Node) (c : Cluster) : Cluster :=
  {| State := v; reqCh := reqCh c; ch := ch c; subs := subs c;
     heap := heap c; nextLoc := nextLoc c; nextChan := nextChan c;
     closed := closed c; trace := trace c |}.

Definition set_reqCh (v : option chanId) (c : Cluster) : Cluster :=
  {| State := State c; reqCh := v; ch := ch c; subs := subs c;
     heap := heap c; nextLoc := nextLoc c; nextChan := nextChan c;
     closed := closed c; trace := trace c |}.

Definition set_ch (v : option chanId) (c : Cluster) : Cluster :=
  {| State := State c; reqCh := reqCh c; ch := v; subs := subs c;
     heap := heap c; nextLoc := nextLoc c; nextChan := nextChan c;
     closed := closed c; trace := trace c |}.

Definition set_subs (v : slice) (c : Cluster) : Cluster :=
  {| State := State c; reqCh := reqCh c; ch := ch c; subs := v;
     heap := heap c; nextLoc := nextLoc c; nextChan := nextChan c;
     closed := closed c; trace := trace c |}.

Definition set_heap (v : gmap nat (list chanId)) (n : nat) (c : Cluster)
  : Cluster :=
  {| State := State c; reqCh := reqCh c; ch := ch c; subs := subs c;
     heap := v; nextLoc := n; nextChan := nextChan c;
     closed := closed c; trace := trace c |}.

Definition emit (e : event) (c : Cluster) : Cluster :=
  {| State := State c; reqCh := reqCh c; ch := ch c; subs := subs c;
     heap := heap c; nextLoc := nextLoc c; nextChan := nextChan c;
     closed := closed c; trace := trace c ++ [e] |}.

(** [make(chan ...)]: a channel that did not exist before. *)
Definition make_chan (c : Cluster) : chanId * Cluster :=
  (nextChan c,
   {| State := State c; reqCh := reqCh c; ch := ch c; subs := subs c;
      heap := heap c; nextLoc := nextLoc c; nextChan := S (nextChan c);
      closed := closed c; trace := trace c |}).

(** [ch <- v]: a send on a closed channel panics, a send on the nil channel
    blocks forever; otherwise the receiver is taken to be ready. *)
Definition send (target : chanId) (e : event) (c : Cluster) : outcome Cluster :=
  if bool_decide (target = 0) then Blocks
  else if bool_decide (target ∈ closed c) then Panics
  else Returns (emit e c).

(** [close(ch)]: closing the nil channel or a closed channel panics. *)
Definition close_chan (target : chanId) (c : Cluster) : outcome Cluster :=
  if bool_decide (target = 0) then Panics
  else if bool_decide (target ∈ closed c) then Panics
  else Returns
    {| State := State c; reqCh := reqCh c; ch := ch c; subs := subs c;
       heap := heap c; nextLoc := nextLoc c; nextChan := nextChan c;
       closed := {[target]} ∪ closed c;
       trace := trace c ++ [CloseChan target] |}.

(** The backing array of a slice and the elements the slice shows. *)
Definition array_of (h : gmap nat (list chanId)) (s : slice) : list chanId :=
  default [] (h !! ptr s).

Definition elems (h : gmap nat (list chanId)) (s : slice) : list chanId :=
  take (len s) (array_of h s).

(** The capacity [append] gives a slice that has to grow: the run-time
    doubles small slices.  Nothing below depends on the exact capacity. *)
Definition growcap (old needed : nat) : nat :=
  if 2 * old <? needed then needed else 2 * old.

(** [append(s, xs...)]: within capacity the elements are written into the
    backing array in place, after the first [len s] elements; otherwise a
    new array is allocated and the old one is left as it is. *)
Definition goappend (s : slice) (xs : list chanId) (c : Cluster)
  : slice * Cluster :=
  let n := len s + length xs in
  if n <=? cap s then
    let write arr := take (len s) arr ++ xs ++ drop n arr in
    ({| ptr := ptr s; len := n; cap := cap s |},
     set_heap (alter write (ptr s) (heap c)) (nextLoc c) c)
  else
    let k := growcap (cap s) n in
    let arr := elems (heap c) s ++ xs ++ replicate (k - n) 0 in
    let l := S (nextLoc c) in
    ({| ptr := l; len := n; cap := k |}, set_heap (<[l := arr]> (heap c)) l c).

(** [s[0:i]] and the elements of [s[i:]]. *)
Definition prefix_slice (s : slice) (i : nat) : slice :=
  {| ptr := ptr s; len := i; cap := cap s |}.

Definition suffix_elems (h : gmap nat (list chanId)) (s : slice) (i : nat)
  : list chanId :=
  drop i (elems h s).

(** The subscribers of a view, as [c.subs] lists them. *)
Definition subscribers (c : Cluster) : list chanId := elems (heap c) (subs c).

(** *** The view's own code *)

(** [NewCluster]: the request channel is the first channel made; the
    goroutine it starts is [loop] below. *)
Definition NewCluster (state : list Node) (input : option chanId) : Cluster :=
  {| State := MakeState state; reqCh := Some 1; ch := input;
     subs := nil_slice; heap := ∅; nextLoc := 0; nextChan := 2;
     closed := ∅; trace := [] |}.

Definition done (c : Cluster) : bool :=
  bool_decide (ch c = None) && bool_decide (reqCh c = None).

(** Modelled from the spec: [NodeSorter] orders nodes lexicographically by
    [NodeId]. *)
Definition NodeSorter (a b : Node) : Prop := String.le (Id a) (Id b).

#[global] Instance NodeSorter_dec : RelDecision NodeSorter.
Proof. intros a b. unfold NodeSorter. apply _. Defined.

(** [current]: the nodes of the map, sorted with [NodeSorter]. *)
Definition current (c : Cluster) : list Node :=
  merge_sort NodeSorter (snd <$> map_to_list (State c)).

(** The position of the first element equal to [x], as the loop
    [for i, sub := range c.subs] finds it. *)
Definition index_of (x : chanId) (l : list chanId) : option nat :=
  fst <$> list_find (fun y => y = x) l.

Definition handleReq (req : request) (c : Cluster) : outcome Cluster :=
  match req with
  | MembersReq reply => send reply (SendMembers reply (current c)) c
  | SubscribeReq reply =>
      let '(sub, c1) := make_chan c in
      let s := newSubscriber (current c1) sub in
      let '(subs', c2) := goappend (subs c1) [sub] c1 in
      send reply (SendSubscriber reply s) (set_subs subs' c2)
  | CloseSubReq req =>
      match index_of req (subscribers c) with
      | Some i =>
          let '(subs', c1) :=
            goappend (prefix_slice (subs c) i)
                     (suffix_elems (heap c) (subs c) (S i)) c in
          close_chan req (set_subs subs' c1)
      | None => Returns c
      end
  | OtherReq => Returns c
  end.

(** The loop of [Close]: [range c.subs] fixes the slice header [s] once;
    each iteration reads element [i] from the backing array as it is then,
    and [handleReq] goes on writing to that same array. *)
Fixpoint Close_range (s : slice) (i n : nat) (c : Cluster) : outcome Cluster :=
  match n with
  | O => Returns c
  | S n' =>
      let v := default 0 (array_of (heap c) s !! i) in
      c' ← handleReq (CloseSubReq v) c;
      Close_range s (S i) n' c'
  end.

Definition Close (c : Cluster) : outcome Cluster :=
  c1 ← Close_range (subs c) 0 (len (subs c)) c;
  let c2 := set_subs nil_slice c1 in
  match reqCh c2 with
  | None => Panics
  | Some r => close_chan r c2
  end.

(** [for _, sub := range c.subs { sub <- outgoing }]. *)
Fixpoint broadcast (outgoing : list NodeUpdate) (l : list chanId) (c : Cluster)
  : outcome Cluster :=
  match l with
  | [] => Returns c
  | sub :: l' =>
      c' ← send sub (SendUpdates sub outgoing) c;
      broadcast outgoing l' c'
  end.

(** [for _, sub := range c.subs { close(sub) }]. *)
Fixpoint close_all (l : list chanId) (c : Cluster) : outcome Cluster :=
  match l with
  | [] => Returns c
  | sub :: l' => c' ← close_chan sub c; close_all l' c'
  end.

(** What [select] hands to one iteration of the loop: a value received on
    [c.ch] or on [c.reqCh], or [None] when that channel is closed. *)
Inductive received :=
  | RecvCh (v : option ingest)
  | RecvReq (v : option request).

Definition computeOutgoing (v : ingest) (st : gmap NodeId Node)
  : list NodeUpdate * gmap NodeId Node :=
  match v with
  | Updates us => FilterAndUpdate us st
  | Nodes ns => SetAndDiff ns st
  | OtherValue => ([], st)
  end.

(** One iteration of [loop].  A nil channel is never ready, so a case on it
    leaves the view as it is. *)
Definition loop_body (r : received) (c : Cluster) : outcome Cluster :=
  match r with
  | RecvCh v =>
      match ch c, v with
      | None, _ => Returns c
      | Some _, None => Returns (set_ch None c)
      | Some _, Some x =>
          let '(outgoing, st') := computeOutgoing x (State c) in
          let c1 := set_State st' c in
          broadcast outgoing (subscribers c1) c1
      end
  | RecvReq v =>
      match reqCh c, v with
      | None, _ => Returns c
      | Some _, None => Returns (set_reqCh None c)
      | Some _, Some req => handleReq req c
      end
  end.

(** [loop] on the inputs [select] yields: it answers [true] with the final
    view once [done] holds and the subscribers are closed, and [false] with
    the view it waits in when the inputs run out before. *)
Fixpoint loop (inputs : list received) (c : Cluster)
  : outcome (bool * Cluster) :=
  if done c then
    c' ← close_all (subscribers c) c; Returns (true, c')
  else
    match inputs with
    | [] => Returns (false, c)
    | r :: rs => c' ← loop_body r c; loop rs c'
    end.

(** The updates sent on one subscriber channel, in the order sent. *)
Definition deliveries (sub : chanId) (tr : list event)
  : list (list NodeUpdate) :=
  omap (fun e => match e with
                 | SendUpdates s us =>
                     if bool_decide (s = sub) then Some us else None
                 | _ => None
                 end) tr.

(** A delta in the order the spec asks for. *)
Definition ordered_delta (d : list NodeUpdate) : Prop :=
  exists (rem : list NodeId) (add : list Node),
    d = (Removed <$> rem) ++ (Added <$> add) /\
    StronglySorted String.le rem /\
    StronglySorted String.le (Id <$> add).

(** *** Invariants, inputs and expected outputs for the properties below *)

(** The membership map is keyed by the nodes' own ids. *)
Definition keyed (m : gmap NodeId Node) : Prop :=
  forall id n, m !! id = Some n -> Id n = id.

(** Every subscriber channel of the view is a real channel that is still
    open, and no channel is subscribed twice. *)
Definition open_subs (c : Cluster) : Prop :=
  Forall (fun s => s <> 0 /\ s ∉ closed c) (subscribers c) /\
  NoDup (subscribers c).

(** The deltas a run of ingests computes, in ingest order. *)
Fixpoint deltas (xs : list ingest) (st : gmap NodeId Node)
  : list (list NodeUpdate) :=
  match xs with
  | [] => []
  | x :: xs' =>
      (computeOutgoing x st).1 :: deltas xs' (computeOutgoing x st).2
  end.

(** The sends of one delta to the subscribers, in the order of [c.subs]. *)
Definition fanout (l : list chanId) (d : list NodeUpdate) : list event :=
  (fun s => SendUpdates s d) <$> l.

(** The view with more events at the end of its trace. *)
Definition add_trace (es : list event) (c : Cluster) : Cluster :=
  {| State := State c; reqCh := reqCh c; ch := ch c; subs := subs c;
     heap := heap c; nextLoc := nextLoc c; nextChan := nextChan c;
     closed := closed c; trace := trace c ++ es |}.

(** Concrete inputs: a view with three subscribers, as three [Subscribe]
    requests leave it, and two ingests. *)
Definition subscribe3 : list received :=
  [RecvReq (Some (SubscribeReq 10)); RecvReq (Some (SubscribeReq 11));
   RecvReq (Some (SubscribeReq 12))].

Definition threeSubs : Cluster :=
  {| State := ∅; reqCh := Some 1; ch := Some 100;
     subs := {| ptr := 3; len := 3; cap := 4 |};
     heap := {[ 1 := [2]; 2 := [2; 3]; 3 := [2; 3; 4; 0] ]};
     nextLoc := 3; nextChan := 5; closed := ∅;
     trace := [SendSubscriber 10 {| initial := []; inCh := 2 |};
               SendSubscriber 11 {| initial := []; inCh := 3 |};
               SendSubscriber 12 {| initial := []; inCh := 4 |}] |}.

Definition node (id : string) : Node := {| Id := id; meta := "" |}.

Definition twoIngests : list ingest :=
  [Nodes [node "b"; node "a"];
   Updates [Removed "a"; Added (node "c"); Added (node "0")]].

(** A slice header fits its backing array. *)
Definition slice_ok (h : gmap nat (list chanId)) (s : slice) : Prop :=
  length (array_of h s) = cap s /\ len s <= cap s.

(** What holds of the view between two iterations of [loop]: the map is
    keyed by node id, [c.subs] fits its array, the subscribers are open and
    distinct, and every channel the view has made is older than the next
    one it will make. *)
Record Inv (c : Cluster) : Prop := {
  inv_keyed : keyed (State c);
  inv_slice : slice_ok (heap c) (subs c);
  inv_open : open_subs c;
  inv_fresh : forall s, s ∈ subscribers c \/ s ∈ closed c -> s < nextChan c;
  inv_next : 0 < nextChan c;
  inv_req : forall r,
    reqCh c = Some r -> (r ∉ subscribers c) /\ r < nextChan c;
}.

(** What holds of the view inside the loop of [Close], from its second
    iteration on: [s] is the slice header the [range] goes over, [e] the
    channel at the head of its backing array, which is the head of [c.subs]
    and open, and which no later position the [range] reads holds. *)
Definition skipped (s : slice) (e : chanId) (rq : option chanId) (c : Cluster)
  : Prop :=
  exists arr,
    heap c !! ptr s = Some arr /\ length arr = cap s /\
    ptr (subs c) = ptr s /\ cap (subs c) = cap s /\
    1 <= len (subs c) /\ len (subs c) <= len s /\ len s <= cap s /\
    arr !! 0 = Some e /\
    (forall j, 1 <= j < len s -> arr !! j <> Some e) /\
    e <> 0 /\ (e ∉ closed c) /\ reqCh c = rq.

(** The backing array once [append(s[0:i], s[i+1:]...)] has written to it,
    for a slice of length [m]. *)
Definition shifted (i m : nat) (arr : list chanId) : list chanId :=
  take i arr ++ drop (S i) (take m arr) ++ drop (m - 1) arr.

(** The deltas the loop computes over the inputs [rs], in ingest order;
    [open] tells whether [c.ch] is still non-nil. *)
Fixpoint run_deltas (rs : list received) (open : bool)
  (st : gmap NodeId Node) : list (list NodeUpdate) :=
  match rs with
  | [] => []
  | RecvCh (Some x) :: rs' =>
      if open
      then (computeOutgoing x st).1
             :: run_deltas rs' open (computeOutgoing x st).2
      else run_deltas rs' open st
  | RecvCh None :: rs' => run_deltas rs' false st
  | RecvReq _ :: rs' => run_deltas rs' open st
  end.

Definition ch_open (c : Cluster) : bool :=
  match ch c with Some _ => true | None => false end.

(** The view [threeSubs] after [Close], and after the loop has then seen
    both of its channels closed and has left. *)
Definition afterClose : Cluster :=
  {| State := ∅; reqCh := Some 1; ch := Some 100;
     subs := nil_slice;
     heap := {[ 1 := [2]; 2 := [2; 3]; 3 := [3; 4; 4; 0] ]};
     nextLoc := 3; nextChan := 5; closed := {[ 1; 2; 4 ]};
     trace := trace threeSubs ++ [CloseChan 2; CloseChan 4; CloseChan 1] |}.

Definition afterLoop : Cluster := set_ch None (set_reqCh None afterClose).

End ClusterView.

(** ** Bazel remote-execution types shared by the two façades *)

Module Bazel.

(** [remoteexecution.Digest].  A [*Digest] is [None] when nil; the
    generated getters answer the zero value on a nil receiver. *)
Record Digest := { Hash : string; SizeBytes : Z }.

#[global] Instance Digest_eq_dec : EqDecision Digest.
Proof. solve_decision. Defined.

Definition GetHash (d : option Digest) : string :=
  match d with Some x => Hash x | None => "" end.

Definition GetSizeBytes (d : option Digest) : Z :=
  match d with Some x => SizeBytes x | None => 0 end.

(** gRPC status codes the servers answer with, and a status error. *)
Inductive Code :=
  | Internal | InvalidArgument | Unimplemented | NotFound | OutOfRange.

Record Status := { code : Code; message : string }.

(** Package [bazel]: the constant and helpers the servers use. *)
Class BazelLib := {
  EmptySha : string;
  IsValidDigest : string -> Z -> bool;
  DigestStoreName : option Digest -> string;
  DigestSnapshotID : option Digest -> string;
}.

(** A stand-in for package [bazel] to run the servers on: the SHA-256 of
    no data, digests of 64 characters and a size that is not negative, and
    names made of the hash. *)
#[global] Instance plain_BazelLib : BazelLib := {|
  EmptySha :=
    "e3b0c44298fc1c149afbf4c8996fb92427ae41e4649b934ca495991b7852b855";
  IsValidDigest := fun h n =>
    bool_decide (String.length h = 64) && (0 <=? n)%Z;
  DigestStoreName := fun d => "bs-" +:+ GetHash d +:+ ".bundle";
  DigestSnapshotID := fun d =>
    "bz-" +:+ GetHash d +:+ "-" +:+ pretty (GetSizeBytes d);
|}.

End Bazel.

(** ** The Bazel execution server *)

Module Execution.
Import Bazel.

(** The parts of the request [Execute] reads. *)
Record Duration := { Seconds : Z; Nanos : Z }.

Record Action := {
  CommandDigest : option Digest;
  InputRootDigest : option Digest;
  ActionTimeout : option Duration;
}.

Record ExecuteRequest := {
  InstanceName : string;
  ReqAction : option Action;
  SkipCacheLookup : bool;
}.

Definition GetAction (req : option ExecuteRequest) : option Action :=
  req ≫= ReqAction.

Definition GetCommandDigest (a : option Action) : option Digest :=
  a ≫= CommandDigest.

Definition GetInputRootDigest (a : option Action) : option Digest :=
  a ≫= InputRootDigest.

Definition GetTimeout (a : option Action) : option Duration :=
  a ≫= ActionTimeout.

(** [sched.JobDefinition] and its parts. *)
Inductive Priority := P0 | P1 | P2 | P3.

Record Command := {
  Argv : list string;
  EnvVars : gmap string string;
  Timeout : Z;
  SnapshotID : string;
  BazelRequest : option ExecuteRequest;
}.

Record TaskDefinition := { TaskCommand : Command; TaskID : string }.

Record JobDefinition := {
  JobType : string;
  Tasks : list TaskDefinition;
  JobPriority : Priority;
  Tag : string;
  Basis : string;
  Requestor : string;
}.

(** The messages [Execute] marshals, and the operation it answers. *)
Inductive Stage := STAGE_UNKNOWN | CACHE_CHECK | QUEUED | EXECUTING | COMPLETED.

Record ExecuteOperationMetadata := {
  OpStage : Stage;
  ActionDigest : option Digest;
}.

Record ActionResult := { ExitCode : Z }.

Record ExecuteResponse := {
  Result : option ActionResult;
  CachedResult : bool;
}.

Inductive ProtoMessage :=
  | MetadataMsg (m : ExecuteOperationMetadata)
  | ResponseMsg (r : ExecuteResponse).

Inductive OperationResult (Any : Type) :=
  | Operation_Response (response : Any)
  | Operation_Error (st : Status).

Arguments Operation_Response {Any} response.
Arguments Operation_Error {Any} st.

Record Operation (Any : Type) := {
  Name : string;
  Metadata : option Any;
  Done : bool;
  OpResult : option (OperationResult Any);
}.

Arguments Name {Any} _.
Arguments Metadata {Any} _.
Arguments Done {Any} _.
Arguments OpResult {Any} _.

(** The [scheduler.Scheduler] interface, threading the scheduler's state. *)
Class Scheduler (S : Type) := {
  ScheduleJob : JobDefinition -> S -> (string * error) * S;
}.

(** What [Execute] calls outside its package: [scootproto.GetSha256] and
    [GetMsFromDuration], [time.ParseDuration], [sched.ValidateJob] and
    [ptypes.MarshalAny] into the wire type [Any]. *)
Class ExecLib (Any : Type) := {
  GetSha256 : option Action -> (string * Z) * error;
  GetMsFromDuration : option Duration -> Z;
  ParseDuration : string -> Z * error;
  ValidateJob : JobDefinition -> error;
  MarshalAny : ProtoMessage -> Any + string;
}.

(** [executionServer]; the listener and the gRPC server play no part in
    [Execute].  [scheduler] is [None] when the field is nil. *)
Record executionServer (S : Type) := { scheduler : option S }.

Arguments scheduler {S} _.

Section Server.
Context {S Any : Type} `{BazelLib} `{Scheduler S} `{ExecLib Any}.

Definition IsInitialized (s : option (executionServer S)) : bool :=
  match s with
  | None => false
  | Some srv => match scheduler srv with None => false | Some _ => true end
  end.

Definition validateExecRequest (req : option ExecuteRequest) : error :=
  match req with
  | None => Some "Unexpected nil execute request"
  | Some _ =>
      let cmdDigest := GetCommandDigest (GetAction req) in
      let inputDigest := GetInputRootDigest (GetAction req) in
      if negb (IsValidDigest (GetHash cmdDigest) (GetSizeBytes cmdDigest))
      then Some "Request action command digest is invalid"
      else if negb (IsValidDigest (GetHash inputDigest)
                                  (GetSizeBytes inputDigest))
      then Some "Request action input root digest is invalid"
      else None
  end.

(** The zero [sched.JobDefinition] the named result starts from. *)
Definition zeroJob : JobDefinition :=
  {| JobType := ""; Tasks := []; JobPriority := P0; Tag := "";
     Basis := ""; Requestor := "" |}.

Definition execReqToScoot (now : Z) (req : option ExecuteRequest)
  (actionSha : string) : JobDefinition * error :=
  match validateExecRequest req with
  | Some e => (zeroJob, Some e)
  | None =>
      let result := zeroJob in
      let '(d, err) :=
        ParseDuration
          (pretty (GetMsFromDuration (GetTimeout (GetAction req))) +:+ "ms") in
      match err with
      | Some e => (result, Some e)
      | None =>
          let task :=
            {| TaskID := "Bazel_ExecuteRequest_" +:+ actionSha +:+ "_"
                         +:+ pretty now;
               TaskCommand :=
                 {| Argv := ["BZ_PLACEHOLDER"];
                    EnvVars := ∅;
                    Timeout := d;
                    SnapshotID :=
                      DigestSnapshotID (GetInputRootDigest (GetAction req));
                    BazelRequest := req |} |} in
          ({| JobType := JobType result; Tasks := Tasks result ++ [task];
              JobPriority := P0; Tag := Tag result; Basis := Basis result;
              Requestor := Requestor result |}, None)
      end
  end.

Definition marshalAny (pb : ProtoMessage) : Any + string := MarshalAny pb.

Definition internal (msg : string) : Status :=
  {| code := Internal; message := msg |}.

(** The response [Execute] embeds in every operation it answers. *)
Definition hardcodedResponse : ExecuteResponse :=
  {| Result := Some {| ExitCode := 0 |}; CachedResult := false |}.

(** [Execute]; [now] is the reading of [time.Now().Unix()].  The answer is
    the operation or the status error, next to the server as the call leaves
    it.  Past the [IsInitialized] test [s.scheduler] is there to call. *)
Definition Execute (now : Z) (s : option (executionServer S))
  (req : option ExecuteRequest)
  : (Operation Any + Status) * option (executionServer S) :=
  if negb (IsInitialized s) then (inr (internal "Server not initialized"), s)
  else
  match s ≫= scheduler with
  | None => (inr (internal "Server not initialized"), s)
  | Some sch =>
      let '((actionSha, actionLen), err) := GetSha256 (GetAction req) in
      match err with
      | Some e => (inr (internal ("Error serializing action: " +:+ e)), s)
      | None =>
      let '(job, err) := execReqToScoot now req actionSha in
      match err with
      | Some e =>
          (inr (internal
                  ("Error converting request to internal definition: " +:+ e)),
           s)
      | None =>
      match ValidateJob job with
      | Some e =>
          (inr (internal ("Internal job definition invalid: " +:+ e)), s)
      | None =>
      let '((id, err), sch') := ScheduleJob job sch in
      let s' := Some {| scheduler := Some sch' |} in
      match err with
      | Some e => (inr (internal ("Failed to schedule Scoot job: " +:+ e)), s')
      | None =>
      let eom :=
        {| OpStage := COMPLETED;
           ActionDigest :=
             Some {| Hash := actionSha; SizeBytes := actionLen |} |} in
      match marshalAny (MetadataMsg eom) with
      | inr e => (inr (internal e), s')
      | inl eomAsPBAny =>
      match marshalAny (ResponseMsg hardcodedResponse) with
      | inr e => (inr (internal e), s')
      | inl resAsPBAny =>
          (inl {| Name := "operations/" +:+ id;
                  Metadata := Some eomAsPBAny;
                  Done := true;
                  OpResult := Some (Operation_Response resAsPBAny) |}, s')
      end end end end end end
  end.

End Server.

(** Stand-ins to run [Execute] on: a scheduler that numbers the jobs it is
    given, a digest and a duration parser that answer constants, a job
    validation that asks for a task, and a marshaller that keeps the
    message as it is. *)
#[global] Instance counting_Scheduler : Scheduler (list JobDefinition) := {|
  ScheduleJob := fun job jobs =>
    (("job-" +:+ pretty (length jobs), None), jobs ++ [job]);
|}.

#[global] Instance plain_ExecLib : ExecLib ProtoMessage := {|
  GetSha256 := fun a => (("abc", 3%Z), None);
  GetMsFromDuration := fun d =>
    match d with
    | Some x => (Seconds x * 1000 + Nanos x / 1000000)%Z
    | None => 0%Z
    end;
  ParseDuration := fun s => (0%Z, None);
  ValidateJob := fun job =>
    match Tasks job with
    | [] => Some "invalid job. Must have at least 1 task"
    | _ => None
    end;
  MarshalAny := fun pb => inl pb;
|}.

(** *** Inputs for the properties below *)

(** Concrete inputs: a server over the counting scheduler, and a request
    whose action carries two well-formed digests. *)
Definition sampleHash : string :=
  "0a1b2c3d4e5f60718293a4b5c6d7e8f90a1b2c3d4e5f60718293a4b5c6d7e8f9".

Definition sampleExecRequest : ExecuteRequest :=
  {| InstanceName := "";
     ReqAction :=
       Some {| CommandDigest := Some {| Hash := sampleHash; SizeBytes := 10 |};
               InputRootDigest :=
                 Some {| Hash := sampleHash; SizeBytes := 20 |};
               ActionTimeout := Some {| Seconds := 1; Nanos := 0 |} |};
     SkipCacheLookup := false |}.

Definition sampleExecServer : option (executionServer (list JobDefinition)) :=
  Some {| scheduler := Some [] |}.

Definition sampleOperation : Operation ProtoMessage :=
  {| Name := "operations/job-0";
     Metadata :=
       Some (MetadataMsg
               {| OpStage := COMPLETED;
                  ActionDigest := Some {| Hash := "abc"; SizeBytes := 3 |} |});
     Done := true;
     OpResult :=
       Some (Operation_Response
               (ResponseMsg {| Result := Some {| ExitCode := 0 |};
                               CachedResult := false |})) |}.

End Execution.

(** ** The Bazel content-addressable store server *)

Module CAS.
Import Bazel.

Record FindMissingBlobsRequest := {
  InstanceName : string;
  BlobDigests : list (option Digest);
}.

Definition GetBlobDigests (req : option FindMissingBlobsRequest)
  : list (option Digest) :=
  match req with Some r => BlobDigests r | None => [] end.

Record FindMissingBlobsResponse := {
  MissingBlobDigests : list (option Digest);
}.

(** The [store.Store] interface: [Exists] asks the store [St] about a name
    and answers a boolean and an error. *)
Class Store (St : Type) := {
  Exists : string -> St -> bool * error;
}.

(** [store.StoreConfig] and [casServer]; the listener and the gRPC server
    play no part in [FindMissingBlobs].  [storeConfig] is [None] when the
    field is nil. *)
Record StoreConfig (St : Type) := { TheStore : St }.
Arguments TheStore {St} _.

Record casServer (St : Type) := { storeConfig : option (StoreConfig St) }.
Arguments storeConfig {St} _.

Section Server.
Context {St : Type} `{BazelLib} `{Store St}.

Definition IsInitialized (s : option (casServer St)) : bool :=
  match s with
  | None => false
  | Some srv => match storeConfig srv with None => false | Some _ => true end
  end.

(** The loop of [FindMissingBlobs] over the requested digests, with the
    response built so far. *)
Fixpoint findMissing (st : St) (ds : list (option Digest))
  (missing : list (option Digest)) : list (option Digest) + Status :=
  match ds with
  | [] => inl missing
  | digest :: ds' =>
      if bool_decide (GetHash digest = EmptySha) then findMissing st ds' missing
      else
        let storeName := DigestStoreName digest in
        match Exists storeName st with
        | (_, Some e) =>
            inr {| code := Internal;
                   message := "Store failed checking existence of "
                              +:+ storeName +:+ ": " +:+ e |}
        | (true, None) => findMissing st ds' missing
        | (false, None) => findMissing st ds' (missing ++ [digest])
        end
  end.

Definition FindMissingBlobs (s : option (casServer St))
  (req : option FindMissingBlobsRequest) : FindMissingBlobsResponse + Status :=
  if negb (IsInitialized s)
  then inr {| code := Internal; message := "Server not initialized" |}
  else
  match s ≫= storeConfig with
  | None => inr {| code := Internal; message := "Server not initialized" |}
  | Some cfg =>
      match findMissing (TheStore cfg) (GetBlobDigests req) [] with
      | inl missing => inl {| MissingBlobDigests := missing |}
      | inr e => inr e
      end
  end.

(** What the store says about a digest: absent, without an error. *)
Definition reportedAbsent (st : St) (d : option Digest) : bool :=
  match Exists (DigestStoreName d) st with
  | (false, None) => true
  | _ => false
  end.

(** A digest the response must list: not the empty blob, and reported
    absent by the store. *)
Definition isMissing (st : St) (d : option Digest) : bool :=
  negb (bool_decide (GetHash d = EmptySha)) && reportedAbsent st d.

End Server.

(** A stand-in to run [FindMissingBlobs] on: a store that holds a set of
    names, and fails on the names in a second set. *)
Record setStore := { present : gset string; failing : gset string }.

#[global] Instance setStore_Store : Store setStore := {|
  Exists := fun name st =>
    if bool_decide (name ∈ failing st) then (false, Some "store unreachable")
    else (bool_decide (name ∈ present st), None);
|}.

(** *** Inputs for the properties below *)

(** Concrete inputs: a store that holds one blob, and a request for the
    empty blob, the stored blob, a blob that is not stored, and the empty
    blob once more. *)
Definition emptyDigest : Digest := {| Hash := EmptySha; SizeBytes := 0 |}.
Definition storedDigest : Digest := {| Hash := "aa"; SizeBytes := 2 |}.
Definition absentDigest : Digest := {| Hash := "bb"; SizeBytes := 5 |}.

Definition sampleStore : setStore :=
  {| present := {[ DigestStoreName (Some storedDigest) ]}; failing := ∅ |}.

Definition sampleCasServer : option (casServer setStore) :=
  Some {| storeConfig := Some {| TheStore := sampleStore |} |}.

Definition sampleBlobsRequest : FindMissingBlobsRequest :=
  {| InstanceName := "";
     BlobDigests := [Some emptyDigest; Some storedDigest;
                     Some absentDigest; Some emptyDigest] |}.

End CAS.

(** ** Calls on the in-memory saga log, one after the other *)

Module SagaLogOps.
Import SagaLog.

(** One call of a client of the log. *)
Inductive call :=
  | CallStartSaga (id : string) (job : list Byte.byte)
  | CallLogMessage (msg : sagaMessage)
  | CallGetMessages (id : string).

(** The saga a call is about. *)
Definition target (c : call) : string :=
  match c with
  | CallStartSaga id _ => id
  | CallLogMessage msg => sagaId msg
  | CallGetMessages id => id
  end.

(** The call on the log: the error it returns and the log it leaves. *)
Definition perform (c : call) (log : inMemorySagaLog)
  : outcome (error * inMemorySagaLog) :=
  match c with
  | CallStartSaga id job => StartSaga id job log
  | CallLogMessage msg => LogMessage msg log
  | CallGetMessages id => r ← GetMessages id log; Returns (r.1.2, r.2)
  end.

(** A sequence of calls, each on the log the one before left; the errors
    returned are kept. *)
Fixpoint perform_all (cs : list call) (log : inMemorySagaLog)
  : outcome (list error * inMemorySagaLog) :=
  match cs with
  | [] => Returns ([], log)
  | c :: cs' =>
      r ← perform c log;
      rs ← perform_all cs' r.2;
      Returns (r.1 :: rs.1, rs.2)
  end.

(** Every stored sequence starts with the [StartSaga] record of its own
    saga, and holds messages of that saga only. *)
Definition begins_with_start (log : inMemorySagaLog) : Prop :=
  forall id msgs,
    sagas log !! id = Some msgs ->
    exists job rest,
      msgs = StartSagaMessageFactory id job :: rest /\
      Forall (fun m => sagaId m = id) rest.

(** Concrete inputs: two sagas started, a message logged for each, a read,
    and a message for a saga that was never started. *)
Definition otherMsg : sagaMessage :=
  {| sagaId := "k"; msgType := MsgStartTask; taskId := "t9"; data := [] |}.

Definition strayMsg : sagaMessage :=
  {| sagaId := "z"; msgType := MsgEndTask; taskId := "t1"; data := [] |}.

Definition sampleCalls : list call :=
  [CallStartSaga "j" []; CallStartSaga "k" []; CallLogMessage taskMsg;
   CallLogMessage otherMsg; CallGetMessages "j"; CallLogMessage strayMsg].

Definition sampleLog : inMemorySagaLog :=
  {| sagas := {[ "j" := [StartSagaMessageFactory "j" []; taskMsg];
                 "k" := [StartSagaMessageFactory "k" []; otherMsg] ]};
     mutex := {| writer := true; readers := 0 |} |}.

(** The log [endedLog] once [taskMsg] has been logged to it. *)
Definition appendedLog : inMemorySagaLog :=
  {| sagas :=
       {[ "j" := [StartSagaMessageFactory "j" []; endMsg; taskMsg] ]};
     mutex := unlocked |}.

End SagaLogOps.

(** ** Runs of the cluster view *)

Module ClusterOps.
Import ClusterView.

(** The reply channel a request carries, if it carries one. *)
Definition reply_of (r : received) : option chanId :=
  match r with
  | RecvReq (Some (MembersReq x)) | RecvReq (Some (SubscribeReq x)) => Some x
  | _ => None
  end.


(** Concrete inputs: three subscriptions, two ingests, the second
    subscriber leaving, and one more ingest. *)
Definition sampleRun : list received :=
  subscribe3 ++
  [RecvCh (Some (Nodes [node "b"; node "a"]));
   RecvCh (Some (Updates [Removed "a"; Added (node "c")]));
   RecvReq (Some (CloseSubReq 3));
   RecvReq (Some (MembersReq 13));
   RecvCh (Some (Nodes [node "d"]))].

(** The view [sampleRun] leaves behind a new view. *)
Definition afterSampleRun : Cluster :=
  Eval vm_compute in
    match loop sampleRun (NewCluster [] (Some 100)) with
    | Returns (_, c) => c
    | _ => NewCluster [] None
    end.

(** A view in which [loop] has seen both of its channels closed, with two
    subscribers left. *)
Definition drainedView : Cluster :=
  set_ch None (set_reqCh None
    {| State := ∅; reqCh := Some 1; ch := Some 100;
       subs := {| ptr := 2; len := 2; cap := 2 |};
       heap := {[ 1 := [2]; 2 := [2; 3] ]};
       nextLoc := 2; nextChan := 4; closed := ∅;
       trace := [SendSubscriber 10 {| initial := []; inCh := 2 |};
                 SendSubscriber 11 {| initial := []; inCh := 3 |}] |}).

(** A channel the view has made and forgotten: open, not in [c.subs], and
    older than every channel the view will make. *)
Definition abandoned (e : chanId) (c : Cluster) : Prop :=
  (e ∉ closed c) /\ (e ∉ subscribers c) /\ e < nextChan c.

(** No backing array lives at the address of the nil slice. *)
Definition null_free (c : Cluster) : Prop := heap c !! 0 = None.

End ClusterOps.

(** ** The worker server: the other RPCs and the stats loop *)

Module WorkerOps.
Import Worker.

(** Instants are nanoseconds on the clock [time.Now] reads, counted from
    the zero [time.Time]; a [time.Duration] is a signed 64-bit count of
    nanoseconds. *)
Definition maxDuration : Z := 2 ^ 63 - 1.
Definition minDuration : Z := - 2 ^ 63.
Definition Millisecond : Z := 1000000.

(** [t.Sub(u)]: the difference, or the largest (smallest) duration when the
    difference does not fit one. *)
Definition Sub (t u : Z) : Z := Z.max minDuration (Z.min maxDuration (t - u)).

(** The values one iteration of [stats] hands to the five gauges. *)
Record Gauges := {
  activeRunsGauge : Z;
  failedCachedRunsGauge : Z;
  endedCachedRunsGauge : Z;
  timeSinceLastContactGauge_ms : Z;
  uptimeGauge_ms : Z;
}.

(** The calls a client of the worker makes. *)
Inductive rpc (TCmd : Type) :=
  | RpcRun (cmd : TCmd)
  | RpcAbort (runId : string)
  | RpcErase (runId : string)
  | RpcQueryWorker.

Arguments RpcRun {TCmd} _.
Arguments RpcAbort {TCmd} _.
Arguments RpcErase {TCmd} _.
Arguments RpcQueryWorker {TCmd}.

Section Handler.
Context {R TCmd TStatus : Type} `{Service R} `{Thrift TCmd TStatus}.

(** One iteration of the loop of [stats], on a tick: [startTime] is the
    instant [stats] started at, [now1] and [now2] are what the two readings
    of the clock give.  When [StatusAll] fails the iteration ends at
    [continue], before [h.mu.Unlock()], and no gauge is updated. *)
Definition stats_tick (startTime now1 now2 : Z) (h : handler R)
  : outcome (option Gauges * handler R) :=
  if mu h then Blocks
  else
    let '((processes, err), r1) := Service_StatusAll (run h) in
    match err with
    | Some _ =>
        Returns (None,
                 {| run := r1; timeLastRpc := timeLastRpc h; mu := true;
                    currentCmd := currentCmd h;
                    currentRunID := currentRunID h |})
    | None =>
        let numFailed :=
          Z.of_nat (length (filter (fun p => State p = FAILED) processes)) in
        let numActive :=
          Z.of_nat (length (filter (fun p => IsDone (State p) = false)
                                   processes)) in
        let timeSinceLastContact_ms :=
          if (0 <? numActive)%Z
          then Z.quot (Sub now1 (timeLastRpc h)) Millisecond
          else 0%Z in
        Returns (Some {| activeRunsGauge := numActive;
                         failedCachedRunsGauge := numFailed;
                         endedCachedRunsGauge :=
                           (Z.of_nat (length processes) - numActive)%Z;
                         timeSinceLastContactGauge_ms :=
                           timeSinceLastContact_ms;
                         uptimeGauge_ms :=
                           Z.quot (Sub now2 startTime) Millisecond |},
                 {| run := r1; timeLastRpc := timeLastRpc h; mu := false;
                    currentCmd := currentCmd h;
                    currentRunID := currentRunID h |})
    end.

(** [QueryWorker]: the list is [ws.Runs]. *)
Definition QueryWorker (now : Z) (h : handler R)
  : outcome ((list TStatus * error) * handler R) :=
  h1 ← updateTimeLastRpc now h;
  let '((st, err), r1) := Service_StatusAll (run h1) in
  let st' :=
    match err with
    | Some e => [{| RunID_of := ""; State := UNKNOWN; Error := e |}]
    | None => st
    end in
  Returns ((DomainRunStatusToThrift <$> st', None),
           {| run := r1; timeLastRpc := timeLastRpc h1; mu := mu h1;
              currentCmd := currentCmd h1;
              currentRunID := currentRunID h1 |}).

(** A call at the instant [now]: the error it returns and the handler it
    leaves. *)
Definition serve (c : rpc TCmd) (now : Z) (h : handler R)
  : outcome (error * handler R) :=
  match c with
  | RpcRun cmd => r ← Run cmd now h; Returns (r.1.2, r.2)
  | RpcAbort runId => r ← Abort runId now h; Returns (r.1.2, r.2)
  | RpcErase runId => Erase runId now h
  | RpcQueryWorker => r ← QueryWorker now h; Returns (r.1.2, r.2)
  end.

(** Calls one after the other, each on the handler the one before left. *)
Fixpoint serve_all (cs : list (rpc TCmd * Z)) (h : handler R)
  : outcome (list error * handler R) :=
  match cs with
  | [] => Returns ([], h)
  | (c, now) :: cs' =>
      r ← serve c now h;
      rs ← serve_all cs' r.2;
      Returns (r.1 :: rs.1, rs.2)
  end.

End Handler.

(** Concrete inputs: a runner that has lost its backend, so that every call
    on it fails, a handler over it, and a run of calls on [busyHandler]. *)
Inductive downRunner := Down.

Definition downMsg : string := "runner down".

#[global] Instance downRunner_Service : Service downRunner := {|
  QueueFullMsg := queueFullText;
  Service_Run := fun _ r => ((zeroStatus, Some downMsg), r);
  Service_Status := fun _ r => ((zeroStatus, Some downMsg), r);
  Service_StatusAll := fun r => (([], Some downMsg), r);
  Service_Abort := fun _ r => ((zeroStatus, Some downMsg), r);
  Service_Erase := fun _ r => r;
|}.

Definition otherCmd : Command :=
  {| Argv := Some ["ls"]; EnvVars := ∅; Timeout := 0;
     SnapshotID := "empty" |}.

Definition sampleRpcs : list (rpc Command * Z) :=
  [(RpcRun echoCmd, 2); (RpcRun otherCmd, 3); (RpcQueryWorker, 4);
   (RpcAbort "run-0", 5); (RpcRun otherCmd, 6); (RpcErase "run-0", 7);
   (RpcRun echoCmd, 8)]%Z.

Definition failedStatus : RunStatus :=
  {| RunID_of := "run-1"; State := FAILED; Error := "exit 1" |}.

Definition mixedHandler : handler singleRunner :=
  {| run := {| cache := [failedStatus; pendingStatus]; issued := 2 |};
     timeLastRpc := 5000000; mu := false;
     currentCmd := Some echoCmd; currentRunID := "run-0" |}.

(** What [sampleRpcs] returns on [busyHandler]. *)
Definition afterSampleRpcs : list error * handler singleRunner :=
  Eval vm_compute in
    match serve_all sampleRpcs busyHandler with
    | Returns r => r
    | _ => ([], busyHandler)
    end.

End WorkerOps.

(** ** The Bazel execution server: [GetOperation] *)

Module ExecutionOps.
Import Bazel Execution.

(** [longrunning.GetOperationRequest]. *)
Record GetOperationRequest := { ReqName : string }.

(** An error of [GetOperation]: a gRPC status, or the error of
    [ptypes.MarshalAny] handed on as it is. *)
Inductive opError :=
  | StatusError (st : Status)
  | PlainError (e : string).

Section Server.
Context {S Any : Type} `{BazelLib} `{Scheduler S} `{ExecLib Any}.

(** [GetOperation]: [op.Name = req.Name] reads through the request
    pointer, past the [IsInitialized] test. *)
Definition GetOperation (s : option (executionServer S))
  (req : option GetOperationRequest) : outcome (Operation Any + opError) :=
  if negb (IsInitialized s)
  then Returns (inr (StatusError (internal "Server not initialized")))
  else
  match req with
  | None => Panics
  | Some r =>
      let eom := {| OpStage := COMPLETED; ActionDigest := None |} in
      match marshalAny (MetadataMsg eom) with
      | inr e => Returns (inr (PlainError e))
      | inl eomAsPBAny =>
      match marshalAny (ResponseMsg hardcodedResponse) with
      | inr e => Returns (inr (PlainError e))
      | inl resAsPBAny =>
          Returns (inl {| Name := ReqName r;
                          Metadata := Some eomAsPBAny;
                          Done := true;
                          OpResult := Some (Operation_Response resAsPBAny) |})
      end end
  end.

(** The job [execReqToScoot] makes of a request: one task that carries the
    request, with a placeholder command line. *)
Definition placeholderJob (now : Z) (req : option ExecuteRequest)
  (actionSha : string) (d : Z) : JobDefinition :=
  {| JobType := "";
     Tasks :=
       [{| TaskID := "Bazel_ExecuteRequest_" +:+ actionSha +:+ "_"
                     +:+ pretty now;
           TaskCommand :=
             {| Argv := ["BZ_PLACEHOLDER"];
                EnvVars := ∅;
                Timeout := d;
                SnapshotID :=
                  DigestSnapshotID (GetInputRootDigest (GetAction req));
                BazelRequest := req |} |}];
     JobPriority := P0; Tag := ""; Basis := ""; Requestor := "" |}.

End Server.


Definition busyExecServer : option (executionServer (list JobDefinition)) :=
  Eval vm_compute in
    (Execute 1700000000 sampleExecServer (Some sampleExecRequest)).2.

End ExecutionOps.

(** ** The CAS server: [Write] and the action cache *)

Module CASOps.
Import Bazel CAS.

(** [cas.Resource], with the field the server reads, and [store.TTLValue]. *)
Record Resource := { ResDigest : option Digest }.

Record TTLValue := { TTL : Z; TTLKey : string }.

(** The messages of [bytestream.Write]. *)
Record WriteRequest := {
  ResourceName : string;
  WriteOffset : Z;
  FinishWrite : bool;
  Data : list Byte.byte;
}.

Record WriteResponse := { CommittedSize : Z }.

(** The requests of the action cache; [AR] is
    [remoteexecution.ActionResult]. *)
Record GetActionResultRequest := { GetActionDigest_field : option Digest }.

Record UpdateActionResultRequest (AR : Type) := {
  UpdateActionDigest_field : option Digest;
  ActionResult_field : option AR;
}.

Arguments UpdateActionDigest_field {AR} _.
Arguments ActionResult_field {AR} _.

(** What the server calls in its own package and in package [bazel]
    besides [BazelLib]: the parser of resource names, two constants, and
    the text [%s] prints for a digest. *)
Class CasLib := {
  ParseWriteResource : string -> Resource + string;
  EmptySize : Z;
  DefaultTTL : Z;
  DigestString : option Digest -> string;
}.

(** The rest of package [store]: [OpenForRead] answers a reader [Rd],
    [ReadAll] is [ioutil.ReadAll] on it, [Store_Write] is [Store.Write], and
    [GetTTLValue] is [store.GetTTLValue] on the configuration's [TTLCfg]. *)
Class StoreRW (St Rd : Type) := {
  OpenForRead : string -> St -> Rd + string;
  ReadAll : Rd -> list Byte.byte * error;
  Store_Write :
    string -> list Byte.byte -> option TTLValue -> St -> error * St;
  GetTTLValue : StoreConfig St -> option TTLValue;
}.

(** [proto.Marshal] and [proto.Unmarshal] on action results, and the zero
    action result. *)
Class ProtoLib (AR : Type) := {
  emptyActionResult : AR;
  Marshal : AR -> list Byte.byte + string;
  Unmarshal : list Byte.byte -> AR + string;
}.

(** What the server relies on: a blob written without an error exists and
    reads back as written, and an action result unmarshals from its own
    marshalling. *)
Class StoreLaws (St Rd : Type) `{Store St} `{StoreRW St Rd} := {
  Write_Exists : forall name data ttl st st',
    Store_Write name data ttl st = (None, st') ->
    Exists name st' = (true, None);
  Write_Read : forall name data ttl st st',
    Store_Write name data ttl st = (None, st') ->
    exists r, OpenForRead name st' = inl r /\ ReadAll r = (data, None);
}.

Class ProtoLaws (AR : Type) `{ProtoLib AR} := {
  Unmarshal_Marshal : forall ar bs,
    Marshal ar = inl bs -> Unmarshal bs = inl ar;
}.

(** The server side of a [Write] stream: what the calls of [Recv] answer,
    one after the other ([Recv] answers [io.EOF] once the client has sent
    all it had), and what [SendAndClose] answers. *)
Record WriteStream := {
  recvs : list (WriteRequest + string);
  sendErr : error;
}.

(** How the receive loop of [Write] ends: with a [return] of its own, of a
    status ([None] for nil) and of the response handed to [SendAndClose]
    if it was called, or at [break] with the resource, its store name and
    the buffer. *)
Inductive loop_end :=
  | Returned (r : option Status * option WriteResponse)
  | Collected (resource : Resource) (storeName : string)
              (buffer : list Byte.byte).

Section Server.
Context {St Rd AR : Type}
  `{BazelLib} `{Store St} `{CasLib} `{StoreRW St Rd} `{ProtoLib AR}.

Definition status (c : Code) (msg : string) : Status :=
  {| code := c; message := msg |}.

(** [ser.SendAndClose(res)] followed by the [return] after it. *)
Definition SendAndClose (ser : WriteStream) (res : WriteResponse)
  (prefix : string) : option Status * option WriteResponse :=
  ((fun e => status Internal (prefix +:+ e)) <$> sendErr ser, Some res).

(** What the first request sets up, under [if resource == nil]:
    [make([]byte, 0, n)] panics on a negative [n]. *)
Definition Write_setup (st : St) (ser : WriteStream) (wr : WriteRequest)
  : outcome (loop_end + Resource * string * string * list Byte.byte) :=
  let resourceName := ResourceName wr in
  match ParseWriteResource resourceName with
  | inr e => Returns (inl (Returned (Some (status InvalidArgument e), None)))
  | inl res =>
      if bool_decide (GetHash (ResDigest res) = EmptySha) then
        Returns (inl (Returned (SendAndClose ser
                                  {| CommittedSize := EmptySize |}
                                  "Failed to SendAndClose: ")))
      else if (GetSizeBytes (ResDigest res) <? 0)%Z then Panics
      else
        let storeName := DigestStoreName (ResDigest res) in
        match Exists storeName st with
        | (_, Some e) =>
            Returns (inl (Returned
              (Some (status Internal
                       ("Store failed checking existence of "
                        +:+ storeName +:+ ": " +:+ e)), None)))
        | (true, None) =>
            Returns (inl (Returned (SendAndClose ser
              {| CommittedSize := GetSizeBytes (ResDigest res) |}
              "Failed to SendAndClose WriteResponse: ")))
        | (false, None) => Returns (inr (res, resourceName, storeName, []))
        end
  end.

(** The [for] loop of [Write] on what [Recv] still has to answer;
    [resource] is [None] while the variable is nil. *)
Fixpoint Write_loop (st : St) (ser : WriteStream)
  (rs : list (WriteRequest + string)) (resource : option Resource)
  (resourceName storeName : string) (buffer : list Byte.byte)
  : outcome loop_end :=
  match rs with
  | [] =>
      Returns (Returned (Some (status Internal ("Failed to Recv: " +:+ "EOF")),
                         None))
  | inr e :: _ =>
      Returns (Returned (Some (status Internal ("Failed to Recv: " +:+ e)),
                         None))
  | inl wr :: rs' =>
      v ← match resource with
          | Some res => Returns (inr (res, resourceName, storeName, buffer))
          | None => Write_setup st ser wr
          end;
      match v with
      | inl r => Returns r
      | inr (res, resourceName, storeName, buffer) =>
          if negb (bool_decide (ResourceName wr = ""))
             && negb (bool_decide (resourceName = ResourceName wr))
          then Returns (Returned
                 (Some (status InvalidArgument
                          ("ResourceName " +:+ ResourceName wr
                           +:+ " mismatch with previous " +:+ resourceName)),
                  None))
          else if (0 <? WriteOffset wr)%Z
          then Returns (Returned
                 (Some (status Unimplemented
                    "Currently unsupported in Scoot - Writes are not resumable"),
                  None))
          else
            let buffer := buffer ++ Data wr in
            if FinishWrite wr then Returns (Collected res storeName buffer)
            else Write_loop st ser rs' (Some res) resourceName storeName buffer
      end
  end.

(** [Write]; [now] is the reading of [time.Now()].  The answer is the
    status returned ([None] for nil), the response handed to
    [SendAndClose] if it was called, and the server as the call leaves
    it. *)
Definition Write (now : Z) (s : option (casServer St)) (ser : WriteStream)
  : outcome (option Status * option WriteResponse * option (casServer St)) :=
  if negb (IsInitialized s)
  then Returns (Some (status Internal "Server not initialized"), None, s)
  else
  match s ≫= storeConfig with
  | None => Returns (Some (status Internal "Server not initialized"), None, s)
  | Some cfg =>
      r ← Write_loop (TheStore cfg) ser (recvs ser) None "" "" [];
      match r with
      | Returned r => Returns (r, s)
      | Collected resource storeName buffer =>
          let committed := Z.of_nat (length buffer) in
          if negb (bool_decide
                     (committed = GetSizeBytes (ResDigest resource)))
          then Returns
                 (Some (status Internal
                    ("Data to be written len: " +:+ pretty committed
                     +:+ " mismatch with request Digest size: "
                     +:+ pretty (GetSizeBytes (ResDigest resource)))),
                  None, s)
          else
            let ttl :=
              (fun t => {| TTL := (now + DefaultTTL)%Z; TTLKey := TTLKey t |})
                <$> GetTTLValue cfg in
            let '(err, st') :=
              Store_Write storeName buffer ttl (TheStore cfg) in
            let s' := Some {| storeConfig := Some {| TheStore := st' |} |} in
            match err with
            | Some e =>
                Returns (Some (status Internal
                           ("Store failed writing to " +:+ storeName
                            +:+ ": " +:+ e)),
                         None, s')
            | None =>
                Returns (SendAndClose ser {| CommittedSize := committed |}
                           "Failed to SendAndClose WriteResponse: ", s')
            end
      end
  end.

Definition GetActionDigest (req : option GetActionResultRequest)
  : option Digest := req ≫= GetActionDigest_field.

Definition GetUpdateActionDigest (req : option (UpdateActionResultRequest AR))
  : option Digest := req ≫= UpdateActionDigest_field.

Definition GetActionResult_field (req : option (UpdateActionResultRequest AR))
  : option AR := req ≫= ActionResult_field.

Definition GetActionResult (s : option (casServer St))
  (req : option GetActionResultRequest) : AR + Status :=
  if negb (IsInitialized s)
  then inr (status Internal "Server not initialized")
  else
  match s ≫= storeConfig with
  | None => inr (status Internal "Server not initialized")
  | Some cfg =>
      let d := GetActionDigest req in
      if negb (IsValidDigest (GetHash d) (GetSizeBytes d))
      then inr (status InvalidArgument
                  ("Invalid ActionDigest " +:+ DigestString d))
      else if bool_decide (GetHash d = EmptySha) then inl emptyActionResult
      else
        let storeName := DigestStoreName d in
        match OpenForRead storeName (TheStore cfg) with
        | inr e =>
            inr (status NotFound
                   ("Failed opening " +:+ storeName
                    +:+ " for read, returning NotFound. Err: " +:+ e))
        | inl r =>
            match ReadAll r with
            | (_, Some e) =>
                inr (status Internal
                       ("Error reading from " +:+ storeName +:+ ": " +:+ e))
            | (arAsBytes, None) =>
                match Unmarshal arAsBytes with
                | inr e =>
                    inr (status Internal
                           ("Error deserializing ActionResult: " +:+ e))
                | inl ar => inl ar
                end
            end
        end
  end.

Definition UpdateActionResult (now : Z) (s : option (casServer St))
  (req : option (UpdateActionResultRequest AR))
  : (AR + Status) * option (casServer St) :=
  if negb (IsInitialized s)
  then (inr (status Internal "Server not initialized"), s)
  else
  match s ≫= storeConfig with
  | None => (inr (status Internal "Server not initialized"), s)
  | Some cfg =>
      let d := GetUpdateActionDigest req in
      if negb (IsValidDigest (GetHash d) (GetSizeBytes d))
      then (inr (status InvalidArgument
                   ("Invalid ActionDigest " +:+ DigestString d)), s)
      else
      match GetActionResult_field req with
      | None => (inr (status InvalidArgument "ActionResult is nil"), s)
      | Some ar =>
          if bool_decide (GetHash d = EmptySha)
          then (inl emptyActionResult, s)
          else
            match Marshal ar with
            | inr e =>
                (inr (status Internal
                        ("Error serializing ActionResult: " +:+ e)), s)
            | inl asBytes =>
                let ttl :=
                  (fun t => {| TTL := (now + DefaultTTL)%Z;
                               TTLKey := TTLKey t |})
                    <$> GetTTLValue cfg in
                let storeName := DigestStoreName d in
                let '(err, st') :=
                  Store_Write storeName asBytes ttl (TheStore cfg) in
                let s' :=
                  Some {| storeConfig := Some {| TheStore := st' |} |} in
                match err with
                | Some e =>
                    (inr (status Internal
                            ("Store failed writing to " +:+ storeName
                             +:+ ": " +:+ e)), s')
                | None => (inl ar, s')
                end
            end
      end
  end.

(** The requests [Write] reads before it leaves its loop at [break]: none
    but the last has [FinishWrite] set, none has a positive offset, and
    each names the resource [name] of the first or no resource. *)
Definition finished_upload (name : string) (reqs : list WriteRequest) : Prop :=
  exists front final,
    reqs = front ++ [final] /\
    FinishWrite final = true /\
    Forall (fun wr => FinishWrite wr = false) front /\
    Forall (fun wr => (WriteOffset wr <= 0)%Z) reqs /\
    Forall (fun wr => ResourceName wr = "" \/ ResourceName wr = name) reqs.

End Server.

(** Stand-ins to run the server on: a store that is a map from names to
    blobs and its readers, a parser that knows three resource names, and a
    marshaller that keeps the bytes. *)
Record mapStore := { blobs : gmap string (list Byte.byte) }.

#[global] Instance mapStore_Store : Store mapStore := {|
  Exists := fun name st => (bool_decide (is_Some (blobs st !! name)), None);
|}.

#[global] Instance mapStore_StoreRW : StoreRW mapStore (list Byte.byte) := {|
  OpenForRead := fun name st =>
    match blobs st !! name with
    | Some b => inl b
    | None => inr ("no such bundle " +:+ name)
    end;
  ReadAll := fun r => (r, None);
  Store_Write := fun name data ttl st =>
    (None, {| blobs := <[name := data]> (blobs st) |});
  GetTTLValue := fun cfg => Some {| TTL := 0; TTLKey := "ttl" |};
|}.

Definition knownResources : list (string * Resource) :=
  [("uploads/u1/blobs/bb/5", {| ResDigest := Some absentDigest |});
   ("uploads/u1/blobs/aa/2", {| ResDigest := Some storedDigest |});
   ("uploads/u1/blobs/empty/0", {| ResDigest := Some emptyDigest |})].

#[global] Instance plain_CasLib : CasLib := {|
  ParseWriteResource := fun name =>
    match (list_to_map knownResources : gmap string Resource) !! name with
    | Some r => inl r
    | None => inr ("bad resource name " +:+ name)
    end;
  EmptySize := 0;
  DefaultTTL := 1000;
  DigestString := fun d => GetHash d +:+ "/" +:+ pretty (GetSizeBytes d);
|}.

#[global] Instance plain_ProtoLib : ProtoLib (list Byte.byte) := {|
  emptyActionResult := [];
  Marshal := fun ar => inl ar;
  Unmarshal := fun bs => inl bs;
|}.

(** *** Inputs for the properties below *)

(** Concrete inputs: a server over a map store that holds one blob, an
    upload of five bytes in two requests, an upload that names the stored
    blob and one that names the empty blob, and a server over a store that
    fails on one name. *)
Definition mapServer : option (casServer mapStore) :=
  Some {| storeConfig :=
            Some {| TheStore :=
                      {| blobs := {[ DigestStoreName (Some storedDigest)
                                       := [Byte.x01; Byte.x02] ]} |} |} |}.

Definition upload : WriteStream :=
  {| recvs :=
       [inl {| ResourceName := "uploads/u1/blobs/bb/5"; WriteOffset := 0;
               FinishWrite := false;
               Data := [Byte.x0a; Byte.x0b; Byte.x0c] |};
        inl {| ResourceName := ""; WriteOffset := 0; FinishWrite := true;
               Data := [Byte.x0d; Byte.x0e] |}];
     sendErr := None |}.


Definition uploadEmpty : WriteStream :=
  {| recvs :=
       [inl {| ResourceName := "uploads/u1/blobs/empty/0"; WriteOffset := 0;
               FinishWrite := false; Data := [Byte.xff] |}];
     sendErr := None |}.

Definition afterUpload : option (casServer mapStore) :=
  Eval vm_compute in
    match Write 7 mapServer upload with
    | Returns r => r.2
    | _ => None
    end.

Definition flakyServer : option (casServer setStore) :=
  Some {| storeConfig :=
            Some {| TheStore :=
                      {| present := ∅;
                         failing :=
                           {[ DigestStoreName (Some absentDigest) ]} |} |} |}.

Definition sampleResult : list Byte.byte := [Byte.x2a].

Definition sampleUpdate : UpdateActionResultRequest (list Byte.byte) :=
  {| UpdateActionDigest_field := Some {| Hash := Execution.sampleHash; SizeBytes := 7 |};
     ActionResult_field := Some sampleResult |}.

Definition afterUpdate : option (casServer mapStore) :=
  Eval vm_compute in (UpdateActionResult 7 mapServer (Some sampleUpdate)).2.

End CASOps.

(** ** The CAS server: [Read] *)

Module CASRead.
Import Bazel CAS CASOps.

(** [bytestream.ReadRequest]; the getters answer the zero value on a nil
    request. *)
Record ReadRequest := {
  ReadResourceName : string;
  ReadOffset : Z;
  ReadLimit : Z;
}.

Definition GetResourceName (req : option ReadRequest) : string :=
  match req with Some r => ReadResourceName r | None => "" end.

Definition GetReadOffset (req : option ReadRequest) : Z :=
  match req with Some r => ReadOffset r | None => 0 end.

Definition GetReadLimit (req : option ReadRequest) : Z :=
  match req with Some r => ReadLimit r | None => 0 end.

(** What a call of [Read] on an [io.Reader] answers besides the bytes:
    nil, [io.EOF], or another error. *)
Inductive readErr :=
  | ReadOk
  | ReadEOF
  | ReadFailed (e : string).

(** What [Read] calls outside: the parser of resource names and the
    default capacity of its own package, [Read] on the reader the store
    answers, with a buffer of the given length, and
    [io.CopyN(ioutil.Discard, r, n)] on it. *)
Class ReadLib (Rd : Type) := {
  ParseReadResource : string -> Resource + string;
  DefaultReadCapacity : nat;
  Reader_Read : nat -> Rd -> (list Byte.byte * readErr) * Rd;
  CopyN_Discard : Z -> Rd -> error * Rd;
}.

(** The reader [Read] reads from: a [nilReader], or the reader of the
    store. *)
Inductive reader (Rd : Type) :=
  | NilReader
  | StoreReader (r : Rd).

Arguments NilReader {Rd}.
Arguments StoreReader {Rd} r.

(** What the readers keep to: a reader has bytes still to give; a call of
    [Read] gives the next of them, no more than the buffer holds, answers
    [io.EOF] only when none are left, and does not answer nil with no
    bytes for a buffer that has room; [io.CopyN] that answers nil has
    skipped as many bytes as it was asked to; and [ioutil.ReadAll] that
    answers nil has given all of them. *)
Class ReaderLaws (St Rd : Type) `{StoreRW St Rd} `{ReadLib Rd} := {
  content : Rd -> list Byte.byte;
  Read_content : forall c r bs err r',
    Reader_Read c r = ((bs, err), r') ->
    content r = bs ++ content r' /\
    length bs <= c /\
    (err = ReadEOF -> content r' = []) /\
    (bs = [] -> 0 < c -> err <> ReadOk);
  CopyN_content : forall n r r',
    CopyN_Discard n r = (None, r') ->
    content r' = drop (Z.to_nat n) (content r);
  ReadAll_content : forall r data,
    ReadAll r = (data, None) -> content r = data;
}.

Section Server.
Context {St Rd : Type}
  `{BazelLib} `{Store St} `{CasLib} `{StoreRW St Rd} `{ReadLib Rd}.

(** [nilReader.Read] answers no bytes and [io.EOF]; [io.CopyN] of one byte
    or more from it answers [io.EOF] for that. *)
Definition reader_Read (c : nat) (r : reader Rd)
  : (list Byte.byte * readErr) * reader Rd :=
  match r with
  | NilReader => (([], ReadEOF), NilReader)
  | StoreReader x =>
      let '(res, x') := Reader_Read c x in (res, StoreReader x')
  end.

Definition reader_CopyN (n : Z) (r : reader Rd) : error * reader Rd :=
  match r with
  | NilReader => (Some "EOF", NilReader)
  | StoreReader x => let '(e, x') := CopyN_Discard n x in (e, StoreReader x')
  end.

(** The [for] loop of [Read], for [fuel] iterations at most; [send k] is
    what the call number [k] of [ser.Send] answers, and [sent] are the
    chunks handed to [ser.Send] so far.  [err = ser.Send(res)] assigns to
    the [err] of [r.Read]: after a chunk is sent, what [r.Read] answered
    next to it is forgotten.  [p = p[:n]] panics when the reader claims
    more bytes than the buffer holds. *)
Fixpoint Read_loop (fuel c : nat) (r : reader Rd) (send : nat -> error)
  (sent : list (list Byte.byte))
  : option (outcome (option Status * list (list Byte.byte))) :=
  match fuel with
  | O => None
  | S fuel' =>
      let '((p, err), r') := reader_Read c r in
      if c <? length p then Some Panics
      else
        match p with
        | _ :: _ =>
            match send (length sent) with
            | Some e =>
                Some (Returns
                        (Some (status Internal
                                 ("Failed to send ReadResponse: " +:+ e)),
                         sent ++ [p]))
            | None => Read_loop fuel' c r' send (sent ++ [p])
            end
        | [] =>
            match err with
            | ReadOk => Read_loop fuel' c r' send sent
            | ReadEOF => Some (Returns (None, sent))
            | ReadFailed e =>
                Some (Returns
                        (Some (status Internal
                                 ("Failed to read from Store: " +:+ e)),
                         sent))
            end
        end
  end.

(** [Read]: the answer is the status returned ([None] for nil) and the
    chunks handed to [ser.Send], in order; it is [None] when [fuel]
    iterations of the loop were not enough. *)
Definition Read (fuel : nat) (s : option (casServer St))
  (req : option ReadRequest) (send : nat -> error)
  : option (outcome (option Status * list (list Byte.byte))) :=
  if negb (IsInitialized s)
  then Some (Returns (Some (status Internal "Server not initialized"), []))
  else
  match s ≫= storeConfig with
  | None =>
      Some (Returns (Some (status Internal "Server not initialized"), []))
  | Some cfg =>
      match ParseReadResource (GetResourceName req) with
      | inr e => Some (Returns (Some (status InvalidArgument e), []))
      | inl resource =>
          if (GetReadOffset req <? 0)%Z
          then Some (Returns
                 (Some (status OutOfRange
                          ("Invalid read offset "
                           +:+ pretty (GetReadOffset req))), []))
          else if (GetReadLimit req <? 0)%Z
          then Some (Returns
                 (Some (status InvalidArgument "Read limit < 0 invalid"), []))
          else
            let storeName := DigestStoreName (ResDigest resource) in
            let opened :=
              if bool_decide (GetHash (ResDigest resource) = EmptySha)
              then inl NilReader
              else match OpenForRead storeName (TheStore cfg) with
                   | inl r => inl (StoreReader r)
                   | inr e => inr e
                   end in
            match opened with
            | inr e =>
                Some (Returns
                  (Some (status NotFound
                           ("Failed opening resource " +:+ storeName
                            +:+ " for read, returning NotFound. Err: "
                            +:+ e)), []))
            | inl r =>
                let c := DefaultReadCapacity in
                let '(err, r) :=
                  if (0 <? GetReadOffset req)%Z
                  then reader_CopyN (GetReadOffset req) r
                  else (None, r) in
                match err with
                | Some _ =>
                    Some (Returns
                      (Some (status Internal "Failed to read until offset"),
                       []))
                | None =>
                    let c :=
                      if (0 <? GetReadLimit req)%Z
                         && (GetReadLimit req <? Z.of_nat c)%Z
                      then Z.to_nat (GetReadLimit req)
                      else c in
                    Read_loop fuel c r send []
                end
            end
      end
  end.

End Server.

(** A stand-in to run [Read] on: the readers of the map store give their
    bytes in order, as many as the buffer holds, and [io.EOF] after the
    last; the parser knows two resource names. *)
#[global] Instance list_ReadLib : ReadLib (list Byte.byte) := {|
  ParseReadResource := fun name =>
    if bool_decide (name = "blobs/bb/5")
    then inl {| ResDigest := Some absentDigest |}
    else if bool_decide (name = "blobs/empty/0")
    then inl {| ResDigest := Some emptyDigest |}
    else inr ("bad resource name " +:+ name);
  DefaultReadCapacity := 4;
  Reader_Read := fun c r =>
    match r with
    | [] => (([], ReadEOF), [])
    | _ => ((take c r, ReadOk), drop c r)
    end;
  CopyN_Discard := fun n r =>
    if (n <=? Z.of_nat (length r))%Z then (None, drop (Z.to_nat n) r)
    else (Some "EOF", []);
|}.

(** *** Inputs for the properties below *)

(** Concrete inputs: a request for the blob of [upload] from its second
    byte on, with a limit of two bytes, and a stream that takes every
    chunk. *)
Definition readFromOne : ReadRequest :=
  {| ReadResourceName := "blobs/bb/5"; ReadOffset := 1; ReadLimit := 2 |}.

Definition readAll : ReadRequest :=
  {| ReadResourceName := "blobs/bb/5"; ReadOffset := 0; ReadLimit := 0 |}.


Definition sendOk : nat -> error := fun _ => None.

(** The configuration of the server [upload] leaves, and the uploaded
    bytes. *)
Definition afterUploadConfig : StoreConfig mapStore :=
  Eval vm_compute in
    match afterUpload ≫= storeConfig with
    | Some cfg => cfg
    | None => {| TheStore := {| blobs := ∅ |} |}
    end.

Definition uploaded : list Byte.byte :=
  [Byte.x0a; Byte.x0b; Byte.x0c; Byte.x0d; Byte.x0e].

End CASRead.

(** * Properties *)

(** ** The in-memory saga log *)

Module SagaLogFacts.
Import SagaLog.

Lemma log_eta (log : inMemorySagaLog) :
  {| sagas := sagas log; mutex := mutex log |} = log.
Proof. destruct log; reflexivity. Qed.

(** On a started saga [LogMessage] appends and releases the lock. *)
Lemma LogMessage_started msg log msgs :
  mutex log = unlocked ->
  sagas log !! sagaId msg = Some msgs ->
  LogMessage msg log =
    Returns (None, {| sagas := <[sagaId msg := msgs ++ [msg]]> (sagas log);
                      mutex := unlocked |}).
Proof.
  intros Hm Hs. unfold LogMessage. rewrite Hm. simpl. rewrite Hs. reflexivity.
Qed.

(** On a saga that is not started [LogMessage] returns its error with the
    write lock still held. *)
Lemma LogMessage_unstarted msg log :
  mutex log = unlocked ->
  sagas log !! sagaId msg = None ->
  LogMessage msg log =
    Returns (Some (notStartedMsg (sagaId msg)),
             {| sagas := sagas log;
                mutex := {| writer := true; readers := 0 |} |}).
Proof.
  intros Hm Hs. unfold LogMessage. rewrite Hm. simpl. rewrite Hs. reflexivity.
Qed.

Lemma StartSaga_unlocked id job log :
  mutex log = unlocked ->
  StartSaga id job log =
    Returns (None, {| sagas := <[id := [StartSagaMessageFactory id job]]>
                                 (sagas log);
                      mutex := unlocked |}).
Proof. intros Hm. unfold StartSaga. rewrite Hm. reflexivity. Qed.

Lemma GetMessages_readable id log :
  writer (mutex log) = false ->
  GetMessages id log = Returns ((default [] (sagas log !! id), None), log).
Proof.
  intros Hw. unfold GetMessages, RLock. rewrite Hw. simpl.
  destruct log as [s [w r]]; simpl in *; subst w.
  destruct (s !! id); reflexivity.
Qed.

(** With the write lock held every operation of the log blocks. *)
Lemma held_blocks log :
  writer (mutex log) = true ->
  (forall id job, StartSaga id job log = Blocks) /\
  (forall msg, LogMessage msg log = Blocks) /\
  (forall id, GetMessages id log = Blocks).
Proof.
  intros Hw. repeat split; intros;
    unfold StartSaga, LogMessage, GetMessages, Lock, RLock;
    rewrite Hw; reflexivity.
Qed.

(** A run of messages of one started saga is appended in order. *)
Lemma LogMessages_started id ms : forall log msgs,
  mutex log = unlocked ->
  sagas log !! id = Some msgs ->
  Forall (fun m => sagaId m = id) ms ->
  LogMessages ms log =
    Returns (None, {| sagas := <[id := msgs ++ ms]> (sagas log);
                      mutex := unlocked |}).
Proof.
  induction ms as [|m ms IH]; intros log msgs Hm Hs Hall.
  - simpl. rewrite app_nil_r, insert_id by exact Hs.
    rewrite <- Hm. rewrite log_eta. reflexivity.
  - apply Forall_cons in Hall as [Hid Hall]. simpl.
    rewrite (LogMessage_started m log msgs) by (rewrite ?Hid; assumption).
    simpl. rewrite (IH _ (msgs ++ [m])); simpl; try done.
    + rewrite Hid, insert_insert_eq, <- app_assoc. reflexivity.
    + rewrite Hid. apply lookup_insert_eq.
Qed.

(** C1, as amended.  The in-memory log checks only that the saga is
    started: for a saga whose stored sequence already contains an [EndSaga]
    message, a further [LogMessage] returns no error, appends the message
    at the end of the stored sequence and releases the lock. *)
Theorem LogMessage_appends_after_EndSaga msg log msgs :
  mutex log = unlocked ->
  sagas log !! sagaId msg = Some msgs ->
  hasEndSaga msgs = true ->
  exists log',
    LogMessage msg log = Returns (None, log') /\
    sagas log' !! sagaId msg = Some (msgs ++ [msg]) /\
    mutex log' = unlocked.
Proof.
  intros Hm Hs _. eexists. split; [apply LogMessage_started; eassumption|].
  simpl. split; [apply lookup_insert_eq | reflexivity].
Qed.

Lemma LogMessage_appends_after_EndSaga_witness :
  exists log',
    LogMessage taskMsg endedLog = Returns (None, log') /\
    sagas log' !! "j" =
      Some ([StartSagaMessageFactory "j" []; endMsg] ++ [taskMsg]) /\
    mutex log' = unlocked.
Proof.
  apply (LogMessage_appends_after_EndSaga taskMsg endedLog
           [StartSagaMessageFactory "j" []; endMsg]);
    reflexivity.
Defined.

(** C1 fails as stated: the ended saga [j] accepts a [StartTask]. *)
Lemma LogMessage_accepts_after_EndSaga :
  ~ rejects_after_EndSaga taskMsg endedLog.
Proof.
  intros Hc.
  destruct (Hc [StartSagaMessageFactory "j" []; endMsg] eq_refl eq_refl)
    as (e & log' & Hrun & _).
  vm_compute in Hrun. discriminate Hrun.
Qed.

(** C2, as amended.  [StartSaga] always returns ok and stores the single
    [StartSaga] record under the saga id: a second call with the same blob
    erases the messages logged since the first, and leaves the sequence
    unchanged only when there were none. *)
Theorem StartSaga_again_resets id job ms log :
  mutex log = unlocked ->
  Forall (fun m => sagaId m = id) ms ->
  restart id job ms log =
    Returns (Some (StartSagaMessageFactory id job :: ms), None,
             Some [StartSagaMessageFactory id job]).
Proof.
  intros Hm Hall. unfold restart.
  rewrite StartSaga_unlocked by exact Hm. simpl.
  rewrite (LogMessages_started id ms _ [StartSagaMessageFactory id job]);
    simpl; try done; [|apply lookup_insert_eq].
  rewrite !lookup_insert_eq. reflexivity.
Qed.

Lemma StartSaga_again_resets_witness :
  restart "j" [] [taskMsg] InMemorySagaFactory =
    Returns (Some [StartSagaMessageFactory "j" []; taskMsg], None,
             Some [StartSagaMessageFactory "j" []]).
Proof.
  apply (StartSaga_again_resets "j" [] [taskMsg] InMemorySagaFactory).
  - reflexivity.
  - repeat constructor.
Defined.

(** C2 fails as stated: the message logged between the two calls is
    erased by the second. *)
Lemma StartSaga_again_erases :
  ~ restart_preserves "j" [] [taskMsg] InMemorySagaFactory.
Proof.
  intros [stored Hrun]. vm_compute in Hrun.
  injection Hrun as Hbefore Hafter. rewrite <- Hbefore in Hafter.
  discriminate Hafter.
Qed.

(** C5, as amended.  [GetMessages] never returns an error of its own: for a
    saga that was never started it returns a nil sequence and a nil error;
    for a started saga it returns the stored sequence, which holds the
    [StartSaga] record followed by the logged messages in append order. *)
Theorem GetMessages_returns_stored id log :
  mutex log = unlocked ->
  (sagas log !! id = None ->
     GetMessages id log = Returns (([], None), log)) /\
  (forall msgs, sagas log !! id = Some msgs ->
     GetMessages id log = Returns ((msgs, None), log)) /\
  (forall job ms, Forall (fun m => sagaId m = id) ms ->
     session id job ms log =
       Returns (StartSagaMessageFactory id job :: ms, None)).
Proof.
  intros Hm.
  assert (Hw : writer (mutex log) = false) by (rewrite Hm; reflexivity).
  split; [|split].
  - intros Hs. rewrite GetMessages_readable, Hs by exact Hw. reflexivity.
  - intros msgs Hs. rewrite GetMessages_readable, Hs by exact Hw. reflexivity.
  - intros job ms Hall. unfold session.
    rewrite StartSaga_unlocked by exact Hm. simpl.
    rewrite (LogMessages_started id ms _ [StartSagaMessageFactory id job]);
      simpl; try done; [|apply lookup_insert_eq].
    rewrite GetMessages_readable by reflexivity. simpl.
    rewrite lookup_insert_eq. reflexivity.
Qed.

Lemma GetMessages_returns_stored_witness :
  GetMessages "j" InMemorySagaFactory =
    Returns (([], None), InMemorySagaFactory) /\
  session "j" [] [taskMsg; endMsg] InMemorySagaFactory =
    Returns ([StartSagaMessageFactory "j" []; taskMsg; endMsg], None).
Proof.
  destruct (GetMessages_returns_stored "j" InMemorySagaFactory eq_refl)
    as (Hnone & _ & Hsession).
  split.
  - apply Hnone. reflexivity.
  - apply Hsession. repeat constructor.
Defined.

(** C5 fails as stated: on the empty log [GetMessages] returns no error. *)
Lemma GetMessages_unstarted_no_error :
  ~ unstarted_is_error "j" InMemorySagaFactory.
Proof.
  intros Hc. destruct (Hc eq_refl) as (msgs & e & log' & Hrun).
  vm_compute in Hrun. discriminate Hrun.
Qed.

(** C7, on the code.  A [LogMessage] for a saga that is not started returns
    its error with the write lock still held, and every later [StartSaga],
    [LogMessage] and [GetMessages] on the log blocks. *)
Theorem LogMessage_unstarted_keeps_lock :
  exists e log',
    LogMessage taskMsg InMemorySagaFactory = Returns (Some e, log') /\
    writer (mutex log') = true /\
    StartSaga "j" [] log' = Blocks /\
    LogMessage taskMsg log' = Blocks /\
    GetMessages "j" log' = Blocks.
Proof.
  eexists _, _. split; [apply LogMessage_unstarted; reflexivity|].
  simpl. split; [reflexivity|].
  repeat split; apply held_blocks; reflexivity.
Qed.

End SagaLogFacts.

(** ** The worker server handler *)

Module WorkerFacts.
Import Worker.

Lemma DeepEqual_refl a : DeepEqual a a = true.
Proof. destruct a; simpl; [apply bool_decide_eq_true_2|]; reflexivity. Qed.

Lemma findRun_RunID id l st : findRun id l = Some st -> RunID_of st = id.
Proof.
  unfold findRun. induction l as [|x l IH]; simpl; [discriminate|].
  case_bool_decide; [intros [= <-]; assumption | exact IH].
Qed.

Lemma findRun_known st l : st ∈ l -> is_Some (findRun (RunID_of st) l).
Proof.
  unfold findRun. induction 1 as [st l|st x l _ IH]; simpl.
  - rewrite bool_decide_eq_true_2 by reflexivity. by eexists.
  - case_bool_decide; [by eexists | exact IH].
Qed.

(** The modelled single-slot runner keeps to what the handler expects. *)
#[global] Instance singleRunner_laws : ServiceLaws singleRunner.
Proof.
  split.
  - intros c r st e r'. simpl. unfold single_Run.
    destruct (existsb isActive (cache r)); intros [= _ _ <-]; reflexivity.
  - intros id r st err r'. simpl. unfold single_Status.
    destruct (findRun id (cache r)); intros [= _ _ <-]; reflexivity.
  - intros id r st r'. simpl. unfold single_Status.
    destruct (findRun id (cache r)) eqn:Hf; intros [= <- _].
    eapply findRun_RunID; eassumption.
  - intros id r Hin. simpl. unfold single_Status.
    unfold runIDs in Hin. simpl in Hin.
    apply elem_of_list_to_set, list_elem_of_fmap in Hin as (st & -> & Hst).
    destruct (findRun_known _ _ Hst) as [st' ->]. by eexists _, _.
Qed.

(** The first [Run] on a new handler over a new runner leads to
    [busyHandler]. *)
Lemma busyHandler_reached :
  Run echoCmd 1 (NewHandler newSingleRunner)
  = Returns ((pendingStatus, None), busyHandler).
Proof. reflexivity. Qed.

Section Facts.
Context {R TCmd TStatus : Type} `{ServiceLaws R} `{Thrift TCmd TStatus}.

(** With no command recorded yet, a [QueueFull] answer of the runner sends
    [Run] through the nil pointer. *)
Lemma Run_QueueFull_nil_currentCmd (cmd : TCmd) now (h : handler R) st0 r1 :
  mu h = false ->
  currentCmd h = None ->
  Service_Run (ThriftRunCommandToDomain cmd) (run h)
    = ((st0, Some QueueFullMsg), r1) ->
  Run cmd now h = Panics.
Proof.
  intros Hmu Hcur Hrun. unfold Run, updateTimeLastRpc. rewrite Hmu. simpl.
  rewrite Hrun, Hcur. simpl. rewrite bool_decide_eq_true_2 by reflexivity.
  reflexivity.
Qed.


(** C3.  When the runner answers [Run] with [QueueFull] and the new
    command's argv equals the argv of the command the handler has recorded
    for its existing RunID, the handler returns the status the runner holds
    for that RunID, unchanged and with a nil error; it keeps that RunID,
    and the runner's set of RunIDs is the one it had before the call. *)
Theorem Run_dup_retry_returns_live_status
  (cmd : TCmd) now (h : handler R) cur st0 r1 :
  mu h = false ->
  currentCmd h = Some cur ->
  currentRunID h ∈ runIDs (run h) ->
  Service_Run (ThriftRunCommandToDomain cmd) (run h)
    = ((st0, Some QueueFullMsg), r1) ->
  Argv (ThriftRunCommandToDomain cmd) = Argv cur ->
  exists st h',
    Run cmd now h = Returns ((DomainRunStatusToThrift st, None), h') /\
    Service_Status (currentRunID h) r1 = ((st, None), run h') /\
    RunID_of st = currentRunID h /\
    currentRunID h' = currentRunID h /\
    runIDs (run h') = runIDs (run h).
Proof.
  intros Hmu Hcur Hknown Hrun Hargv.
  pose proof (Run_error_runIDs _ _ _ _ _ Hrun) as Hids.
  rewrite <- Hids in Hknown.
  destruct (Status_known _ _ Hknown) as (st & r2 & Hstatus).
  exists st. unfold Run, updateTimeLastRpc. rewrite Hmu. simpl.
  rewrite Hrun, Hcur. simpl. rewrite bool_decide_eq_true_2 by reflexivity.
  rewrite Hargv, DeepEqual_refl. simpl. rewrite Hstatus.
  eexists. split; [reflexivity|]. simpl.
  pose proof (Status_RunID _ _ _ _ Hstatus) as Hid.
  repeat split; try exact Hid.
  by rewrite (Status_runIDs _ _ _ _ _ Hstatus).
Qed.

End Facts.

Lemma Run_dup_retry_returns_live_status_witness :
  exists st h',
    Run echoCmd 2 busyHandler = Returns ((st, None), h') /\
    Service_Status (currentRunID busyHandler) busyRunner
      = ((st, None), run h') /\
    RunID_of st = currentRunID busyHandler /\
    currentRunID h' = currentRunID busyHandler /\
    runIDs (run h') = runIDs (run busyHandler).
Proof.
  exact (Run_dup_retry_returns_live_status
           echoCmd 2 busyHandler echoCmd zeroStatus busyRunner
           eq_refl eq_refl
           (bool_decide_unpack ("run-0" ∈ runIDs busyRunner) I)
           eq_refl eq_refl).
Defined.

(** C8, on the code.  On a handler that has recorded no command
    ([currentCmd] is nil) over a runner that is busy, [Run] does not return
    a status: reading [h.currentCmd.Argv] panics. *)
Theorem Run_panics_on_new_handler_when_queue_full :
  Run echoCmd 1 (NewHandler busyRunner) = Panics.
Proof. reflexivity. Qed.

End WorkerFacts.

(** ** The cluster membership view *)

Module ClusterViewFacts.
Import ClusterView.

Lemma keyed_empty : keyed ∅.
Proof. intros id n Hl. rewrite lookup_empty in Hl. discriminate. Qed.

Lemma keyed_insert m n : keyed m -> keyed (<[Id n := n]> m).
Proof.
  intros Hk id n' Hl. destruct (decide (Id n = id)) as [<-|Hne].
  - rewrite lookup_insert_eq in Hl. by injection Hl as <-.
  - rewrite lookup_insert_ne in Hl by exact Hne. by apply Hk.
Qed.

Lemma keyed_delete m id : keyed m -> keyed (delete id m).
Proof.
  intros Hk id' n Hl. apply Hk.
  destruct (decide (id = id')) as [<-|Hne].
  - rewrite lookup_delete_eq in Hl. discriminate.
  - by rewrite lookup_delete_ne in Hl.
Qed.

Lemma keyed_MakeState ns : keyed (MakeState ns).
Proof.
  unfold MakeState. generalize (∅ : gmap NodeId Node), keyed_empty.
  induction ns as [|n ns IH]; intros m Hk; simpl; [exact Hk|].
  apply IH, keyed_insert, Hk.
Qed.

Lemma keyed_applyUpdate m u : keyed m -> keyed (applyUpdate m u).
Proof.
  intros Hk. destruct u as [n|id]; simpl.
  - destruct (m !! Id n); [exact Hk | by apply keyed_insert].
  - by apply keyed_delete.
Qed.

Lemma keyed_foldl_applyUpdate us : forall m,
  keyed m -> keyed (foldl applyUpdate m us).
Proof.
  induction us as [|u us IH]; intros m Hk; simpl; [exact Hk|].
  apply IH, keyed_applyUpdate, Hk.
Qed.

Lemma keyed_computeOutgoing x st :
  keyed st -> keyed (computeOutgoing x st).2.
Proof.
  intros Hk. destruct x as [us|ns|]; simpl.
  - by apply keyed_foldl_applyUpdate.
  - apply keyed_MakeState.
  - exact Hk.
Qed.

Lemma sortIds_sorted l : StronglySorted String.le (sortIds l).
Proof. apply (StronglySorted_merge_sort String.le). Qed.

Lemma sortIds_elem_of id l : id ∈ sortIds l <-> id ∈ l.
Proof. unfold sortIds. by rewrite merge_sort_Permutation. Qed.

(** Looking the ids of a keyed map up gives nodes with those ids. *)
Lemma Id_omap_lookup (m : gmap NodeId Node) (ids : list NodeId) :
  keyed m ->
  Forall (fun id => is_Some (m !! id)) ids ->
  Id <$> omap (fun id => m !! id) ids = ids.
Proof.
  intros Hk. induction 1 as [|id ids [n Hn] _ IH]; csimpl; [reflexivity|].
  rewrite Hn. csimpl. rewrite IH, (Hk _ _ Hn). reflexivity.
Qed.

Lemma additions_ids old new :
  keyed new ->
  Id <$> additions old new = sortIds (elements (dom new ∖ dom old)).
Proof.
  intros Hk. apply Id_omap_lookup; [exact Hk|].
  apply Forall_forall. intros id Hin.
  apply sortIds_elem_of, elem_of_elements, elem_of_difference in Hin as [Hin _].
  by apply elem_of_dom.
Qed.

(** The computed delta lists removals, then additions, each in
    lexicographic order of [NodeId]. *)
Lemma delta_ordered old new : keyed new -> ordered_delta (delta old new).
Proof.
  intros Hk. exists (removals old new), (additions old new).
  split; [reflexivity|]. split; [apply sortIds_sorted|].
  rewrite additions_ids by exact Hk. apply sortIds_sorted.
Qed.

Lemma computeOutgoing_ordered x st :
  keyed st -> ordered_delta (computeOutgoing x st).1.
Proof.
  intros Hk. destruct x as [us|ns|]; simpl.
  - apply delta_ordered. by apply keyed_foldl_applyUpdate.
  - apply delta_ordered, keyed_MakeState.
  - exists [], []. repeat split; constructor.
Qed.

Lemma deltas_ordered xs : forall st,
  keyed st -> Forall ordered_delta (deltas xs st).
Proof.
  induction xs as [|x xs IH]; intros st Hk; simpl; constructor.
  - by apply computeOutgoing_ordered.
  - by apply IH, keyed_computeOutgoing.
Qed.

Lemma add_trace_nil c : add_trace [] c = c.
Proof. destruct c. unfold add_trace. simpl. by rewrite app_nil_r. Qed.

Lemma add_trace_app es1 es2 c :
  add_trace es2 (add_trace es1 c) = add_trace (es1 ++ es2) c.
Proof. unfold add_trace. simpl. by rewrite app_assoc. Qed.

(** The loop over [c.subs] sends the delta to each subscriber in turn. *)
Lemma broadcast_fanout d l : forall c,
  Forall (fun s => s <> 0 /\ s ∉ closed c) l ->
  broadcast d l c = Returns (add_trace (fanout l d) c).
Proof.
  induction l as [|s l IH]; intros c Hall; simpl.
  - by rewrite add_trace_nil.
  - apply Forall_cons in Hall as [[Hnz Hopen] Hall]. unfold send.
    rewrite bool_decide_eq_false_2 by exact Hnz.
    rewrite bool_decide_eq_false_2 by exact Hopen. simpl.
    rewrite (IH (emit (SendUpdates s d) c)) by exact Hall.
    change (emit (SendUpdates s d) c) with (add_trace [SendUpdates s d] c).
    by rewrite add_trace_app.
Qed.

Lemma deliveries_app sub tr1 tr2 :
  deliveries sub (tr1 ++ tr2) = deliveries sub tr1 ++ deliveries sub tr2.
Proof. apply omap_app. Qed.

Lemma deliveries_fanout_other sub l d :
  sub ∉ l -> deliveries sub (fanout l d) = [].
Proof.
  induction l as [|s l IH]; intros Hn; simpl; [reflexivity|].
  apply not_elem_of_cons in Hn as [Hne Hn].
  rewrite bool_decide_eq_false_2 by congruence. by apply IH.
Qed.

(** One fan-out brings a subscriber the delta exactly once. *)
Lemma deliveries_fanout sub l d :
  NoDup l -> sub ∈ l -> deliveries sub (fanout l d) = [d].
Proof.
  induction 1 as [|s l Hs Hnd IH]; intros Hin; [by apply elem_of_nil in Hin|].
  simpl. destruct (decide (s = sub)) as [->|Hne].
  - rewrite bool_decide_eq_true_2 by reflexivity.
    by rewrite deliveries_fanout_other.
  - rewrite bool_decide_eq_false_2 by exact Hne.
    apply elem_of_cons in Hin as [Heq|Hin]; [congruence | by apply IH].
Qed.

Lemma deliveries_fanouts sub l ds :
  NoDup l -> sub ∈ l ->
  deliveries sub (concat (fanout l <$> ds)) = ds.
Proof.
  intros Hnd Hin. induction ds as [|d ds IH]; csimpl; [reflexivity|].
  by rewrite deliveries_app, deliveries_fanout, IH.
Qed.

(** C6.  On each ingest the view computes one delta, ordered removals then
    additions, each lexicographically by [NodeId], and sends that delta to
    every subscriber in the order of [c.subs]; over a run of ingests every
    subscriber is sent exactly the deltas of the run, in ingest order. *)
Theorem ingests_fan_out_in_order (xs : list ingest) : forall c,
  keyed (State c) ->
  open_subs c ->
  is_Some (ch c) ->
  exists c',
    loop (RecvCh ∘ Some <$> xs) c = Returns (false, c') /\
    trace c' =
      trace c ++ concat (fanout (subscribers c) <$> deltas xs (State c)) /\
    Forall ordered_delta (deltas xs (State c)) /\
    subscribers c' = subscribers c /\
    forall sub, sub ∈ subscribers c ->
      deliveries sub (trace c') =
        deliveries sub (trace c) ++ deltas xs (State c).
Proof.
  induction xs as [|x xs IH]; intros c Hk [Hopen Hnd] [i Hch].
  - exists c. simpl. unfold done. rewrite Hch. simpl.
    rewrite !app_nil_r. repeat split; [constructor | ].
    intros sub _. by rewrite app_nil_r.
  - set (d := (computeOutgoing x (State c)).1).
    set (st' := (computeOutgoing x (State c)).2).
    set (c1 := add_trace (fanout (subscribers c) d) (set_State st' c)).
    assert (Hstep : loop_body (RecvCh (Some x)) c = Returns c1).
    { unfold loop_body. rewrite Hch.
      destruct (computeOutgoing x (State c)) as [d0 st0] eqn:Hco.
      subst d st' c1. simpl. by apply broadcast_fanout. }
    destruct (IH c1) as (c' & Hrun & Htr & Hord & Hsubs & Hdel).
    { by apply keyed_computeOutgoing. }
    { split; assumption. }
    { by exists i. }
    exists c'.
    change (RecvCh ∘ Some <$> x :: xs)
      with (RecvCh (Some x) :: (RecvCh ∘ Some <$> xs)).
    cbn [loop]. unfold done at 1. rewrite Hch. cbn [bool_decide andb].
    simpl bool_decide. cbn iota. rewrite Hstep. cbn [mbind outcome_bind].
    split; [exact Hrun|].
    assert (Htr' : trace c' = trace c ++
              concat (fanout (subscribers c) <$> deltas (x :: xs) (State c))).
    { rewrite Htr. simpl. by rewrite <- app_assoc. }
    split; [exact Htr'|]. split.
    { by apply (deltas_ordered (x :: xs)). }
    split; [exact Hsubs|].
    intros sub Hin. rewrite Htr', deliveries_app.
    by rewrite deliveries_fanouts.
Qed.

Lemma ingests_fan_out_in_order_witness :
  exists c',
    loop (RecvCh ∘ Some <$> twoIngests) threeSubs = Returns (false, c') /\
    trace c' =
      trace threeSubs ++
      concat (fanout (subscribers threeSubs)
                <$> deltas twoIngests (State threeSubs)) /\
    Forall ordered_delta (deltas twoIngests (State threeSubs)) /\
    subscribers c' = subscribers threeSubs /\
    forall sub, sub ∈ subscribers threeSubs ->
      deliveries sub (trace c') =
        deliveries sub (trace threeSubs) ++
        deltas twoIngests (State threeSubs).
Proof.
  apply (ingests_fan_out_in_order twoIngests threeSubs).
  - apply keyed_empty.
  - split.
    + repeat constructor; try discriminate; apply not_elem_of_empty.
    + change (subscribers threeSubs) with [2; 3; 4].
      exact (bool_decide_unpack (NoDup [2; 3; 4]) I).
  - exists 100. reflexivity.
Defined.

(** The deltas of the two ingests and what the second subscriber is sent. *)
Lemma twoIngests_deltas :
  deltas twoIngests ∅ =
    [[Added (node "a"); Added (node "b")];
     [Removed "a"; Added (node "0"); Added (node "c")]].
Proof. vm_compute. reflexivity. Qed.

(** Three [Subscribe] requests on a new view lead to [threeSubs]. *)
Lemma threeSubs_reached :
  loop subscribe3 (NewCluster [] (Some 100)) = Returns (false, threeSubs).
Proof. vm_compute. reflexivity. Qed.

(** *** Registration order: what [append] does to [c.subs] *)

Lemma elems_length h s : slice_ok h s -> length (elems h s) = len s.
Proof.
  intros [Hcap Hlen]. unfold elems. rewrite length_take_le; [done|lia].
Qed.

Lemma slice_ok_prefix h s i : slice_ok h s -> i <= len s ->
  slice_ok h (prefix_slice s i) /\
  elems h (prefix_slice s i) = take i (elems h s).
Proof.
  intros [Hcap Hlen] Hi. split; [split; simpl; [exact Hcap | lia]|].
  unfold elems, prefix_slice, array_of. simpl.
  rewrite take_take. f_equal. lia.
Qed.

Lemma growcap_ge old needed : needed <= growcap old needed.
Proof. unfold growcap. destruct (Nat.ltb_spec (2 * old) needed); lia. Qed.

(** [append] shows the old elements followed by the new ones, whether it
    writes in place or moves to a new array, and touches nothing but the
    heap. *)
Lemma goappend_spec s xs c :
  slice_ok (heap c) s ->
  exists h' n',
    (goappend s xs c).2 = set_heap h' n' c /\
    elems h' (goappend s xs c).1 = elems (heap c) s ++ xs /\
    slice_ok h' (goappend s xs c).1.
Proof.
  intros [Hcap Hlen]. unfold goappend.
  destruct (Nat.leb_spec (len s + length xs) (cap s)) as [Hfit|Hgrow].
  - eexists _, _. split; [reflexivity|]. simpl.
    unfold slice_ok, elems, array_of in *. simpl. rewrite lookup_alter_eq.
    destruct (heap c !! ptr s) as [arr|] eqn:Harr; simpl in *.
    + split.
      * rewrite app_assoc. rewrite take_app_length'; [done|].
        rewrite length_app, length_take_le; lia.
      * rewrite !length_app, length_take_le, length_drop by lia. lia.
    + assert (len s = 0) as -> by lia.
      assert (length xs = 0) as Hxs by lia.
      apply nil_length_inv in Hxs as ->. simpl. split; [done|lia].
  - eexists _, _. split; [reflexivity|]. simpl.
    pose proof (growcap_ge (cap s) (len s + length xs)) as Hk.
    assert (Hel : length (elems (heap c) s) = len s)
      by (apply elems_length; split; assumption).
    unfold slice_ok, elems at 1, array_of. simpl. rewrite lookup_insert_eq.
    simpl. split.
    + rewrite app_assoc. rewrite take_app_length'; [done|].
      rewrite length_app. lia.
    + rewrite !length_app, length_replicate. lia.
Qed.

Lemma send_Returns target e c c' :
  send target e c = Returns c' ->
  target <> 0 /\ (target ∉ closed c) /\ c' = emit e c.
Proof.
  unfold send. repeat case_bool_decide; intros [=]. by subst.
Qed.

Lemma close_chan_Returns target c c' :
  close_chan target c = Returns c' ->
  target <> 0 /\ (target ∉ closed c) /\
  closed c' = {[target]} ∪ closed c /\
  trace c' = trace c ++ [CloseChan target] /\
  State c' = State c /\ reqCh c' = reqCh c /\ ch c' = ch c /\
  subs c' = subs c /\ heap c' = heap c /\ nextChan c' = nextChan c.
Proof.
  unfold close_chan. repeat case_bool_decide; intros [=]. by subst.
Qed.

(** A [Subscribe] request registers a new channel after the subscribers
    already registered. *)
Lemma handleReq_Subscribe reply c c' :
  slice_ok (heap c) (subs c) ->
  handleReq (SubscribeReq reply) c = Returns c' ->
  subscribers c' = subscribers c ++ [nextChan c] /\
  slice_ok (heap c') (subs c') /\
  nextChan c' = S (nextChan c) /\
  closed c' = closed c /\ State c' = State c /\
  ch c' = ch c /\ reqCh c' = reqCh c /\
  trace c' =
    trace c ++ [SendSubscriber reply (newSubscriber (current c) (nextChan c))].
Proof.
  intros Hok. unfold handleReq, make_chan.
  set (c1 := {| State := State c; reqCh := reqCh c; ch := ch c;
                subs := subs c; heap := heap c; nextLoc := nextLoc c;
                nextChan := S (nextChan c); closed := closed c;
                trace := trace c |}).
  destruct (goappend_spec (subs c1) [nextChan c] c1 Hok)
    as (h' & n' & Hc2 & Hel & Hok').
  destruct (goappend (subs c1) [nextChan c] c1) as [subs' c2] eqn:Hg.
  simpl in Hc2, Hel, Hok'. subst c2.
  intros (_ & _ & ->)%send_Returns. unfold subscribers. simpl.
  repeat split; try done; apply Hok'.
Qed.

Lemma index_of_Some x l i :
  index_of x l = Some i ->
  l !! i = Some x /\ forall j, j < i -> l !! j <> Some x.
Proof.
  unfold index_of. destruct (list_find _ l) as [[i' y]|] eqn:Hf; [|done].
  intros [= <-]. apply list_find_Some in Hf as (Hl & -> & Hfirst).
  split; [done|]. intros j Hj Hlj. by apply (Hfirst j x).
Qed.

(** Closing a subscription takes the first occurrence of the channel out of
    [c.subs], keeps the order of the others, and closes the channel. *)
Lemma handleReq_CloseSub sub c c' :
  slice_ok (heap c) (subs c) ->
  handleReq (CloseSubReq sub) c = Returns c' ->
  match index_of sub (subscribers c) with
  | Some i =>
      subscribers c' = delete i (subscribers c) /\
      sub <> 0 /\ (sub ∉ closed c) /\
      closed c' = {[sub]} ∪ closed c /\
      trace c' = trace c ++ [CloseChan sub]
  | None => c' = c
  end /\
  slice_ok (heap c') (subs c') /\
  nextChan c' = nextChan c /\ State c' = State c /\
  ch c' = ch c /\ reqCh c' = reqCh c.
Proof.
  intros Hok. unfold handleReq.
  destruct (index_of sub (subscribers c)) as [i|] eqn:Hi;
    [|by intros [= <-]].
  apply index_of_Some in Hi as [Hi _].
  assert (Hlt : i < len (subs c)).
  { apply lookup_lt_Some in Hi. unfold subscribers in Hi.
    by rewrite elems_length in Hi. }
  destruct (slice_ok_prefix (heap c) (subs c) i Hok) as [Hokp Hpre]; [lia|].
  destruct (goappend_spec (prefix_slice (subs c) i)
              (suffix_elems (heap c) (subs c) (S i)) c Hokp)
    as (h' & n' & Hc1 & Hel & Hok').
  destruct (goappend _ _ c) as [subs' c1] eqn:Hg.
  simpl in Hc1, Hel, Hok'. subst c1.
  intros (Hnz & Hopen & Hcl & Htr & HSt & Hrq & Hch & Hsubs & Hheap & Hnc)
    %close_chan_Returns.
  simpl in *. unfold subscribers. rewrite Hsubs, Hheap.
  repeat split; try done.
  - rewrite Hel, Hpre. unfold suffix_elems. by rewrite delete_take_drop.
  - apply Hok'.
  - apply Hok'.
Qed.

(** *** The invariant of the loop *)

Lemma NewCluster_Inv state input : Inv (NewCluster state input).
Proof.
  split; simpl.
  - apply keyed_MakeState.
  - split; simpl; [reflexivity|lia].
  - split; [constructor | apply NoDup_nil_2].
  - intros s [Hs|Hs];
      [by apply elem_of_nil in Hs | by apply not_elem_of_empty in Hs].
  - lia.
  - intros r [= <-]. split; [apply not_elem_of_nil | lia].
Qed.

Lemma NoDup_lookup_delete (l : list chanId) i x :
  NoDup l -> l !! i = Some x -> x ∉ delete i l.
Proof.
  intros Hnd Hi. rewrite delete_take_drop.
  rewrite <- (take_drop_middle l i x Hi) in Hnd.
  apply NoDup_app in Hnd as (_ & Hdisj & Hnd).
  apply NoDup_cons in Hnd as [Hx _].
  apply not_elem_of_app. split; [|exact Hx].
  intros Hin. apply (Hdisj x Hin). apply elem_of_cons. by left.
Qed.

Lemma handleReq_Inv req c c' :
  Inv c -> handleReq req c = Returns c' -> Inv c'.
Proof.
  intros [Hk Hsl [Hopen Hnd] Hfresh Hnext Hreq] Hrun.
  destruct req as [reply|reply|sub|].
  - apply send_Returns in Hrun as (_ & _ & ->). by split.
  - apply handleReq_Subscribe in Hrun
      as (Hsubs & Hsl' & Hnc & Hcl & HSt & _ & Hrq & _); [|exact Hsl].
    split.
    + by rewrite HSt.
    + exact Hsl'.
    + split; rewrite Hsubs, ?Hcl.
      * apply Forall_app. split; [exact Hopen|].
        constructor; [|constructor]. split; [lia|].
        intros Hin. specialize (Hfresh (nextChan c) (or_intror Hin)). lia.
      * apply NoDup_app. split; [exact Hnd|]. split; [|apply NoDup_singleton].
        intros x Hx ->%list_elem_of_singleton.
        specialize (Hfresh (nextChan c) (or_introl Hx)). lia.
    + rewrite Hsubs, Hcl, Hnc. intros s [Hs|Hs].
      * apply elem_of_app in Hs as [Hs| ->%list_elem_of_singleton]; [|lia].
        specialize (Hfresh s (or_introl Hs)). lia.
      * specialize (Hfresh s (or_intror Hs)). lia.
    + lia.
    + rewrite Hsubs, Hnc, Hrq. intros r Hr.
      destruct (Hreq r Hr) as [Hnin Hlt]. split; [|lia].
      apply not_elem_of_app. split; [exact Hnin|].
      rewrite list_elem_of_singleton. lia.
  - apply handleReq_CloseSub in Hrun
      as (Hcase & Hsl' & Hnc & HSt & _ & Hrq); [|exact Hsl].
    destruct (index_of sub (subscribers c)) as [i|] eqn:Hi;
      [|subst c'; by split].
    destruct Hcase as (Hsubs & Hnz & Hnotcl & Hcl & _).
    apply index_of_Some in Hi as [Hi _].
    assert (Hsubl : forall s, s ∈ delete i (subscribers c) ->
                               s ∈ subscribers c).
    { intros s Hs. eapply elem_of_sublist; [exact Hs | apply sublist_delete]. }
    split.
    + by rewrite HSt.
    + exact Hsl'.
    + split; rewrite Hsubs.
      * apply Forall_forall. intros s Hs.
        rewrite Forall_forall in Hopen.
        destruct (Hopen s (Hsubl s Hs)) as [Hsnz Hscl].
        split; [exact Hsnz|]. rewrite Hcl.
        intros [->%elem_of_singleton|Hin]%elem_of_union; [|done].
        by apply (NoDup_lookup_delete (subscribers c) i sub).
      * eapply sublist_NoDup; [exact Hnd | apply sublist_delete].
    + rewrite Hsubs, Hcl, Hnc. intros s [Hs|Hs].
      * apply Hfresh. left. by apply Hsubl.
      * apply elem_of_union in Hs as [->%elem_of_singleton|Hs].
        -- apply Hfresh. left. by apply list_elem_of_lookup_2 in Hi.
        -- apply Hfresh. by right.
    + lia.
    + rewrite Hsubs, Hnc, Hrq. intros r Hr.
      destruct (Hreq r Hr) as [Hnin Hlt]. split; [|lia].
      intros Hin. by apply Hnin, Hsubl.
  - injection Hrun as <-. by split.
Qed.

(** Every iteration of the loop keeps the invariant. *)
Lemma loop_body_Inv r c c' :
  Inv c -> loop_body r c = Returns c' -> Inv c'.
Proof.
  intros HI Hrun. destruct r as [v|v]; simpl in Hrun.
  - destruct (ch c) as [i|]; [|injection Hrun as <-; exact HI].
    destruct v as [x|]; [|injection Hrun as <-; by destruct HI].
    destruct HI as [Hk Hsl [Hopen Hnd] Hfresh Hnext Hreq].
    destruct (computeOutgoing x (State c)) as [d st'] eqn:Hco.
    rewrite broadcast_fanout in Hrun by exact Hopen.
    injection Hrun as <-. split; simpl; try done.
    change st' with (d, st').2. rewrite <- Hco.
    by apply keyed_computeOutgoing.
  - destruct (reqCh c) as [i|]; [|injection Hrun as <-; exact HI].
    destruct v as [req|]; [|injection Hrun as <-; by destruct HI].
    eapply handleReq_Inv; eassumption.
Qed.

(** The invariant holds of every view the loop waits in, from a new view
    on. *)
Lemma loop_Inv rs : forall c c',
  Inv c -> loop rs c = Returns (false, c') -> Inv c'.
Proof.
  induction rs as [|r rs IH]; intros c c' HI Hrun; cbn [loop] in Hrun.
  - destruct (done c); [|by injection Hrun as <-].
    by destruct (close_all _ c).
  - destruct (done c); [by destruct (close_all _ c)|].
    destruct (loop_body r c) as [c1| |] eqn:Hstep; try discriminate.
    eapply IH; [|exact Hrun]. eapply loop_body_Inv; eassumption.
Qed.

Lemma threeSubs_Inv : Inv threeSubs.
Proof.
  eapply loop_Inv; [apply (NewCluster_Inv [] (Some 100))|].
  apply threeSubs_reached.
Qed.

(** *** Deliveries over any run of the loop *)

Lemma close_all_Returns l : forall c c',
  close_all l c = Returns c' ->
  trace c' = trace c ++ (CloseChan <$> l) /\
  closed c' = list_to_set l ∪ closed c /\
  NoDup l /\ Forall (fun s => s <> 0 /\ (s ∉ closed c)) l.
Proof.
  induction l as [|s l IH]; intros c c' Hrun; simpl in Hrun.
  - injection Hrun as <-. simpl. rewrite app_nil_r.
    repeat split; [by rewrite (left_id_L ∅ (∪)) | constructor | constructor].
  - destruct (close_chan s c) as [c1| |] eqn:Hc; try discriminate.
    simpl in Hrun.
    apply close_chan_Returns in Hc
      as (Hnz & Hopen & Hcl & Htr & _).
    apply IH in Hrun as (Htr' & Hcl' & Hnd & Hall).
    rewrite Htr', Htr, Hcl', Hcl. csimpl. rewrite <- app_assoc.
    repeat split.
    + apply set_eq. intros x.
      rewrite !elem_of_union, elem_of_singleton. tauto.
    + constructor; [|exact Hnd]. intros Hin.
      rewrite Forall_forall in Hall. destruct (Hall s Hin) as [_ Hs].
      apply Hs. rewrite Hcl. by apply elem_of_union_l, elem_of_singleton.
    + constructor; [done|]. eapply Forall_impl; [exact Hall|].
      simpl. intros x [Hx Hxc]. split; [exact Hx|].
      rewrite Hcl in Hxc. intros Hx'. by apply Hxc, elem_of_union_r.
Qed.

Lemma close_all_open l : forall c,
  NoDup l -> Forall (fun s => s <> 0 /\ (s ∉ closed c)) l ->
  exists c', close_all l c = Returns c'.
Proof.
  induction l as [|s l IH]; intros c Hnd Hall; simpl; [by eexists|].
  apply NoDup_cons in Hnd as [Hs Hnd].
  apply Forall_cons in Hall as [[Hnz Hopen] Hall].
  unfold close_chan. rewrite bool_decide_eq_false_2 by exact Hnz.
  rewrite bool_decide_eq_false_2 by exact Hopen. simpl.
  apply IH; [exact Hnd|]. simpl.
  rewrite Forall_forall in Hall |- *. intros x Hx.
  destruct (Hall x Hx) as [Hxz Hxc]. split; [exact Hxz|].
  intros [->%elem_of_singleton|Hin]%elem_of_union; [done|done].
Qed.

Lemma deliveries_closes sub l : deliveries sub (CloseChan <$> l) = [].
Proof. induction l as [|s l IH]; [reflexivity | exact IH]. Qed.

(** When the loop leaves, every channel then in [c.subs] is closed. *)
Lemma loop_exit_closes_all rs c :
  Inv c -> done c = true ->
  exists c',
    loop rs c = Returns (true, c') /\
    closed c' = list_to_set (subscribers c) ∪ closed c.
Proof.
  intros [_ _ [Hopen Hnd] _ _ _] Hdone.
  destruct (close_all_open (subscribers c) c Hnd Hopen) as [c' Hc].
  exists c'. split.
  - destruct rs; simpl; rewrite Hdone, Hc; reflexivity.
  - by apply close_all_Returns in Hc as (_ & Hcl & _).
Qed.

(** A request changes neither the membership nor [c.ch], and sends no
    update to any subscriber. *)
Lemma handleReq_quiet req c c' sub :
  slice_ok (heap c) (subs c) ->
  handleReq req c = Returns c' ->
  State c' = State c /\ ch c' = ch c /\
  deliveries sub (trace c') = deliveries sub (trace c).
Proof.
  intros Hsl Hrun. destruct req as [reply|reply|s|].
  - apply send_Returns in Hrun as (_ & _ & ->). simpl.
    rewrite deliveries_app. simpl. by rewrite app_nil_r.
  - apply handleReq_Subscribe in Hrun
      as (_ & _ & _ & _ & HSt & Hch & _ & Htr); [|exact Hsl].
    rewrite Htr, deliveries_app. simpl. by rewrite app_nil_r.
  - apply handleReq_CloseSub in Hrun
      as (Hcase & _ & _ & HSt & Hch & _); [|exact Hsl].
    destruct (index_of s (subscribers c)); [|by subst].
    destruct Hcase as (_ & _ & _ & _ & Htr).
    rewrite Htr, deliveries_app. simpl. by rewrite app_nil_r.
  - by injection Hrun as <-.
Qed.

(** Over any run of the loop, with requests and ingests interleaved, what a
    channel is sent is a subsequence of the deltas computed, in ingest
    order. *)
Lemma deliveries_follow_ingest_order rs sub : forall c b c',
  Inv c ->
  loop rs c = Returns (b, c') ->
  exists l,
    deliveries sub (trace c') = deliveries sub (trace c) ++ l /\
    l `sublist_of` run_deltas rs (ch_open c) (State c).
Proof.
  induction rs as [|r rs IH]; intros c b c' HI Hrun; cbn [loop] in Hrun.
  - exists []. rewrite app_nil_r. split; [|constructor].
    destruct (done c); [|by injection Hrun as _ <-].
    destruct (close_all _ c) as [c1| |] eqn:Hc; try discriminate.
    injection Hrun as _ <-.
    apply close_all_Returns in Hc as (-> & _).
    by rewrite deliveries_app, deliveries_closes, app_nil_r.
  - destruct (done c).
    { exists []. rewrite app_nil_r. split; [|apply sublist_nil_l].
      destruct (close_all _ c) as [c1| |] eqn:Hc; try discriminate.
      injection Hrun as _ <-.
      apply close_all_Returns in Hc as (-> & _).
      by rewrite deliveries_app, deliveries_closes, app_nil_r. }
    destruct (loop_body r c) as [c1| |] eqn:Hstep; try discriminate.
    cbn [mbind outcome_bind] in Hrun.
    pose proof (loop_body_Inv r c c1 HI Hstep) as HI1.
    destruct (IH c1 b c' HI1 Hrun) as (l & Hdel & Hsub).
    destruct HI as [Hk Hsl [Hopen Hnd] Hfresh Hnext Hreq].
    unfold ch_open in *. destruct r as [v|v]; simpl in Hstep.
    + destruct (ch c) as [i|] eqn:Hch.
      * destruct v as [x|].
        -- destruct (computeOutgoing x (State c)) as [d st'] eqn:Hco.
           rewrite broadcast_fanout in Hstep by exact Hopen.
           injection Hstep as <-. simpl in Hdel, Hsub. rewrite Hch in Hsub.
           rewrite deliveries_app in Hdel. cbn [run_deltas].
           rewrite Hco. cbn [fst snd].
           change (subscribers (set_State st' c)) with (subscribers c) in Hdel.
           destruct (decide (sub ∈ subscribers c)) as [Hin|Hout].
           ++ rewrite deliveries_fanout in Hdel by assumption.
              exists (d :: l). rewrite Hdel, <- app_assoc.
              split; [reflexivity|]. by apply sublist_skip.
           ++ rewrite deliveries_fanout_other, app_nil_r in Hdel
                by assumption.
              exists l. split; [exact Hdel|]. by apply sublist_cons.
        -- injection Hstep as <-. simpl in Hdel, Hsub. by exists l.
      * injection Hstep as <-. rewrite Hch in Hsub. exists l.
        split; [exact Hdel|]. by destruct v.
    + assert (Hq : State c1 = State c /\ ch c1 = ch c /\
                   deliveries sub (trace c1) = deliveries sub (trace c)).
      { destruct (reqCh c) as [i|]; [|by injection Hstep as <-].
        destruct v as [req|]; [|by injection Hstep as <-].
        eapply handleReq_quiet; eassumption. }
      destruct Hq as (HSt & Hch & Hd).
      rewrite HSt, Hch in Hsub. rewrite Hd in Hdel. by exists l.
Qed.

(** *** [Close] *)

(** Where the elements of the shifted array come from. *)
Lemma shifted_lookup i m (arr : list chanId) j :
  i < m -> m <= length arr ->
  shifted i m arr !! j =
    if decide (j < i) then arr !! j
    else if decide (j < m - 1) then arr !! S j
    else arr !! j.
Proof.
  intros Him Hm. unfold shifted.
  assert (Hl1 : length (take i arr) = i) by (apply length_take_le; lia).
  assert (Hl2 : length (drop (S i) (take m arr)) = m - S i).
  { rewrite length_drop, length_take_le; lia. }
  destruct (decide (j < i)) as [Hji|Hji].
  - rewrite lookup_app_l by lia. by apply lookup_take_lt.
  - rewrite lookup_app_r by lia. rewrite Hl1.
    destruct (decide (j < m - 1)) as [Hjm|Hjm].
    + rewrite lookup_app_l by lia. rewrite lookup_drop.
      replace (S i + (j - i)) with (S j) by lia.
      apply lookup_take_lt. lia.
    + rewrite lookup_app_r by lia. rewrite Hl2, lookup_drop.
      f_equal. lia.
Qed.

Lemma shifted_length i m (arr : list chanId) :
  i < m -> m <= length arr -> length (shifted i m arr) = length arr.
Proof.
  intros Him Hm. unfold shifted.
  rewrite !length_app, !length_drop, !length_take_le by lia. lia.
Qed.

(** What closing the subscription found at index [i] leaves behind: the
    backing array of [c.subs] shifted in place, one subscriber less, and
    one more channel closed. *)
Lemma handleReq_CloseSub_array v c c' arr i :
  heap c !! ptr (subs c) = Some arr ->
  length arr = cap (subs c) ->
  len (subs c) <= cap (subs c) ->
  index_of v (subscribers c) = Some i ->
  handleReq (CloseSubReq v) c = Returns c' ->
  heap c' = <[ptr (subs c) := shifted i (len (subs c)) arr]> (heap c) /\
  subs c' = {| ptr := ptr (subs c); len := len (subs c) - 1;
               cap := cap (subs c) |} /\
  closed c' = {[v]} ∪ closed c /\
  reqCh c' = reqCh c /\ i < len (subs c).
Proof.
  intros Harr Hcap Hlen Hidx. unfold handleReq. rewrite Hidx.
  assert (Hsub : subscribers c = take (len (subs c)) arr).
  { unfold subscribers, elems, array_of. by rewrite Harr. }
  apply index_of_Some in Hidx as [Hi _].
  assert (Hlt : i < len (subs c)).
  { apply lookup_lt_Some in Hi. rewrite Hsub, length_take_le in Hi; lia. }
  assert (Hxs : length (suffix_elems (heap c) (subs c) (S i))
                = len (subs c) - S i).
  { unfold suffix_elems. fold (subscribers c).
    rewrite Hsub, length_drop, length_take_le; lia. }
  unfold goappend. cbn [len cap ptr prefix_slice]. rewrite Hxs.
  replace (i + (len (subs c) - S i)) with (len (subs c) - 1) by lia.
  destruct (Nat.leb_spec (len (subs c) - 1) (cap (subs c))) as [_|?]; [|lia].
  intros (_ & _ & Hcl & _ & _ & Hrq & _ & Hsubs & Hheap & _)
    %close_chan_Returns.
  simpl in *. rewrite Hheap, Hsubs, Hcl, Hrq.
  repeat split; [|exact Hlt].
  apply map_eq. intros l. destruct (decide (ptr (subs c) = l)) as [<-|Hne].
  - rewrite lookup_alter_eq, lookup_insert_eq, Harr. simpl. f_equal.
    unfold shifted, suffix_elems. fold (subscribers c). by rewrite Hsub.
  - by rewrite lookup_alter_ne, lookup_insert_ne.
Qed.

(** From the second iteration on, the loop of [Close] never reads the
    channel at the head of the array, so it never closes it. *)
Lemma skipped_step s e rq i c c' :
  1 <= i < len s ->
  skipped s e rq c ->
  handleReq (CloseSubReq (default 0 (array_of (heap c) s !! i))) c
    = Returns c' ->
  skipped s e rq c'.
Proof.
  intros Hi (arr & Hheap & Hlen & Hp & Hcap & Hm1 & Hmn & Hn & H0 & Hrest
             & Hez & Hecl & Hrq).
  replace (array_of (heap c) s) with arr
    by (unfold array_of; by rewrite Hheap).
  set (v := default 0 (arr !! i)).
  assert (Hv : v <> e).
  { subst v. destruct (arr !! i) as [x|] eqn:Hx; simpl; [|congruence].
    intros ->. by apply (Hrest i). }
  destruct (index_of v (subscribers c)) as [idx|] eqn:Hidx.
  - intros Hrun.
    assert (Hh : heap c !! ptr (subs c) = Some arr) by (by rewrite Hp).
    assert (Hc1 : length arr = cap (subs c)) by lia.
    assert (Hc2 : len (subs c) <= cap (subs c)) by lia.
    destruct (handleReq_CloseSub_array v c c' arr idx Hh Hc1 Hc2 Hidx Hrun)
      as (Hheap' & Hsubs' & Hcl' & Hrq' & Hidxlt).
    assert (Hnz : idx <> 0).
    { intros ->. apply index_of_Some in Hidx as [Hl _].
      unfold subscribers, elems, array_of in Hl. rewrite Hp, Hheap in Hl.
      simpl in Hl. rewrite lookup_take_lt, H0 in Hl by lia. congruence. }
    unfold skipped. exists (shifted idx (len (subs c)) arr).
    rewrite Hheap', Hsubs', Hcl', Hrq', Hp, Hcap. simpl.
    rewrite lookup_insert_eq, shifted_length by lia.
    repeat split; try done; try lia.
    + rewrite shifted_lookup by lia. by rewrite decide_True by lia.
    + intros j Hj. rewrite shifted_lookup by lia.
      repeat case_decide; apply Hrest; lia.
    + intros [->%elem_of_singleton|Hin]%elem_of_union; done.
  - unfold handleReq. rewrite Hidx. intros [= <-].
    unfold skipped. exists arr. repeat split; try done; lia.
Qed.

Lemma Close_range_skipped s e rq n : forall i c c',
  1 <= i -> i + n = len s ->
  skipped s e rq c ->
  Close_range s i n c = Returns c' ->
  skipped s e rq c'.
Proof.
  induction n as [|n IH]; intros i c c' Hi Hin Hsk Hrun;
    cbn [Close_range] in Hrun.
  - by injection Hrun as <-.
  - destruct (handleReq _ c) as [c1| |] eqn:Hstep; try discriminate.
    cbn [mbind outcome_bind] in Hrun.
    apply (IH (S i) c1 c'); [lia|lia| |exact Hrun].
    eapply skipped_step; [|exact Hsk|exact Hstep]. lia.
Qed.

(** The first iteration of [Close] on three or more subscribers closes the
    first and moves the second to the head of the array. *)
Lemma Close_first_skipped c c' e :
  Inv c ->
  3 <= len (subs c) ->
  subscribers c !! 1 = Some e ->
  handleReq (CloseSubReq (default 0 (array_of (heap c) (subs c) !! 0))) c
    = Returns c' ->
  skipped (subs c) e (reqCh c) c'.
Proof.
  intros [_ [Hcap Hlen] [Hopen Hnd] _ _ _] Hn He.
  destruct (heap c !! ptr (subs c)) as [arr|] eqn:Harr; cycle 1.
  { exfalso. unfold array_of in Hcap. rewrite Harr in Hcap.
    simpl in Hcap. lia. }
  assert (Harr' : array_of (heap c) (subs c) = arr).
  { unfold array_of. by rewrite Harr. }
  rewrite Harr' in Hcap |- *.
  assert (Hsub : subscribers c = take (len (subs c)) arr).
  { unfold subscribers, elems. by rewrite Harr'. }
  assert (Hat : forall j, j < len (subs c) -> subscribers c !! j = arr !! j).
  { intros j Hj. rewrite Hsub. by apply lookup_take_lt. }
  destruct (arr !! 0) as [e0|] eqn:H0; cycle 1.
  { exfalso. apply lookup_ge_None in H0. unfold chanId in *. lia. }
  cbn [default from_option id]. intros Hrun.
  assert (Hidx : index_of e0 (subscribers c) = Some 0).
  { destruct (index_of e0 (subscribers c)) as [idx|] eqn:Hidx.
    - apply index_of_Some in Hidx as [Hl _]. f_equal.
      eapply (NoDup_lookup (subscribers c)); [exact Hnd|exact Hl|].
      rewrite Hat by lia. exact H0.
    - unfold index_of in Hidx.
      destruct (list_find _ (subscribers c)) as [[? ?]|] eqn:Hf; [done|].
      apply list_find_None in Hf. rewrite Forall_forall in Hf.
      exfalso. apply (Hf e0); [|reflexivity].
      apply (list_elem_of_lookup_2 _ 0). rewrite Hat by lia. exact H0. }
  destruct (handleReq_CloseSub_array e0 c c' arr 0 Harr Hcap Hlen Hidx Hrun)
    as (Hheap' & Hsubs' & Hcl' & Hrq' & _).
  assert (He1 : arr !! 1 = Some e) by (rewrite <- Hat by lia; exact He).
  assert (Hin : e ∈ subscribers c) by (eapply list_elem_of_lookup_2, He).
  rewrite Forall_forall in Hopen. destruct (Hopen e Hin) as [Hez Hecl].
  unfold skipped. exists (shifted 0 (len (subs c)) arr).
  rewrite Hheap', Hsubs', Hcl', Hrq'. simpl.
  rewrite lookup_insert_eq, shifted_length by lia.
  repeat split; try done; try lia.
  - rewrite shifted_lookup by lia.
    rewrite decide_False, decide_True by lia. exact He1.
  - intros j Hj Hje. rewrite shifted_lookup in Hje by lia.
    rewrite decide_False in Hje by lia.
    assert (Hdist : forall k, k < len (subs c) -> arr !! k = Some e -> k = 1).
    { intros k Hk Hke.
      eapply (NoDup_lookup (subscribers c)); [exact Hnd| |exact He].
      by rewrite Hat. }
    case_decide.
    + specialize (Hdist (S j) ltac:(lia) Hje). lia.
    + specialize (Hdist j ltac:(lia) Hje). lia.
  - intros [Heq%elem_of_singleton|Hc]%elem_of_union; [|done].
    subst e0. assert (1 = 0); [|lia].
    eapply (NoDup_lookup (subscribers c)); [exact Hnd|exact He|].
    rewrite Hat by lia. exact H0.
Qed.

(** With three or more subscribers, whenever [Close] returns it has left
    the second subscriber open and [c.subs] nil: nothing will close that
    channel any more. *)
Lemma Close_leaves_second_open c c' e :
  Inv c ->
  3 <= length (subscribers c) ->
  subscribers c !! 1 = Some e ->
  Close c = Returns c' ->
  (e ∉ closed c') /\ subscribers c' = [].
Proof.
  intros HI Hn He. unfold Close.
  assert (Hlen : length (subscribers c) = len (subs c)).
  { apply elems_length. by destruct HI. }
  rewrite Hlen in Hn.
  destruct (len (subs c)) as [|n] eqn:Hl; [lia|]. cbn [Close_range].
  destruct (handleReq _ c) as [c1| |] eqn:Hstep; try discriminate.
  cbn [mbind outcome_bind].
  destruct (Close_range (subs c) 1 n c1) as [c2| |] eqn:Hrange;
    try discriminate.
  cbn [mbind outcome_bind].
  assert (Hsk : skipped (subs c) e (reqCh c) c2).
  { eapply (Close_range_skipped _ _ _ n 1 c1); [lia|lia| |exact Hrange].
    apply Close_first_skipped; [exact HI|lia|exact He|exact Hstep]. }
  destruct Hsk as (arr & _ & _ & _ & _ & _ & _ & _ & _ & _ & _ & Hecl & Hrq).
  simpl. rewrite Hrq. destruct (reqCh c) as [r|] eqn:Hr; [|discriminate].
  intros (_ & _ & Hcl & _ & _ & _ & _ & Hsubs & Hheap & _)%close_chan_Returns.
  simpl in *. split.
  - rewrite Hcl. intros [->%elem_of_singleton|Hin]%elem_of_union; [|done].
    destruct (inv_req c HI r Hr) as [Hnin _].
    apply Hnin. eapply list_elem_of_lookup_2, He.
  - unfold subscribers. by rewrite Hsubs.
Qed.

(** With one or two subscribers the shifts do no harm: [Close] closes
    every update channel. *)
Lemma Close_closes_up_to_two :
  (exists c1 c2,
     loop [RecvReq (Some (SubscribeReq 10))] (NewCluster [] (Some 100))
       = Returns (false, c1) /\
     subscribers c1 = [2] /\
     Close c1 = Returns c2 /\ closed c2 = {[ 1; 2 ]}) /\
  (exists c1 c2,
     loop [RecvReq (Some (SubscribeReq 10)); RecvReq (Some (SubscribeReq 11))]
          (NewCluster [] (Some 100))
       = Returns (false, c1) /\
     subscribers c1 = [2; 3] /\
     Close c1 = Returns c2 /\ closed c2 = {[ 1; 2; 3 ]}).
Proof.
  split; eexists _, _;
    (split; [vm_compute; reflexivity|]);
    (split; [vm_compute; reflexivity|]);
    (split; [vm_compute; reflexivity|]);
    vm_compute; reflexivity.
Qed.

(** With five subscribers [Close] leaves the second and the fourth open. *)
Lemma Close_skips_two_of_five :
  exists c1 c2,
    loop (subscribe3 ++ [RecvReq (Some (SubscribeReq 13));
                         RecvReq (Some (SubscribeReq 14))])
         (NewCluster [] (Some 100))
      = Returns (false, c1) /\
    subscribers c1 = [2; 3; 4; 5; 6] /\
    Close c1 = Returns c2 /\ closed c2 = {[ 1; 2; 4; 6 ]}.
Proof.
  eexists _, _.
  split; [vm_compute; reflexivity|].
  split; [vm_compute; reflexivity|].
  split; vm_compute; reflexivity.
Qed.

(** C4, on the code.  With three subscribers, [Close] closes the first and
    the third update channel and drops the second from [c.subs] without
    closing it: the removals of [handleReq] shift the backing array under
    the [range] of [Close].  The loop then leaves with [c.subs] nil, so the
    second channel is never closed. *)
Theorem Close_skips_second_subscriber :
  subscribers threeSubs = [2; 3; 4] /\
  Close threeSubs = Returns afterClose /\
  loop [RecvReq None; RecvCh None] afterClose = Returns (true, afterLoop) /\
  closed afterLoop = {[ 1; 2; 4 ]} /\
  3 ∉ closed afterLoop.
Proof.
  split; [reflexivity|].
  split; [vm_compute; reflexivity|].
  split; [vm_compute; reflexivity|].
  split; [reflexivity|].
  exact (bool_decide_unpack (3 ∉ ({[ 1; 2; 4 ]} : gset nat)) I).
Qed.

End ClusterViewFacts.

(** ** The Bazel execution server *)

Module ExecutionFacts.
Import Bazel Execution.

Lemma sampleOperation_answered :
  (Execute 1700000000 sampleExecServer (Some sampleExecRequest)).1
  = inl sampleOperation.
Proof. vm_compute. reflexivity. Qed.

Section Facts.
Context {S Any : Type} `{BazelLib} `{Scheduler S} `{ExecLib Any}.

(** Without a scheduler [Execute] answers an error and schedules nothing. *)
Lemma Execute_uninitialized now (s : option (executionServer S)) req :
  IsInitialized s = false ->
  Execute now s req = (inr (internal "Server not initialized"), s).
Proof.
  intros Hinit. unfold Execute. rewrite Hinit. reflexivity.
Qed.

(** C9.  Every operation [Execute] answers has [Done] set and embeds the
    marshalled [ExecuteResponse] whose [ActionResult] has [ExitCode] 0; it
    is answered as soon as [ScheduleJob] has returned the job id the
    operation is named after, and nothing of it depends on what becomes of
    the job. *)
Theorem Execute_success_is_done_exit0
  now (s s' : option (executionServer S)) req (op : Operation Any) :
  Execute now s req = (inl op, s') ->
  Done op = true /\
  (exists a,
     OpResult op = Some (Operation_Response a) /\
     MarshalAny
       (ResponseMsg {| Result := Some {| ExitCode := 0 |};
                       CachedResult := false |}) = inl a) /\
  exists sch job id sch',
    s ≫= scheduler = Some sch /\
    ScheduleJob job sch = ((id, None), sch') /\
    Name op = "operations/" +:+ id /\
    s' = Some {| scheduler := Some sch' |}.
Proof.
  unfold Execute, marshalAny.
  destruct (IsInitialized s); [|discriminate]. cbn [negb].
  destruct (s ≫= scheduler) as [sch|] eqn:Hs; [|discriminate].
  destruct (GetSha256 (GetAction req)) as [[actionSha actionLen] [e|]];
    [discriminate|].
  destruct (execReqToScoot now req actionSha) as [job [e|]]; [discriminate|].
  destruct (ValidateJob job) as [e|]; [discriminate|].
  destruct (ScheduleJob job sch) as [[id [e|]] sch'] eqn:Hsched;
    [discriminate|].
  destruct (MarshalAny (MetadataMsg _)) as [eomAny|e]; [|discriminate].
  destruct (MarshalAny (ResponseMsg hardcodedResponse)) as [resAny|e] eqn:Hres;
    [|discriminate].
  intros [= <- <-]. simpl. split; [reflexivity|]. split.
  - exists resAny. split; [reflexivity | exact Hres].
  - exists sch, job, id, sch'. repeat split. exact Hsched.
Qed.

End Facts.

Lemma Execute_success_is_done_exit0_witness :
  Done sampleOperation = true /\
  (exists a,
     OpResult sampleOperation = Some (Operation_Response a) /\
     MarshalAny
       (ResponseMsg {| Result := Some {| ExitCode := 0 |};
                       CachedResult := false |}) = inl a) /\
  exists sch job id sch',
    sampleExecServer ≫= scheduler = Some sch /\
    ScheduleJob job sch = ((id, None), sch') /\
    Name sampleOperation = "operations/" +:+ id /\
    (Execute 1700000000 sampleExecServer (Some sampleExecRequest)).2
      = Some {| scheduler := Some sch' |}.
Proof.
  apply (Execute_success_is_done_exit0
           1700000000 sampleExecServer _ (Some sampleExecRequest)
           sampleOperation).
  vm_compute. reflexivity.
Defined.

End ExecutionFacts.

(** ** The Bazel content-addressable store server *)

Module CASFacts.
Import Bazel CAS.

Section Facts.
Context {St : Type} `{BazelLib} `{Store St}.

Lemma isMissing_empty (st : St) d :
  GetHash d = EmptySha -> isMissing st d = false.
Proof.
  intros He. unfold isMissing. by rewrite bool_decide_eq_true_2.
Qed.

Lemma isMissing_other (st : St) d :
  GetHash d <> EmptySha -> isMissing st d = reportedAbsent st d.
Proof.
  intros Hne. unfold isMissing. by rewrite bool_decide_eq_false_2.
Qed.

Lemma findMissing_spec (st : St) ds : forall acc res,
  findMissing st ds acc = inl res ->
  res = acc ++ filter (fun d => isMissing st d = true) ds.
Proof.
  induction ds as [|d ds IH]; intros acc res; simpl.
  - intros [= <-]. by rewrite app_nil_r.
  - rewrite filter_cons. case_bool_decide as Hempty.
    + rewrite decide_False; [apply IH|].
      rewrite isMissing_empty by exact Hempty. discriminate.
    + rewrite isMissing_other by exact Hempty. unfold reportedAbsent.
      destruct (Exists (DigestStoreName d) st) as [[|] [e|]];
        try discriminate.
      * rewrite decide_False by discriminate. apply IH.
      * rewrite decide_True by reflexivity. intros Hrun.
        apply IH in Hrun as ->. by rewrite <- app_assoc.
Qed.

(** The loop answers a response unless the store fails on a digest it is
    asked about. *)
Lemma findMissing_total (st : St) ds : forall acc,
  Forall (fun d => GetHash d <> EmptySha ->
                   (Exists (DigestStoreName d) st).2 = None) ds ->
  exists res, findMissing st ds acc = inl res.
Proof.
  induction ds as [|d ds IH]; intros acc Hall; simpl; [by eexists|].
  apply Forall_cons in Hall as [Hd Hall].
  case_bool_decide as Hempty; [by apply IH|].
  specialize (Hd Hempty).
  destruct (Exists (DigestStoreName d) st) as [[|] [e|]]; simpl in Hd;
    try discriminate; by apply IH.
Qed.

(** An initialized server answers a response unless the store fails on a
    digest it is asked about. *)
Lemma FindMissingBlobs_answers (s : option (casServer St)) req cfg :
  s ≫= storeConfig = Some cfg ->
  Forall (fun d => GetHash d <> EmptySha ->
                   (Exists (DigestStoreName d) (TheStore cfg)).2 = None)
         (GetBlobDigests req) ->
  exists res, FindMissingBlobs s req = inl res.
Proof.
  intros Hcfg Hall. unfold FindMissingBlobs.
  assert (IsInitialized s = true) as ->.
  { destruct s as [[[c|]]|]; simpl in *; [reflexivity|discriminate..]. }
  cbn [negb]. rewrite Hcfg.
  destruct (findMissing_total (TheStore cfg) (GetBlobDigests req) [] Hall)
    as [missing ->].
  by eexists.
Qed.

(** C10.  The digests a [FindMissingBlobs] response lists are the requested
    digests, in request order, that are not the empty SHA and that the
    store reports absent: a digest with the empty SHA is never listed, and
    any other digest is listed exactly when it was requested and the store
    reports it absent. *)
Theorem FindMissingBlobs_lists_absent
  (s : option (casServer St)) req res :
  FindMissingBlobs s req = inl res ->
  exists cfg,
    s ≫= storeConfig = Some cfg /\
    MissingBlobDigests res =
      filter (fun d => isMissing (TheStore cfg) d = true)
             (GetBlobDigests req) /\
    (forall d, GetHash d = EmptySha -> d ∉ MissingBlobDigests res) /\
    (forall d, GetHash d <> EmptySha ->
       d ∈ MissingBlobDigests res <->
       d ∈ GetBlobDigests req /\ reportedAbsent (TheStore cfg) d = true).
Proof.
  unfold FindMissingBlobs.
  destruct (IsInitialized s); [|discriminate]. cbn [negb].
  destruct (s ≫= storeConfig) as [cfg|]; [|discriminate].
  destruct (findMissing _ _ _) as [missing|e] eqn:Hrun; [|discriminate].
  intros [= <-]. apply findMissing_spec in Hrun. simpl in Hrun. subst missing.
  exists cfg. split; [reflexivity|]. split; [reflexivity|]. simpl. split.
  - intros d Hempty [Hm _]%list_elem_of_filter.
    rewrite isMissing_empty in Hm by exact Hempty. discriminate.
  - intros d Hne. rewrite list_elem_of_filter.
    rewrite isMissing_other by exact Hne. tauto.
Qed.

End Facts.

Lemma FindMissingBlobs_lists_absent_witness :
  exists cfg,
    sampleCasServer ≫= storeConfig = Some cfg /\
    [Some absentDigest] =
      filter (fun d => isMissing (TheStore cfg) d = true)
             (GetBlobDigests (Some sampleBlobsRequest)) /\
    (forall d, GetHash d = EmptySha -> d ∉ [Some absentDigest]) /\
    (forall d, GetHash d <> EmptySha ->
       d ∈ [Some absentDigest] <->
       d ∈ GetBlobDigests (Some sampleBlobsRequest) /\
       reportedAbsent (TheStore cfg) d = true).
Proof.
  apply (FindMissingBlobs_lists_absent sampleCasServer (Some sampleBlobsRequest)
           {| MissingBlobDigests := [Some absentDigest] |}).
  vm_compute. reflexivity.
Defined.

End CASFacts.

(** ** Calls on the in-memory saga log, one after the other *)

Module SagaLogOpsFacts.
Import SagaLog SagaLogOps.

Lemma begins_with_start_factory : begins_with_start InMemorySagaFactory.
Proof. intros id msgs Hl. simpl in Hl. by rewrite lookup_empty in Hl. Qed.

(** What a call that returns has done to the map of sagas. *)
Lemma perform_sagas c log e log' :
  perform c log = Returns (e, log') ->
  match c with
  | CallStartSaga id job =>
      sagas log' = <[id := [StartSagaMessageFactory id job]]> (sagas log)
  | CallLogMessage msg =>
      match sagas log !! sagaId msg with
      | Some msgs => sagas log' = <[sagaId msg := msgs ++ [msg]]> (sagas log)
      | None => sagas log' = sagas log
      end
  | CallGetMessages _ => sagas log' = sagas log
  end.
Proof.
  destruct c as [id job|msg|id]; simpl;
    unfold StartSaga, LogMessage, GetMessages, Lock, Unlock, RLock, RUnlock;
    destruct (mutex log) as [[|] [|n]]; simpl; try discriminate.
  - by intros [= _ <-].
  - destruct (sagas log !! sagaId msg); simpl; by intros [= _ <-].
  - destruct (sagas log !! id); simpl; by intros [= _ <-].
  - destruct (sagas log !! id); simpl; by intros [= _ <-].
Qed.

Lemma perform_begins_with_start c log e log' :
  begins_with_start log ->
  perform c log = Returns (e, log') ->
  begins_with_start log'.
Proof.
  intros Hinv Hrun. apply perform_sagas in Hrun.
  intros id msgs Hl. destruct c as [id0 job|msg|id0].
  - rewrite Hrun in Hl. destruct (decide (id0 = id)) as [->|Hne].
    + rewrite lookup_insert_eq in Hl. injection Hl as <-.
      exists job, []. split; [reflexivity|constructor].
    + rewrite lookup_insert_ne in Hl by exact Hne. by apply Hinv.
  - destruct (sagas log !! sagaId msg) as [old|] eqn:Hold;
      rewrite Hrun in Hl; [|by apply Hinv].
    destruct (decide (sagaId msg = id)) as [Heq|Hne].
    + rewrite Heq, lookup_insert_eq in Hl. injection Hl as <-.
      rewrite Heq in Hold.
      destruct (Hinv id old Hold) as (job & rest & -> & Hall).
      exists job, (rest ++ [msg]). split; [reflexivity|].
      apply Forall_app. split; [exact Hall|]. by constructor.
    + rewrite lookup_insert_ne in Hl by exact Hne. by apply Hinv.
  - rewrite Hrun in Hl. by apply Hinv.
Qed.

Lemma perform_all_begins_with_start cs : forall log es log',
  begins_with_start log ->
  perform_all cs log = Returns (es, log') ->
  begins_with_start log'.
Proof.
  induction cs as [|c cs IH]; intros log es log' Hinv Hrun; simpl in Hrun.
  - by injection Hrun as _ <-.
  - destruct (perform c log) as [[e log1]| |] eqn:Hstep; try discriminate.
    simpl in Hrun.
    destruct (perform_all cs log1) as [[es1 log2]| |] eqn:Hrest;
      try discriminate.
    injection Hrun as _ <-.
    eapply IH; [|exact Hrest]. eapply perform_begins_with_start; eassumption.
Qed.

(** X1.  Whatever calls a client makes on a log from [InMemorySagaFactory],
    every stored sequence starts with the [StartSaga] record of the saga it
    is stored under and holds only messages that carry that saga's id. *)
Theorem stored_sequences_begin_with_start cs es log :
  perform_all cs InMemorySagaFactory = Returns (es, log) ->
  begins_with_start log.
Proof.
  apply perform_all_begins_with_start, begins_with_start_factory.
Qed.

Lemma stored_sequences_begin_with_start_witness :
  begins_with_start sampleLog.
Proof.
  apply (stored_sequences_begin_with_start sampleCalls
           [None; None; None; None; None; Some (notStartedMsg "z")]).
  vm_compute. reflexivity.
Defined.

(** X2.  A call touches the saga it names and no other: it leaves the
    sequences of all other sagas as they were; only [StartSaga] adds a saga
    to the log, and neither [LogMessage] nor [GetMessages] ever does. *)
Theorem call_touches_its_saga_only c log e log' :
  perform c log = Returns (e, log') ->
  (forall id, id <> target c -> sagas log' !! id = sagas log !! id) /\
  dom (sagas log') =
    match c with
    | CallStartSaga id _ => {[id]} ∪ dom (sagas log)
    | _ => dom (sagas log)
    end.
Proof.
  intros Hrun. apply perform_sagas in Hrun.
  destruct c as [id0 job|msg|id0]; simpl.
  - rewrite Hrun. split; [|apply dom_insert_L].
    intros id Hne. by rewrite lookup_insert_ne.
  - destruct (sagas log !! sagaId msg) as [old|] eqn:Hold; rewrite Hrun;
      [|done].
    split; [intros id Hne; by rewrite lookup_insert_ne|].
    rewrite dom_insert_L. apply set_eq. intros x.
    rewrite elem_of_union, elem_of_singleton. split; [|tauto].
    intros [->|Hx]; [|exact Hx]. apply elem_of_dom. by eexists.
  - by rewrite Hrun.
Qed.

Lemma call_touches_its_saga_only_witness :
  (forall id, id <> "j" -> sagas appendedLog !! id = sagas endedLog !! id) /\
  dom (sagas appendedLog) = dom (sagas endedLog).
Proof.
  exact (call_touches_its_saga_only (CallLogMessage taskMsg) endedLog None
           appendedLog eq_refl).
Defined.

(** X3.  On an unlocked log every call returns.  It returns no error and
    leaves the log unlocked, except for a [LogMessage] to a saga that was
    not started: that one returns the "not Started" error with the write
    lock held and the sagas unchanged.  The log reports no other error. *)
Theorem call_outcome_on_unlocked_log c log :
  mutex log = unlocked ->
  exists e log',
    perform c log = Returns (e, log') /\
    ((e = None /\ mutex log' = unlocked) \/
     (exists msg,
        c = CallLogMessage msg /\
        sagas log !! sagaId msg = None /\
        e = Some (notStartedMsg (sagaId msg)) /\
        mutex log' = {| writer := true; readers := 0 |} /\
        sagas log' = sagas log)).
Proof.
  intros Hm. destruct c as [id job|msg|id]; simpl;
    unfold StartSaga, LogMessage, GetMessages, Lock, Unlock, RLock, RUnlock;
    rewrite Hm; simpl.
  - eexists _, _. split; [reflexivity|]. by left.
  - destruct (sagas log !! sagaId msg) as [msgs|] eqn:Hs; simpl.
    + eexists _, _. split; [reflexivity|]. by left.
    + eexists _, _. split; [reflexivity|]. right. by exists msg.
  - destruct (sagas log !! id); simpl;
      (eexists _, _; split; [reflexivity|]; by left).
Qed.

Lemma call_outcome_on_unlocked_log_witness :
  exists e log',
    perform (CallLogMessage strayMsg) appendedLog = Returns (e, log') /\
    ((e = None /\ mutex log' = unlocked) \/
     (exists msg,
        CallLogMessage strayMsg = CallLogMessage msg /\
        sagas appendedLog !! sagaId msg = None /\
        e = Some (notStartedMsg (sagaId msg)) /\
        mutex log' = {| writer := true; readers := 0 |} /\
        sagas log' = sagas appendedLog)).
Proof.
  exact (call_outcome_on_unlocked_log (CallLogMessage strayMsg) appendedLog
           eq_refl).
Defined.

End SagaLogOpsFacts.

(** ** Runs of the cluster view *)

Module ClusterOpsFacts.
Import ClusterView ClusterViewFacts ClusterOps.

Lemma index_of_elem x (l : list chanId) :
  x ∈ l -> exists i, index_of x l = Some i.
Proof.
  intros Hin. unfold index_of.
  destruct (list_find_elem_of (fun y => y = x) l x Hin eq_refl) as [[i y] ->].
  by exists i.
Qed.

Lemma index_of_absent x (l : list chanId) : x ∉ l -> index_of x l = None.
Proof.
  intros Hn. unfold index_of.
  destruct (list_find _ l) as [[i y]|] eqn:Hf; [|reflexivity].
  apply list_find_Some in Hf as (Hl & -> & _).
  exfalso. apply Hn. by eapply list_elem_of_lookup_2.
Qed.

Lemma filter_absent x (l : list chanId) :
  x ∉ l -> filter (fun y => y <> x) l = l.
Proof.
  induction l as [|a l IH]; intros Hn; [reflexivity|].
  apply not_elem_of_cons in Hn as [Hne Hn].
  rewrite filter_cons, decide_True by congruence. by rewrite IH.
Qed.

Lemma delete_filter x (l : list chanId) : forall i,
  NoDup l -> l !! i = Some x -> delete i l = filter (fun y => y <> x) l.
Proof.
  induction l as [|a l IH]; intros i Hnd Hi; [done|].
  apply NoDup_cons in Hnd as [Ha Hnd]. destruct i as [|i]; simpl in *.
  - injection Hi as ->. rewrite filter_cons, decide_False by tauto.
    by rewrite filter_absent.
  - rewrite filter_cons, decide_True.
    + by rewrite (IH i).
    + intros ->. apply Ha. by eapply list_elem_of_lookup_2.
Qed.

(** A request with a usable reply channel is always served. *)
Lemma handleReq_returns req c :
  Inv c ->
  (forall x, reply_of (RecvReq (Some req)) = Some x ->
             x <> 0 /\ x ∉ closed c) ->
  exists c', handleReq req c = Returns c'.
Proof.
  intros [Hk Hsl [Hopen Hnd] Hfresh Hnext Hreq] Hreply.
  destruct req as [reply|reply|sub|]; simpl.
  - destruct (Hreply reply eq_refl) as [Hnz Hcl]. unfold send.
    rewrite !bool_decide_eq_false_2 by done. by eexists.
  - destruct (Hreply reply eq_refl) as [Hnz Hcl]. unfold make_chan.
    match goal with
    | |- context [goappend ?s ?xs ?c1] =>
        destruct (goappend_spec s xs c1 Hsl) as (h' & n' & Hc2 & _ & _);
        destruct (goappend s xs c1) as [subs' c2]
    end.
    simpl in Hc2. subst c2. unfold send. simpl.
    rewrite !bool_decide_eq_false_2 by done. by eexists.
  - destruct (index_of sub (subscribers c)) as [i|] eqn:Hi; [|by eexists].
    apply index_of_Some in Hi as [Hi _].
    assert (Hlt : i <= len (subs c)).
    { apply lookup_lt_Some in Hi. unfold subscribers in Hi.
      rewrite elems_length in Hi by exact Hsl. lia. }
    destruct (slice_ok_prefix (heap c) (subs c) i Hsl Hlt) as [Hokp _].
    match goal with
    | |- context [goappend ?s ?xs c] =>
        destruct (goappend_spec s xs c Hokp) as (h' & n' & Hc1 & _ & _);
        destruct (goappend s xs c) as [subs' c1]
    end.
    simpl in Hc1. subst c1. unfold close_chan. simpl.
    rewrite Forall_forall in Hopen.
    destruct (Hopen sub (list_elem_of_lookup_2 _ _ _ Hi)) as [Hnz Hcl].
    rewrite !bool_decide_eq_false_2 by done. by eexists.
  - by eexists.
Qed.

(** X4.  A [Subscribe] request makes a channel the view did not have,
    registers it after the subscribers already there, and replies with a
    subscriber that carries the current members and that channel; the
    membership and the closed channels stay as they were. *)
Theorem Subscribe_registers_last reply c :
  Inv c -> reply <> 0 -> reply ∉ closed c ->
  exists c',
    handleReq (SubscribeReq reply) c = Returns c' /\
    subscribers c' = subscribers c ++ [nextChan c] /\
    (nextChan c ∉ subscribers c) /\
    State c' = State c /\ closed c' = closed c /\
    trace c' =
      trace c ++
      [SendSubscriber reply (newSubscriber (current c) (nextChan c))] /\
    Inv c'.
Proof.
  intros HI Hnz Hcl.
  destruct (handleReq_returns (SubscribeReq reply) c HI) as [c' Hrun].
  { by intros x [= <-]. }
  exists c'. split; [exact Hrun|].
  pose proof (handleReq_Inv _ _ _ HI Hrun) as HI'.
  apply handleReq_Subscribe in Hrun
    as (Hsubs & _ & _ & Hclosed & HSt & _ & _ & Htr); [|by destruct HI].
  split_and!; try done.
  intros Hin. pose proof (inv_fresh c HI (nextChan c) (or_introl Hin)). lia.
Qed.

Lemma Subscribe_registers_last_witness :
  exists c',
    handleReq (SubscribeReq 13) threeSubs = Returns c' /\
    subscribers c' = subscribers threeSubs ++ [nextChan threeSubs] /\
    (nextChan threeSubs ∉ subscribers threeSubs) /\
    State c' = State threeSubs /\ closed c' = closed threeSubs /\
    trace c' =
      trace threeSubs ++
      [SendSubscriber 13
         (newSubscriber (current threeSubs) (nextChan threeSubs))] /\
    Inv c'.
Proof.
  apply (Subscribe_registers_last 13 threeSubs).
  - apply threeSubs_Inv.
  - discriminate.
  - apply not_elem_of_empty.
Defined.

(** X5.  Closing a subscription takes the channel out of [c.subs], keeps
    the order of the other subscribers and closes the channel; for a
    channel that is not subscribed (any more) the request changes nothing,
    so closing a subscription twice is harmless. *)
Theorem CloseSub_removes_in_order sub c :
  Inv c ->
  exists c',
    handleReq (CloseSubReq sub) c = Returns c' /\
    subscribers c' = filter (fun x => x <> sub) (subscribers c) /\
    closed c' =
      (if decide (sub ∈ subscribers c) then {[sub]} ∪ closed c
       else closed c) /\
    (sub ∉ subscribers c -> c' = c) /\
    State c' = State c /\
    Inv c'.
Proof.
  intros HI.
  destruct (handleReq_returns (CloseSubReq sub) c HI) as [c' Hrun];
    [by intros x [=]|].
  exists c'. split; [exact Hrun|].
  pose proof (handleReq_Inv _ _ _ HI Hrun) as HI'.
  apply handleReq_CloseSub in Hrun
    as (Hcase & _ & _ & HSt & _ & _); [|by destruct HI].
  destruct (decide (sub ∈ subscribers c)) as [Hin|Hout].
  - destruct (index_of_elem sub _ Hin) as [i Hi]. rewrite Hi in Hcase.
    destruct Hcase as (Hsubs & _ & _ & Hcl & _).
    apply index_of_Some in Hi as [Hi _].
    split_and!; try done.
    rewrite Hsubs. apply delete_filter; [|exact Hi].
    by destruct HI as [_ _ [_ Hnd] _ _ _].
  - rewrite (index_of_absent sub _ Hout) in Hcase. subst c'.
    split_and!; try done. by rewrite filter_absent.
Qed.

Lemma CloseSub_removes_in_order_witness :
  exists c',
    handleReq (CloseSubReq 3) threeSubs = Returns c' /\
    subscribers c' = filter (fun x => x <> 3) (subscribers threeSubs) /\
    closed c' =
      (if decide (3 ∈ subscribers threeSubs) then {[3]} ∪ closed threeSubs
       else closed threeSubs) /\
    (3 ∉ subscribers threeSubs -> c' = threeSubs) /\
    State c' = State threeSubs /\
    Inv c'.
Proof.
  apply (CloseSub_removes_in_order 3 threeSubs). apply threeSubs_Inv.
Defined.




(** X7.  Once [c.ch] and [c.reqCh] are both nil the loop takes no more
    input: it closes every channel then in [c.subs], each once and in
    order, and ends. *)
Theorem loop_closes_subscribers_on_exit rs c :
  Inv c -> done c = true ->
  exists c',
    loop rs c = Returns (true, c') /\
    trace c' = trace c ++ (CloseChan <$> subscribers c) /\
    closed c' = list_to_set (subscribers c) ∪ closed c.
Proof.
  intros [_ _ [Hopen Hnd] _ _ _] Hdone.
  destruct (close_all_open (subscribers c) c Hnd Hopen) as [c' Hc].
  exists c'. split.
  - destruct rs; cbn [loop]; rewrite Hdone, Hc; reflexivity.
  - by apply close_all_Returns in Hc as (Htr & Hcl & _).
Qed.

Lemma drainedView_Inv : Inv drainedView.
Proof.
  apply (loop_body_Inv (RecvCh None) (set_reqCh None
           (set_ch (Some 100) drainedView))); [|reflexivity].
  apply (loop_body_Inv (RecvReq None) (set_reqCh (Some 1)
           (set_ch (Some 100) drainedView))); [|reflexivity].
  apply (loop_Inv [RecvReq (Some (SubscribeReq 10));
                   RecvReq (Some (SubscribeReq 11))]
           (NewCluster [] (Some 100))); [apply NewCluster_Inv|].
  vm_compute. reflexivity.
Qed.

Lemma loop_closes_subscribers_on_exit_witness :
  exists c',
    loop [RecvCh (Some OtherValue)] drainedView = Returns (true, c') /\
    trace c' = trace drainedView ++ (CloseChan <$> subscribers drainedView) /\
    closed c' = list_to_set (subscribers drainedView) ∪ closed drainedView.
Proof.
  apply (loop_closes_subscribers_on_exit [RecvCh (Some OtherValue)]
           drainedView).
  - apply drainedView_Inv.
  - reflexivity.
Defined.

(** X8.  Over any run of the loop of a new view, with subscriptions,
    unsubscriptions and ingests interleaved, the updates sent on any one
    channel are a subsequence of the deltas the view computed, in ingest
    order: no subscriber sees a delta twice or two deltas out of order. *)
Theorem deliveries_in_ingest_order state input rs b c' sub :
  loop rs (NewCluster state input) = Returns (b, c') ->
  deliveries sub (trace c')
    `sublist_of` run_deltas rs (bool_decide (is_Some input)) (MakeState state).
Proof.
  intros Hrun.
  destruct (deliveries_follow_ingest_order rs sub _ _ _
              (NewCluster_Inv state input) Hrun) as (l & Hdel & Hsub).
  simpl in Hdel. rewrite Hdel.
  unfold ch_open in Hsub. simpl in Hsub. by destruct input.
Qed.

Lemma deliveries_in_ingest_order_witness :
  deliveries 3 (trace afterSampleRun)
    `sublist_of` run_deltas sampleRun (bool_decide (is_Some (Some 100)))
                            (MakeState []).
Proof.
  apply (deliveries_in_ingest_order [] (Some 100) sampleRun false
           afterSampleRun 3).
  vm_compute. reflexivity.
Defined.

(** What the second subscriber of [sampleRun] was sent before it left, and
    the deltas of the run. *)
Lemma sampleRun_deliveries :
  deliveries 3 (trace afterSampleRun) =
    [[Added (node "a"); Added (node "b")];
     [Removed "a"; Added (node "c")]] /\
  run_deltas sampleRun true ∅ =
    [[Added (node "a"); Added (node "b")];
     [Removed "a"; Added (node "c")];
     [Removed "b"; Removed "c"; Added (node "d")]].
Proof. split; vm_compute; reflexivity. Qed.

(** X9.  [Close] can return once only: a second [Close] right after the
    first panics on closing the closed request channel, and once the loop
    has seen that channel closed and set [c.reqCh] to nil, [Close] panics
    on closing the nil channel (or does not get that far). *)
Theorem Close_twice_panics c c' :
  Close c = Returns c' ->
  Close c' = Panics /\
  forall c'', reqCh c'' = None -> returned (Close c'') = false.
Proof.
  intros Hrun. split.
  - unfold Close in Hrun.
    destruct (Close_range _ _ _ c) as [c1| |]; try discriminate.
    cbn [mbind outcome_bind] in Hrun. simpl in Hrun.
    destruct (reqCh c1) as [r|] eqn:Hr; [|discriminate].
    apply close_chan_Returns in Hrun
      as (Hnz & _ & Hcl & _ & _ & Hrq & _ & Hsubs & _).
    simpl in Hrq, Hsubs. unfold Close. rewrite Hsubs. simpl.
    rewrite Hrq, Hr. unfold close_chan.
    rewrite bool_decide_eq_false_2 by exact Hnz.
    rewrite bool_decide_eq_true_2; [reflexivity|].
    change (r ∈ closed c'). rewrite Hcl.
    by apply elem_of_union_l, elem_of_singleton.
  - intros c'' Hnil. unfold Close.
    assert (Hkeep : forall n s i c0 c1,
              Close_range s i n c0 = Returns c1 -> reqCh c1 = reqCh c0).
    { induction n as [|n IH]; intros s i c0 c1 Hr; cbn [Close_range] in Hr.
      - by injection Hr as <-.
      - destruct (handleReq _ c0) as [c2| |] eqn:Hstep; try discriminate.
        cbn [mbind outcome_bind] in Hr. rewrite (IH _ _ _ _ Hr).
        unfold handleReq in Hstep.
        destruct (index_of _ (subscribers c0)); [|by injection Hstep as <-].
        destruct (goappend _ _ c0) as [subs' c3] eqn:Hg.
        apply close_chan_Returns in Hstep
          as (_ & _ & _ & _ & _ & Hrq & _).
        rewrite Hrq. simpl. unfold goappend in Hg.
        destruct (_ <=? _); by injection Hg as _ <-. }
    destruct (Close_range _ _ _ c'') as [c1| |] eqn:Hr; try reflexivity.
    cbn [mbind outcome_bind]. simpl.
    by rewrite (Hkeep _ _ _ _ _ Hr), Hnil.
Qed.

Lemma Close_twice_panics_witness :
  Close afterClose = Panics /\
  forall c'', reqCh c'' = None -> returned (Close c'') = false.
Proof.
  apply (Close_twice_panics threeSubs afterClose).
  vm_compute. reflexivity.
Defined.

Lemma goappend_null_free s xs c :
  null_free c -> null_free (goappend s xs c).2.
Proof.
  unfold null_free, goappend. intros Hn.
  destruct (_ <=? _); simpl.
  - destruct (decide (ptr s = 0)) as [Hz|Hz].
    + rewrite Hz, lookup_alter_eq, Hn. reflexivity.
    + rewrite lookup_alter_ne by done. exact Hn.
  - rewrite lookup_insert_ne by lia. exact Hn.
Qed.

Lemma handleReq_null_free req c c' :
  null_free c -> handleReq req c = Returns c' -> null_free c'.
Proof.
  intros Hn Hrun. destruct req as [reply|reply|sub|];
    unfold handleReq, make_chan in Hrun.
  - apply send_Returns in Hrun as (_ & _ & ->). exact Hn.
  - match type of Hrun with
    | context [goappend ?s ?xs ?c0] =>
        pose proof (goappend_null_free s xs c0 Hn) as Hg;
        destruct (goappend s xs c0) as [subs' c2]
    end.
    apply send_Returns in Hrun as (_ & _ & ->). exact Hg.
  - destruct (index_of sub (subscribers c)); [|by injection Hrun as <-].
    match type of Hrun with
    | context [goappend ?s ?xs ?c0] =>
        pose proof (goappend_null_free s xs c0 Hn) as Hg;
        destruct (goappend s xs c0) as [subs' c2]
    end.
    apply close_chan_Returns in Hrun as (_ & _ & _ & _ & _ & _ & _ & _ & Hh & _).
    unfold null_free. rewrite Hh. exact Hg.
  - by injection Hrun as <-.
Qed.

Lemma loop_body_null_free r c c' :
  Inv c -> null_free c -> loop_body r c = Returns c' -> null_free c'.
Proof.
  intros HI Hn Hrun. destruct r as [v|v]; simpl in Hrun.
  - destruct (ch c); [|by injection Hrun as <-].
    destruct v as [x|]; [|by injection Hrun as <-].
    destruct (computeOutgoing x (State c)) as [d st'].
    rewrite broadcast_fanout in Hrun
      by (by destruct HI as [_ _ [Hopen _] _ _ _]).
    injection Hrun as <-. exact Hn.
  - destruct (reqCh c); [|by injection Hrun as <-].
    destruct v as [req|]; [|by injection Hrun as <-].
    eapply handleReq_null_free; eassumption.
Qed.

Lemma loop_null_free rs : forall c c',
  Inv c -> null_free c -> loop rs c = Returns (false, c') -> null_free c'.
Proof.
  induction rs as [|r rs IH]; intros c c' HI Hn Hrun; cbn [loop] in Hrun.
  - destruct (done c); [|by injection Hrun as <-].
    by destruct (close_all _ c).
  - destruct (done c); [by destruct (close_all _ c)|].
    destruct (loop_body r c) as [c1| |] eqn:Hstep; try discriminate.
    eapply IH; [| |exact Hrun].
    + eapply loop_body_Inv; eassumption.
    + eapply loop_body_null_free; eassumption.
Qed.

Lemma Close_range_Inv n : forall s i c c',
  Inv c -> null_free c -> Close_range s i n c = Returns c' ->
  Inv c' /\ null_free c' /\ nextChan c' = nextChan c.
Proof.
  induction n as [|n IH]; intros s i c c' HI Hn Hrun; cbn [Close_range] in Hrun.
  - by injection Hrun as <-.
  - destruct (handleReq _ c) as [c1| |] eqn:Hstep; try discriminate.
    cbn [mbind outcome_bind] in Hrun.
    destruct (IH _ _ _ _ (handleReq_Inv _ _ _ HI Hstep)
                (handleReq_null_free _ _ _ Hn Hstep) Hrun)
      as (HI' & Hn' & Hnc).
    split_and!; [exact HI'|exact Hn'|]. rewrite Hnc.
    apply handleReq_CloseSub in Hstep as (_ & _ & Hc & _); [exact Hc|].
    by destruct HI.
Qed.

(** [Close] leaves a view [loop] can go on with. *)
Lemma Close_Inv c c' :
  Inv c -> null_free c -> Close c = Returns c' ->
  Inv c' /\ nextChan c' = nextChan c.
Proof.
  intros HI Hn. unfold Close.
  destruct (Close_range _ _ _ c) as [c1| |] eqn:Hrange; try discriminate.
  cbn [mbind outcome_bind].
  destruct (Close_range_Inv _ _ _ _ _ HI Hn Hrange) as (HI1 & Hn1 & Hnc).
  simpl. destruct (reqCh c1) as [r|] eqn:Hr; [|discriminate].
  unfold close_chan. repeat case_bool_decide; intros [= <-].
  destruct HI1 as [Hk _ _ Hfresh Hnext Hreq].
  assert (Hnil : subscribers (set_subs nil_slice c1) = []) by reflexivity.
  split; [|exact Hnc]. split; simpl.
  - exact Hk.
  - unfold slice_ok, array_of. simpl. unfold null_free in Hn1.
    rewrite Hn1. simpl. lia.
  - split; [constructor | apply NoDup_nil_2].
  - intros s [Hs|[->%elem_of_singleton|Hs]%elem_of_union].
    + by apply elem_of_nil in Hs.
    + by destruct (Hreq r Hr).
    + apply Hfresh. by right.
  - exact Hnext.
  - intros r' Hr'. rewrite Hr in Hr'. injection Hr' as <-.
    split; [apply not_elem_of_nil | by destruct (Hreq r Hr)].
Qed.

Lemma loop_body_abandoned e r c c' :
  Inv c -> abandoned e c -> loop_body r c = Returns c' -> abandoned e c'.
Proof.
  intros HI Hab Hrun. destruct r as [v|v]; simpl in Hrun.
  - destruct (ch c); [|by injection Hrun as <-].
    destruct v as [x|]; [|by injection Hrun as <-].
    destruct (computeOutgoing x (State c)) as [d st'].
    rewrite broadcast_fanout in Hrun
      by (by destruct HI as [_ _ [Hopen _] _ _ _]).
    injection Hrun as <-. exact Hab.
  - destruct (reqCh c); [|by injection Hrun as <-].
    destruct v as [req|]; [|by injection Hrun as <-].
    destruct Hab as (Hcl & Hsub & Hlt).
    destruct req as [reply|reply|sub|].
    + apply send_Returns in Hrun as (_ & _ & ->). by split_and!.
    + apply handleReq_Subscribe in Hrun
        as (Hsubs & _ & Hnc & Hclosed & _); [|by destruct HI].
      unfold abandoned. rewrite Hsubs, Hnc, Hclosed. split_and!.
      * exact Hcl.
      * apply not_elem_of_app. split; [exact Hsub|].
        rewrite list_elem_of_singleton. lia.
      * lia.
    + apply handleReq_CloseSub in Hrun
        as (Hcase & _ & Hnc & _); [|by destruct HI].
      destruct (index_of sub (subscribers c)) as [i|] eqn:Hi;
        [|subst c'; by split_and!].
      destruct Hcase as (Hsubs & _ & _ & Hclosed & _).
      apply index_of_Some in Hi as [Hi _].
      unfold abandoned. rewrite Hsubs, Hnc, Hclosed. split_and!.
      * intros [->%elem_of_singleton|Hin]%elem_of_union; [|done].
        apply Hsub. eapply list_elem_of_lookup_2, Hi.
      * intros Hin. apply Hsub.
        eapply list_elem_of_delete_inv, Hin.
      * exact Hlt.
    + injection Hrun as <-. by split_and!.
Qed.

Lemma loop_abandoned e rs : forall c b c',
  Inv c -> abandoned e c -> loop rs c = Returns (b, c') -> e ∉ closed c'.
Proof.
  assert (Hexit : forall c b c',
            abandoned e c ->
            (c1 ← close_all (subscribers c) c; Returns (true, c1))
              = Returns (b, c') -> e ∉ closed c').
  { intros c b c' (Hcl & Hsub & _) Hrun.
    destruct (close_all _ c) as [c1| |] eqn:Hc; try discriminate.
    injection Hrun as _ <-.
    apply close_all_Returns in Hc as (_ & -> & _).
    intros [Hin%elem_of_list_to_set|Hin]%elem_of_union; done. }
  induction rs as [|r rs IH]; intros c b c' HI Hab Hrun; cbn [loop] in Hrun.
  - destruct (done c); [by eapply Hexit|].
    injection Hrun as _ <-. by destruct Hab.
  - destruct (done c); [by eapply Hexit|].
    destruct (loop_body r c) as [c1| |] eqn:Hstep; try discriminate.
    eapply IH; [| |exact Hrun].
    + eapply loop_body_Inv; eassumption.
    + eapply loop_body_abandoned; eassumption.
Qed.

(** X10.  In a view that has three or more subscribers, a [Close] that
    returns has dropped the second subscriber from [c.subs] without closing
    its channel, and nothing the loop does afterwards, on whatever input,
    closes it: a reader of that channel is never told that the view is
    gone. *)
Theorem Close_abandons_second_subscriber state input rs c c' e :
  loop rs (NewCluster state input) = Returns (false, c) ->
  3 <= length (subscribers c) ->
  subscribers c !! 1 = Some e ->
  Close c = Returns c' ->
  subscribers c' = [] /\
  forall rs' b c'', loop rs' c' = Returns (b, c'') -> e ∉ closed c''.
Proof.
  intros Hreach Hlen He Hclose.
  pose proof (loop_Inv _ _ _ (NewCluster_Inv state input) Hreach) as HI.
  assert (Hn : null_free c).
  { eapply loop_null_free; [apply (NewCluster_Inv state input)| |exact Hreach].
    reflexivity. }
  destruct (Close_leaves_second_open c c' e HI Hlen He Hclose) as [Hopen Hnil].
  destruct (Close_Inv c c' HI Hn Hclose) as [HI' Hnc].
  split; [exact Hnil|]. intros rs' b c'' Hrun.
  apply (loop_abandoned e rs' c' b c'' HI'); [|exact Hrun].
  split_and!; [exact Hopen| |].
  - rewrite Hnil. apply not_elem_of_nil.
  - rewrite Hnc. apply (inv_fresh c HI). left.
    eapply list_elem_of_lookup_2, He.
Qed.

Lemma Close_abandons_second_subscriber_witness :
  subscribers afterClose = [] /\
  forall rs' b c'', loop rs' afterClose = Returns (b, c'') -> 3 ∉ closed c''.
Proof.
  apply (Close_abandons_second_subscriber [] (Some 100) subscribe3
           threeSubs afterClose 3).
  - apply threeSubs_reached.
  - vm_compute. lia.
  - reflexivity.
  - vm_compute. reflexivity.
Defined.

#[global] Instance NodeSorter_total : Total NodeSorter.
Proof. intros a b. unfold NodeSorter. apply (total String.le). Qed.

(** X11.  A [Members] request is answered with every node of the
    membership map exactly once, sorted with [NodeSorter]; it changes
    nothing in the view but the trace of sends. *)
Theorem Members_lists_every_node reply c :
  reply <> 0 -> reply ∉ closed c ->
  handleReq (MembersReq reply) c
    = Returns (emit (SendMembers reply (current c)) c) /\
  Sorted NodeSorter (current c) /\
  current c ≡ₚ (map_to_list (State c)).*2 /\
  forall n, n ∈ current c <-> exists id, State c !! id = Some n.
Proof.
  intros Hnz Hcl. split_and!.
  - simpl. unfold send. by rewrite !bool_decide_eq_false_2.
  - apply (Sorted_merge_sort NodeSorter).
  - apply (merge_sort_Permutation NodeSorter).
  - intros n. unfold current. rewrite (merge_sort_Permutation NodeSorter).
    rewrite list_elem_of_fmap. split.
    + intros ([id n'] & -> & Hin). exists id.
      by apply elem_of_map_to_list in Hin.
    + intros [id Hid]. exists (id, n). split; [reflexivity|].
      by apply elem_of_map_to_list.
Qed.

Lemma Members_lists_every_node_witness :
  handleReq (MembersReq 13) afterSampleRun
    = Returns (emit (SendMembers 13 (current afterSampleRun)) afterSampleRun) /\
  Sorted NodeSorter (current afterSampleRun) /\
  current afterSampleRun ≡ₚ (map_to_list (State afterSampleRun)).*2 /\
  forall n, n ∈ current afterSampleRun <->
            exists id, State afterSampleRun !! id = Some n.
Proof.
  apply (Members_lists_every_node 13 afterSampleRun).
  - discriminate.
  - apply (bool_decide_unpack _). vm_compute. exact I.
Defined.

End ClusterOpsFacts.


(** ** The worker server: the other RPCs and the stats loop *)

Module WorkerOpsFacts.
Import Worker WorkerOps.

Lemma count_split {A} (P : A -> bool) (l : list A) :
  length (filter (fun x => P x = false) l)
  + length (filter (fun x => P x = true) l) = length l.
Proof.
  induction l as [|x l IH]; [reflexivity|].
  rewrite !filter_cons.
  destruct (P x); repeat case_decide; try done; simpl; lia.
Qed.

Lemma failed_are_done (l : list RunStatus) :
  length (filter (fun p => State p = FAILED) l)
  <= length (filter (fun p => IsDone (State p) = true) l).
Proof.
  induction l as [|x l IH]; [reflexivity|].
  rewrite !filter_cons. destruct (decide (State x = FAILED)) as [Hf|Hf].
  - rewrite decide_True by (by rewrite Hf). simpl. lia.
  - destruct (decide (IsDone (State x) = true)); simpl; lia.
Qed.

Section Facts.
Context {R TCmd TStatus : Type} `{Service R} `{Thrift TCmd TStatus}.

(** X12.  An iteration of [stats] on which [StatusAll] fails updates no
    gauge and leaves the handler's mutex held: from then on [Run], [Abort],
    [Erase], [QueryWorker] and the next iteration of [stats] all block. *)
Theorem stats_error_keeps_mutex startTime now1 now2 (h : handler R) ps e r1 :
  mu h = false ->
  Service_StatusAll (run h) = ((ps, Some e), r1) ->
  exists h',
    stats_tick startTime now1 now2 h = Returns (None, h') /\
    mu h' = true /\
    (forall (cmd : TCmd) now, Run cmd now h' = Blocks) /\
    (forall runId now,
       Abort (TStatus:=TStatus) runId now h' = Blocks) /\
    (forall runId now, Erase runId now h' = Blocks) /\
    (forall now, QueryWorker (TStatus:=TStatus) now h' = Blocks) /\
    (forall s n1 n2, stats_tick s n1 n2 h' = Blocks).
Proof.
  intros Hmu Hall. unfold stats_tick. rewrite Hmu, Hall.
  eexists. split; [reflexivity|]. split_and!; reflexivity.
Qed.

(** X13.  An iteration of [stats] on which [StatusAll] succeeds releases
    the mutex, and its gauges fit together: active and ended runs add up to
    the runs the runner lists, the failed runs are among the ended ones,
    and the time since the last contact is reported as 0 when no run is
    active and is not negative when the last RPC came before the tick. *)
Theorem stats_gauges_consistent startTime now1 now2 (h : handler R) ps r1 :
  mu h = false ->
  Service_StatusAll (run h) = ((ps, None), r1) ->
  exists g h',
    stats_tick startTime now1 now2 h = Returns (Some g, h') /\
    mu h' = false /\ run h' = r1 /\
    (activeRunsGauge g + endedCachedRunsGauge g = Z.of_nat (length ps))%Z /\
    (0 <= activeRunsGauge g)%Z /\
    (0 <= failedCachedRunsGauge g <= endedCachedRunsGauge g)%Z /\
    (activeRunsGauge g = 0%Z -> timeSinceLastContactGauge_ms g = 0%Z) /\
    ((timeLastRpc h <= now1)%Z ->
     (0 <= timeSinceLastContactGauge_ms g <= 9223372036854)%Z).
Proof.
  intros Hmu Hall. unfold stats_tick. rewrite Hmu, Hall.
  eexists _, _. split; [reflexivity|]. simpl.
  pose proof (count_split (fun p => IsDone (State p)) ps) as Hsplit.
  pose proof (failed_are_done ps) as Hfailed. cbv beta in Hsplit.
  split; [reflexivity|]. split; [reflexivity|].
  split; [lia|]. split; [apply Nat2Z.is_nonneg|]. split; [lia|].
  split; [intros ->; reflexivity|].
  intros Hle. destruct (0 <? _)%Z; [|lia].
  unfold Sub, minDuration, maxDuration, Millisecond. split.
  - apply Z.quot_pos; lia.
  - apply Z.lt_succ_r, Z.quot_lt_upper_bound; lia.
Qed.


Lemma serve_keeps (c : rpc TCmd) now (h : handler R) e h' :
  serve (TStatus:=TStatus) c now h = Returns (e, h') ->
  e = None /\ timeLastRpc h' = now /\ mu h' = false /\
  match c with
  | RpcRun cmd =>
      currentCmd h' = currentCmd h \/
      currentCmd h' = Some (ThriftRunCommandToDomain cmd)
  | _ => currentCmd h' = currentCmd h /\ currentRunID h' = currentRunID h
  end.
Proof.
  destruct c as [cmd|runId|runId|]; simpl.
  - unfold Run, updateTimeLastRpc. destruct (mu h); [discriminate|].
    cbn [mbind outcome_bind].
    cbn [run currentCmd currentRunID timeLastRpc mu].
    destruct (Service_Run _ _) as [[st0 err0] r1].
    destruct (isDupRetry _ err0 (currentCmd h)) as [dup| |];
      try discriminate.
    cbn [mbind outcome_bind].
    destruct (if dup then _ else _) as [[st1 [e1|]] r2];
      intros [= <- <-]; split_and!; auto.
  - unfold Abort, updateTimeLastRpc. destruct (mu h); [discriminate|].
    simpl. destruct (Service_Abort _ _) as [[st err] r1].
    by intros [= <- <-].
  - unfold Erase, updateTimeLastRpc. destruct (mu h); [discriminate|].
    simpl. by intros [= <- <-].
  - unfold QueryWorker, updateTimeLastRpc. destruct (mu h); [discriminate|].
    simpl. destruct (Service_StatusAll _) as [[st err] r1].
    by intros [= <- <-].
Qed.

(** X15.  No RPC of the worker ever reports an error to its caller: over
    any sequence of calls that return, every error returned is nil, the
    time of the last RPC is that of the last call, and the mutex is free at
    the end. *)
Theorem rpcs_report_no_error (cs : list (rpc TCmd * Z)) : forall (h : handler R) es h',
  serve_all (TStatus:=TStatus) cs h = Returns (es, h') ->
  Forall (fun e => e = None) es /\
  length es = length cs /\
  timeLastRpc h' = default (timeLastRpc h) (snd <$> last cs) /\
  (cs <> [] -> mu h' = false).
Proof.
  induction cs as [|[c now] cs IH]; intros h es h' Hrun; simpl in Hrun.
  - injection Hrun as <- <-. by split_and!.
  - destruct (serve c now h) as [[e h1]| |] eqn:Hstep; try discriminate.
    cbn [mbind outcome_bind] in Hrun. simpl in Hrun.
    destruct (serve_all cs h1) as [[es1 h2]| |] eqn:Hrest; try discriminate.
    injection Hrun as <- <-.
    apply serve_keeps in Hstep as (-> & Ht & Hm & _).
    destruct (IH _ _ _ Hrest) as (Hall & Hlen & Hlast & Hmu).
    split_and!.
    + by constructor.
    + simpl. by rewrite Hlen.
    + simpl in Hlast. rewrite Hlast, Ht.
      destruct cs as [|c' cs']; [reflexivity|]. rewrite last_cons_cons.
      by destruct (proj2 (last_is_Some (c' :: cs')) ltac:(done)) as [y ->].
    + intros _. destruct cs as [|c' cs'].
      * simpl in Hrest. by injection Hrest as _ <-.
      * by apply Hmu.
Qed.


End Facts.

Lemma stats_error_keeps_mutex_witness :
  exists h',
    stats_tick 0 10 11 (NewHandler Down) = Returns (None, h') /\
    mu h' = true /\
    (forall (cmd : Command) now, Run cmd now h' = Blocks) /\
    (forall runId now,
       Abort (TStatus:=RunStatus) runId now h' = Blocks) /\
    (forall runId now, Erase runId now h' = Blocks) /\
    (forall now, QueryWorker (TStatus:=RunStatus) now h' = Blocks) /\
    (forall s n1 n2, stats_tick s n1 n2 h' = Blocks).
Proof.
  exact (stats_error_keeps_mutex (TCmd:=Command) (TStatus:=RunStatus)
           0 10 11 (NewHandler Down) [] downMsg Down eq_refl eq_refl).
Defined.

Lemma stats_gauges_consistent_witness :
  exists g h',
    stats_tick 1000000 12000000 13000000 mixedHandler = Returns (Some g, h') /\
    mu h' = false /\ run h' = run mixedHandler /\
    (activeRunsGauge g + endedCachedRunsGauge g = 2)%Z /\
    (0 <= activeRunsGauge g)%Z /\
    (0 <= failedCachedRunsGauge g <= endedCachedRunsGauge g)%Z /\
    (activeRunsGauge g = 0%Z -> timeSinceLastContactGauge_ms g = 0%Z) /\
    ((timeLastRpc mixedHandler <= 12000000)%Z ->
     (0 <= timeSinceLastContactGauge_ms g <= 9223372036854)%Z).
Proof.
  exact (stats_gauges_consistent 1000000 12000000 13000000 mixedHandler
           [failedStatus; pendingStatus] (run mixedHandler)
           eq_refl eq_refl).
Defined.

(** The gauges of that iteration. *)
Lemma mixedHandler_gauges :
  stats_tick 1000000 12000000 13000000 mixedHandler
  = Returns (Some {| activeRunsGauge := 1; failedCachedRunsGauge := 1;
                     endedCachedRunsGauge := 1;
                     timeSinceLastContactGauge_ms := 7;
                     uptimeGauge_ms := 12 |},
             mixedHandler).
Proof. vm_compute. reflexivity. Qed.


Lemma rpcs_report_no_error_witness :
  Forall (fun e => e = None) afterSampleRpcs.1 /\
  length afterSampleRpcs.1 = length sampleRpcs /\
  timeLastRpc afterSampleRpcs.2
    = default (timeLastRpc busyHandler) (snd <$> last sampleRpcs) /\
  (sampleRpcs <> [] -> mu afterSampleRpcs.2 = false).
Proof.
  apply (rpcs_report_no_error (TStatus:=RunStatus) sampleRpcs busyHandler
           afterSampleRpcs.1 afterSampleRpcs.2).
  vm_compute. reflexivity.
Defined.


End WorkerOpsFacts.


(** ** The Bazel execution server: more of [Execute], and [GetOperation] *)

Module ExecutionOpsFacts.
Import Bazel Execution ExecutionOps.

Section Facts.
Context {S Any : Type} `{BazelLib} `{Scheduler S} `{ExecLib Any}.

Lemma execReqToScoot_ok now req sha job :
  execReqToScoot now req sha = (job, None) ->
  validateExecRequest req = None /\
  exists d,
    ParseDuration
      (pretty (GetMsFromDuration (GetTimeout (GetAction req))) +:+ "ms")
      = (d, None) /\
    job = placeholderJob now req sha d.
Proof.
  unfold execReqToScoot.
  destruct (validateExecRequest req) as [e|]; [discriminate|].
  destruct (ParseDuration _) as [d [e|]] eqn:Hd; [discriminate|].
  intros [= <-]. split; [reflexivity|]. exists d. split; reflexivity.
Qed.

Lemma validateExecRequest_ok req :
  validateExecRequest req = None ->
  exists r,
    req = Some r /\
    IsValidDigest (GetHash (GetCommandDigest (ReqAction r)))
                  (GetSizeBytes (GetCommandDigest (ReqAction r))) = true /\
    IsValidDigest (GetHash (GetInputRootDigest (ReqAction r)))
                  (GetSizeBytes (GetInputRootDigest (ReqAction r))) = true.
Proof.
  destruct req as [r|]; [|discriminate]. unfold validateExecRequest. simpl.
  destruct (IsValidDigest (GetHash (GetCommandDigest _)) _) eqn:Hc;
    cbn [negb]; [|discriminate].
  destruct (IsValidDigest (GetHash (GetInputRootDigest _)) _) eqn:Hi;
    cbn [negb]; [|discriminate].
  intros _. by exists r.
Qed.

(** X17.  Every operation [Execute] answers stands for one scheduled job
    of one fixed shape: the request is there and both of its digests are
    well formed; the job has priority [P0] and a single task that carries
    the request, with the command line [BZ_PLACEHOLDER], no environment,
    the parsed action timeout and the snapshot id of the input root; and
    the metadata holds the digest computed for the action. *)
Theorem Execute_schedules_placeholder_job
  now (s s' : option (executionServer S)) req (op : Operation Any) :
  Execute now s req = (inl op, s') ->
  exists r sch sha len d id sch' m,
    req = Some r /\
    IsValidDigest (GetHash (GetCommandDigest (ReqAction r)))
                  (GetSizeBytes (GetCommandDigest (ReqAction r))) = true /\
    IsValidDigest (GetHash (GetInputRootDigest (ReqAction r)))
                  (GetSizeBytes (GetInputRootDigest (ReqAction r))) = true /\
    s ≫= scheduler = Some sch /\
    GetSha256 (ReqAction r) = ((sha, len), None) /\
    ParseDuration
      (pretty (GetMsFromDuration (GetTimeout (ReqAction r))) +:+ "ms")
      = (d, None) /\
    ScheduleJob (placeholderJob now req sha d) sch = ((id, None), sch') /\
    Name op = "operations/" +:+ id /\
    Metadata op = Some m /\
    MarshalAny
      (MetadataMsg {| OpStage := COMPLETED;
                      ActionDigest :=
                        Some {| Hash := sha; SizeBytes := len |} |}) = inl m.
Proof.
  unfold Execute, marshalAny.
  destruct (IsInitialized s); [|discriminate]. cbn [negb].
  destruct (s ≫= scheduler) as [sch|] eqn:Hs; [|discriminate].
  destruct (GetSha256 (GetAction req)) as [[sha len] [e|]] eqn:Hsha;
    [discriminate|].
  destruct (execReqToScoot now req sha) as [job [e|]] eqn:Hjob;
    [discriminate|].
  destruct (ValidateJob job) as [e|]; [discriminate|].
  destruct (ScheduleJob job sch) as [[id [e|]] sch'] eqn:Hsched;
    [discriminate|].
  destruct (MarshalAny (MetadataMsg _)) as [m|e] eqn:Hm; [|discriminate].
  destruct (MarshalAny (ResponseMsg hardcodedResponse)) as [a|e];
    [|discriminate].
  intros [= <- <-].
  apply execReqToScoot_ok in Hjob as (Hvalid & d & Hd & ->).
  apply validateExecRequest_ok in Hvalid as (r & -> & Hc & Hi).
  exists r, sch, sha, len, d, id, sch', m. by split_and!.
Qed.


(** X19.  Every error of [Execute] is an [Internal] status, whatever went
    wrong.  The call leaves the server as it was, unless it has handed a
    job that passed [ValidateJob] to the scheduler; it calls the scheduler
    once at most. *)
Theorem Execute_errors_are_Internal
  now (s s' : option (executionServer S)) req st :
  Execute (Any:=Any) now s req = (inr st, s') ->
  code st = Internal /\
  (s' = s \/
   exists sch sha job ans sch',
     s ≫= scheduler = Some sch /\
     execReqToScoot now req sha = (job, None) /\
     ValidateJob job = None /\
     ScheduleJob job sch = (ans, sch') /\
     s' = Some {| scheduler := Some sch' |}).
Proof.
  unfold Execute, marshalAny.
  destruct (IsInitialized s); cbn [negb]; [|by intros [= <- <-]; split; [|left]].
  destruct (s ≫= scheduler) as [sch|] eqn:Hs;
    [|by intros [= <- <-]; split; [|left]].
  destruct (GetSha256 (GetAction req)) as [[sha len] [e|]];
    [by intros [= <- <-]; split; [|left]|].
  destruct (execReqToScoot now req sha) as [job [e|]] eqn:Hjob;
    [by intros [= <- <-]; split; [|left]|].
  destruct (ValidateJob job) as [e|] eqn:Hval;
    [by intros [= <- <-]; split; [|left]|].
  destruct (ScheduleJob job sch) as [[id err] sch'] eqn:Hsched.
  assert (Hright : forall s0, s0 = Some {| scheduler := Some sch' |} ->
            s0 = s \/
            exists sch1 sha1 job1 ans sch1',
              Some sch = Some sch1 /\
              execReqToScoot now req sha1 = (job1, None) /\
              ValidateJob job1 = None /\
              ScheduleJob job1 sch1 = (ans, sch1') /\
              s0 = Some {| scheduler := Some sch1' |}).
  { intros s0 ->. right. exists sch, sha, job, (id, err), sch'.
    by split_and!. }
  destruct err as [e|]; [by intros [= <- <-]; split; [|apply Hright]|].
  destruct (MarshalAny (MetadataMsg _)) as [m|e];
    [|by intros [= <- <-]; split; [|apply Hright]].
  destruct (MarshalAny (ResponseMsg hardcodedResponse)) as [a|e];
    [discriminate|by intros [= <- <-]; split; [|apply Hright]].
Qed.

(** X20.  On an initialized server [GetOperation] panics on a nil request
    and returns on any other; what it returns is the same on every
    initialized server, whatever its scheduler holds, and an operation it
    answers is [Done] and carries the name that was asked for, whether or
    not [Execute] ever issued that name. *)
Theorem GetOperation_ignores_scheduler (s : option (executionServer S)) :
  IsInitialized s = true ->
  GetOperation (Any:=Any) s None = Panics /\
  forall r,
    returned (GetOperation (Any:=Any) s (Some r)) = true /\
    (forall s2 : option (executionServer S),
       IsInitialized s2 = true ->
       GetOperation (Any:=Any) s2 (Some r) = GetOperation s (Some r)) /\
    (forall op : Operation Any,
       GetOperation s (Some r) = Returns (inl op) ->
       Name op = ReqName r /\ Done op = true).
Proof.
  intros Hinit. unfold GetOperation. rewrite Hinit. cbn [negb].
  split; [reflexivity|]. intros r. split_and!.
  - destruct (marshalAny (MetadataMsg _)); [|reflexivity].
    by destruct (marshalAny (ResponseMsg _)).
  - intros s2 ->. reflexivity.
  - destruct (marshalAny (MetadataMsg _)); [|discriminate].
    destruct (marshalAny (ResponseMsg _)); [|discriminate].
    by intros op [= <-].
Qed.

(** X21.  Asking [GetOperation] for the operation [Execute] has just
    answered never fails on the server's state and never panics.  It gives
    an operation of the same name, [Done], with the same response as the
    one [Execute] answered, but with metadata that has lost the action
    digest; or it hands on the error of marshalling that metadata. *)
Theorem GetOperation_after_Execute
  now (s s' : option (executionServer S)) req (op : Operation Any) :
  Execute now s req = (inl op, s') ->
  (exists op' m,
     GetOperation s' (Some {| ReqName := Name op |}) = Returns (inl op') /\
     Name op' = Name op /\ Done op' = Done op /\
     OpResult op' = OpResult op /\
     Metadata op' = Some m /\
     MarshalAny (MetadataMsg {| OpStage := COMPLETED;
                                ActionDigest := None |}) = inl m) \/
  (exists e,
     GetOperation (Any:=Any) s' (Some {| ReqName := Name op |})
       = Returns (inr (PlainError e)) /\
     MarshalAny (MetadataMsg {| OpStage := COMPLETED;
                                ActionDigest := None |}) = inr e).
Proof.
  unfold Execute, marshalAny.
  destruct (IsInitialized s); [|discriminate]. cbn [negb].
  destruct (s ≫= scheduler) as [sch|] eqn:Hs; [|discriminate].
  destruct (GetSha256 (GetAction req)) as [[sha len] [e|]]; [discriminate|].
  destruct (execReqToScoot now req sha) as [job [e|]]; [discriminate|].
  destruct (ValidateJob job) as [e|]; [discriminate|].
  destruct (ScheduleJob job sch) as [[id [e|]] sch']; [discriminate|].
  destruct (MarshalAny (MetadataMsg _)) as [m|e]; [|discriminate].
  destruct (MarshalAny (ResponseMsg hardcodedResponse)) as [a|e] eqn:Hres;
    [|discriminate].
  intros [= <- <-]. unfold GetOperation, marshalAny. simpl.
  destruct (MarshalAny (MetadataMsg _)) as [m'|e] eqn:Hm.
  - left. rewrite Hres. eexists _, m'. by split_and!.
  - right. by exists e.
Qed.

End Facts.

Lemma Execute_schedules_placeholder_job_witness :
  exists r sch sha len d id sch' m,
    Some sampleExecRequest = Some r /\
    IsValidDigest (GetHash (GetCommandDigest (ReqAction r)))
                  (GetSizeBytes (GetCommandDigest (ReqAction r))) = true /\
    IsValidDigest (GetHash (GetInputRootDigest (ReqAction r)))
                  (GetSizeBytes (GetInputRootDigest (ReqAction r))) = true /\
    sampleExecServer ≫= scheduler = Some sch /\
    GetSha256 (ReqAction r) = ((sha, len), None) /\
    ParseDuration
      (pretty (GetMsFromDuration (GetTimeout (ReqAction r))) +:+ "ms")
      = (d, None) /\
    ScheduleJob
      (placeholderJob 1700000000 (Some sampleExecRequest) sha d) sch
      = ((id, None), sch') /\
    Name sampleOperation = "operations/" +:+ id /\
    Metadata sampleOperation = Some m /\
    MarshalAny
      (MetadataMsg {| OpStage := COMPLETED;
                      ActionDigest :=
                        Some {| Hash := sha; SizeBytes := len |} |}) = inl m.
Proof.
  apply (Execute_schedules_placeholder_job
           1700000000 sampleExecServer busyExecServer (Some sampleExecRequest)
           sampleOperation).
  vm_compute. reflexivity.
Defined.


Lemma Execute_errors_are_Internal_witness :
  code {| code := Internal;
          message := "Error converting request to internal definition: "
                     +:+ "Unexpected nil execute request" |} = Internal /\
  (busyExecServer = busyExecServer \/
   exists sch sha job ans sch',
     busyExecServer ≫= scheduler = Some sch /\
     execReqToScoot (Any:=ProtoMessage) 5 None sha = (job, None) /\
     ValidateJob job = None /\
     ScheduleJob job sch = (ans, sch') /\
     busyExecServer = Some {| scheduler := Some sch' |}).
Proof.
  apply (Execute_errors_are_Internal (Any:=ProtoMessage)
           5 busyExecServer busyExecServer None).
  vm_compute. reflexivity.
Defined.

Lemma GetOperation_ignores_scheduler_witness :
  GetOperation (Any:=ProtoMessage) busyExecServer None = Panics /\
  forall r,
    returned (GetOperation (Any:=ProtoMessage) busyExecServer (Some r))
      = true /\
    (forall s2 : option (executionServer (list JobDefinition)),
       IsInitialized s2 = true ->
       GetOperation (Any:=ProtoMessage) s2 (Some r)
         = GetOperation busyExecServer (Some r)) /\
    (forall op : Operation ProtoMessage,
       GetOperation busyExecServer (Some r) = Returns (inl op) ->
       Name op = ReqName r /\ Done op = true).
Proof.
  apply (GetOperation_ignores_scheduler (Any:=ProtoMessage) busyExecServer).
  reflexivity.
Defined.

Lemma GetOperation_after_Execute_witness :
  (exists op' m,
     GetOperation busyExecServer (Some {| ReqName := Name sampleOperation |})
       = Returns (inl op') /\
     Name op' = Name sampleOperation /\ Done op' = Done sampleOperation /\
     OpResult op' = OpResult sampleOperation /\
     Metadata op' = Some m /\
     MarshalAny (MetadataMsg {| OpStage := COMPLETED;
                                ActionDigest := None |}) = inl m) \/
  (exists e,
     GetOperation (Any:=ProtoMessage) busyExecServer
                  (Some {| ReqName := Name sampleOperation |})
       = Returns (inr (PlainError e)) /\
     MarshalAny (MetadataMsg {| OpStage := COMPLETED;
                                ActionDigest := None |}) = inr e).
Proof.
  apply (GetOperation_after_Execute
           1700000000 sampleExecServer busyExecServer (Some sampleExecRequest)
           sampleOperation).
  vm_compute. reflexivity.
Defined.

End ExecutionOpsFacts.


(** ** The CAS server: [FindMissingBlobs] errors, [Write] and the action
    cache *)

Module CASOpsFacts.
Import Bazel CAS CASOps.

#[global] Instance mapStore_laws : StoreLaws mapStore (list Byte.byte).
Proof.
  split.
  - intros name data ttl st st' [= <-]. simpl.
    rewrite lookup_insert_eq. by rewrite bool_decide_eq_true_2.
  - intros name data ttl st st' [= <-]. simpl.
    rewrite lookup_insert_eq. by eexists.
Qed.

#[global] Instance plain_ProtoLaws : ProtoLaws (list Byte.byte).
Proof. split. by intros ar bs [= <-]. Qed.

(** A return that leaves the server as it was. *)
Ltac left_alone :=
  cbn [mbind outcome_bind];
  first [intros [= _ _ <-] | intros [= _ <-]]; by left.

Section Facts.
Context {St Rd AR : Type}
  `{BazelLib} `{Store St} `{CasLib} `{StoreRW St Rd} `{ProtoLib AR}.


Lemma findMissing_error (st : St) ds : forall acc e,
  findMissing st ds acc = inr e ->
  exists pre d post b err,
    ds = pre ++ d :: post /\
    GetHash d <> EmptySha /\
    Exists (DigestStoreName d) st = (b, Some err) /\
    Forall (fun d' => GetHash d' <> EmptySha ->
                      (Exists (DigestStoreName d') st).2 = None) pre /\
    e = {| code := Internal;
           message := "Store failed checking existence of "
                      +:+ DigestStoreName d +:+ ": " +:+ err |}.
Proof.
  induction ds as [|d ds IH]; intros acc e; simpl; [discriminate|].
  case_bool_decide as Hempty.
  - intros (pre & d' & post & b & err & -> & Hne & Hex & Hall & ->)%IH.
    exists (d :: pre), d', post, b, err. split_and!; try done.
    constructor; [done|exact Hall].
  - destruct (Exists (DigestStoreName d) st) as [b [err|]] eqn:Hex.
    + intros Hrun. exists [], d, ds, b, err.
      split_and!; try done. destruct b; by injection Hrun as <-.
    + destruct b.
      * intros (pre & d' & post & b & err & -> & Hne & Hex' & Hall & ->)%IH.
        exists (d :: pre), d', post, b, err. split_and!; try done.
        constructor; [|exact Hall]. intros _. by rewrite Hex.
      * intros (pre & d' & post & b & err & -> & Hne & Hex' & Hall & ->)%IH.
        exists (d :: pre), d', post, b, err. split_and!; try done.
        constructor; [|exact Hall]. intros _. by rewrite Hex.
Qed.

(** X22.  [FindMissingBlobs] answers an error in two cases only, both with
    code [Internal]: the server is not initialized, or the store failed on
    a requested digest other than the empty one.  The error then names the
    first digest, in request order, on which the store failed, and the
    digests found missing before it are not reported. *)
Theorem FindMissingBlobs_error_names_first_failure
  (s : option (casServer St)) req e :
  FindMissingBlobs s req = inr e ->
  code e = Internal /\
  ((IsInitialized s = false /\ message e = "Server not initialized") \/
   exists cfg pre d post b err,
     s ≫= storeConfig = Some cfg /\
     GetBlobDigests req = pre ++ d :: post /\
     GetHash d <> EmptySha /\
     Exists (DigestStoreName d) (TheStore cfg) = (b, Some err) /\
     Forall (fun d' => GetHash d' <> EmptySha ->
               (Exists (DigestStoreName d') (TheStore cfg)).2 = None) pre /\
     message e = "Store failed checking existence of "
                 +:+ DigestStoreName d +:+ ": " +:+ err).
Proof.
  unfold FindMissingBlobs.
  destruct (IsInitialized s) eqn:Hinit; cbn [negb];
    [|intros [= <-]; split; [reflexivity|by left]].
  destruct (s ≫= storeConfig) as [cfg|] eqn:Hcfg.
  - destruct (findMissing _ _ _) as [missing|e'] eqn:Hrun; [discriminate|].
    intros [= <-].
    apply findMissing_error in Hrun
      as (pre & d & post & b & err & Hds & Hne & Hex & Hall & ->).
    split; [reflexivity|]. right. exists cfg, pre, d, post, b, err.
    by split_and!.
  - destruct s as [[[c|]]|]; discriminate.
Qed.

(** The first request, on a nil [resource]. *)
Lemma Write_loop_first (st : St) ser wr rs rn sn buf :
  Write_loop st ser (inl wr :: rs) None rn sn buf =
    v ← Write_setup st ser wr;
    match v with
    | inl r => Returns r
    | inr (res, resourceName, storeName, buffer) =>
        Write_loop st ser (inl wr :: rs) (Some res) resourceName storeName
                   buffer
    end.
Proof.
  cbn [Write_loop].
  destruct (Write_setup st ser wr) as [[r|[[[res n] sn'] b]]| |]; reflexivity.
Qed.

(** The loop once the resource is set up. *)
Lemma Write_loop_rest (st : St) ser res rn sn rs : forall buf r,
  Write_loop st ser rs (Some res) rn sn buf = Returns r ->
  match r with
  | Returned p => is_Some p.1 /\ p.2 = None
  | Collected res' sn' buf' =>
      res' = res /\ sn' = sn /\
      exists reqs rest,
        rs = (inl <$> reqs) ++ rest /\
        finished_upload rn reqs /\
        buf' = buf ++ concat (Data <$> reqs)
  end.
Proof.
  induction rs as [|[wr|e] rs IH]; intros buf r; cbn [Write_loop].
  - intros [= <-]. by split; [eexists|].
  - cbn [mbind outcome_bind].
    destruct (negb (bool_decide (ResourceName wr = ""))
              && negb (bool_decide (rn = ResourceName wr))) eqn:Hname;
      [intros [= <-]; by split; [eexists|]|].
    destruct (0 <? WriteOffset wr)%Z eqn:Hoff;
      [intros [= <-]; by split; [eexists|]|].
    assert (Hn : ResourceName wr = "" \/ ResourceName wr = rn).
    { apply andb_false_iff in Hname as [Hn|Hn];
        apply negb_false_iff, bool_decide_eq_true in Hn; auto. }
    apply Z.ltb_ge in Hoff.
    destruct (FinishWrite wr) eqn:Hfin.
    + intros [= <-]. split_and!; try reflexivity.
      exists [wr], rs. split_and!; try reflexivity.
      * exists [], wr.
        split_and!; [reflexivity|exact Hfin|constructor|..];
          (constructor; [assumption|constructor]).
      * simpl. by rewrite app_nil_r.
    + intros Hrun. specialize (IH _ _ Hrun).
      destruct r as [p|res' sn' buf']; [exact IH|].
      destruct IH as (-> & -> & reqs & rest & -> & Hfu & ->).
      split_and!; try reflexivity.
      exists (wr :: reqs), rest. split_and!; try reflexivity.
      * destruct Hfu as (front & final & -> & Hf & Hfront & Hoffs & Hnames).
        exists (wr :: front), final.
        split_and!; [reflexivity|exact Hf|..]; by constructor.
      * simpl. by rewrite app_assoc.
  - intros [= <-]. by split; [eexists|].
Qed.

(** X23.  [Write] changes the store by one call of [Store.Write] at most,
    and only with a complete upload: the requests up to the first with
    [FinishWrite] set, for a resource that is not the empty blob and that
    the store did not have, whose data taken together has exactly the size
    the resource name declares.  When that call succeeds the response
    commits that size. *)
Theorem Write_stores_declared_size
  now (s s' : option (casServer St)) ser st sent :
  Write now s ser = Returns (st, sent, s') ->
  s' = s \/
  exists cfg wr0 res reqs rest ttl werr store',
    s ≫= storeConfig = Some cfg /\
    recvs ser = (inl <$> reqs) ++ rest /\
    head reqs = Some wr0 /\
    finished_upload (ResourceName wr0) reqs /\
    ParseWriteResource (ResourceName wr0) = inl res /\
    GetHash (ResDigest res) <> EmptySha /\
    Exists (DigestStoreName (ResDigest res)) (TheStore cfg) = (false, None) /\
    Z.of_nat (length (concat (Data <$> reqs)))
      = GetSizeBytes (ResDigest res) /\
    Store_Write (DigestStoreName (ResDigest res)) (concat (Data <$> reqs))
                ttl (TheStore cfg) = (werr, store') /\
    s' = Some {| storeConfig := Some {| TheStore := store' |} |} /\
    (werr = None ->
     sent = Some {| CommittedSize := GetSizeBytes (ResDigest res) |}).
Proof.
  unfold Write. destruct (IsInitialized s); cbn [negb]; [|left_alone].
  destruct (s ≫= storeConfig) as [cfg|] eqn:Hcfg; [|left_alone].
  destruct (recvs ser) as [|[wr|e] rs] eqn:Hrecvs;
    try (cbn [Write_loop]; left_alone).
  rewrite Write_loop_first. unfold Write_setup.
  destruct (ParseWriteResource (ResourceName wr)) as [res|e] eqn:Hparse;
    [|left_alone].
  case_bool_decide as Hempty; [left_alone|].
  destruct (GetSizeBytes (ResDigest res) <? 0)%Z; [discriminate|].
  destruct (Exists _ (TheStore cfg)) as [[|] [e|]] eqn:Hex;
    try left_alone.
  cbn [mbind outcome_bind].
  destruct (Write_loop _ _ _ _ _ _ _) as [r| |] eqn:Hloop; try discriminate.
  cbn [mbind outcome_bind].
  apply Write_loop_rest in Hloop.
  destruct r as [p|res' sn' buf']; [left_alone|].
  destruct Hloop as (-> & -> & reqs & rest & Hrs & Hfu & ->).
  rewrite app_nil_l. case_bool_decide as Hsize; cbn [negb]; [|left_alone].
  destruct (Store_Write _ _ _ _) as [werr store'] eqn:Hw.
  intros Hret. right.
  eexists cfg, wr, res, reqs, rest, _, werr, store'.
  assert (Hhead : head reqs = Some wr).
  { destruct reqs as [|wr' reqs'].
    - by destruct Hfu as ([|? ?] & ? & ? & _).
    - simpl in Hrs. by injection Hrs as <- _. }
  split_and!; try done.
  - destruct werr; by injection Hret as _ _ <-.
  - intros ->. injection Hret as _ <- _. simpl. by rewrite Hsize.
Qed.


End Facts.

Lemma init_of_storeConfig {St} (s : option (casServer St)) cfg :
  s ≫= storeConfig = Some cfg -> IsInitialized s = true.
Proof. destruct s as [[[c|]]|]; simpl; [reflexivity|discriminate..]. Qed.

Section Laws.
Context {St Rd AR : Type}
  `{BazelLib} `{CasLib} `{StoreLaws St Rd} `{ProtoLaws AR}.

(** X25.  A blob whose upload [Write] has answered with a nil error is not
    reported missing afterwards, with a store that has what was written to
    it. *)
Theorem Write_then_not_missing
  now (s s' : option (casServer St)) ser sent wr rest res :
  Write now s ser = Returns (None, sent, s') ->
  recvs ser = inl wr :: rest ->
  ParseWriteResource (ResourceName wr) = inl res ->
  FindMissingBlobs s'
    (Some {| InstanceName := ""; BlobDigests := [ResDigest res] |})
  = inl {| MissingBlobDigests := [] |}.
Proof.
  intros Hrun Hrecvs Hparse. unfold Write in Hrun.
  destruct (IsInitialized s) eqn:Hinit; [|discriminate]. cbn [negb] in Hrun.
  destruct (s ≫= storeConfig) as [cfg|] eqn:Hcfg; [|discriminate].
  rewrite Hrecvs, Write_loop_first in Hrun. unfold Write_setup in Hrun.
  rewrite Hparse in Hrun. unfold FindMissingBlobs.
  case_bool_decide as Hempty.
  { cbn [mbind outcome_bind] in Hrun. injection Hrun as _ _ <-.
    rewrite Hinit, Hcfg. simpl. by rewrite bool_decide_eq_true_2. }
  destruct (GetSizeBytes (ResDigest res) <? 0)%Z; [discriminate|].
  destruct (Exists _ (TheStore cfg)) as [[|] [e|]] eqn:Hex;
    try discriminate.
  { cbn [mbind outcome_bind] in Hrun. injection Hrun as _ _ <-.
    rewrite Hinit, Hcfg. simpl.
    rewrite bool_decide_eq_false_2 by exact Hempty. by rewrite Hex. }
  cbn [mbind outcome_bind] in Hrun.
  destruct (Write_loop _ _ _ _ _ _ _) as [r| |] eqn:Hloop; try discriminate.
  cbn [mbind outcome_bind] in Hrun.
  apply Write_loop_rest in Hloop.
  destruct r as [p|res' sn' buf'].
  { destruct Hloop as [[st0 Hst] _]. destruct p as [p1 p2]. simpl in Hst.
    subst p1. discriminate. }
  destruct Hloop as (-> & -> & _).
  case_bool_decide; cbn [negb] in Hrun; [|discriminate].
  destruct (Store_Write _ _ _ _) as [[e|] store'] eqn:Hw; [discriminate|].
  injection Hrun as _ _ <-. apply Write_Exists in Hw. simpl.
  rewrite bool_decide_eq_false_2 by exact Hempty. by rewrite Hw.
Qed.

(** X26.  An action result that [UpdateActionResult] has stored under a
    digest other than the empty one is what [GetActionResult] answers for
    that digest afterwards, with a store that reads back what was written
    to it. *)
Theorem Update_then_Get now (s s' : option (casServer St)) req (ar : AR) :
  UpdateActionResult now s req = (inl ar, s') ->
  GetHash (GetUpdateActionDigest req) <> EmptySha ->
  GetActionResult_field req = Some ar /\
  GetActionResult s'
    (Some {| GetActionDigest_field := GetUpdateActionDigest req |}) = inl ar.
Proof.
  unfold UpdateActionResult.
  destruct (IsInitialized s); [|discriminate]. cbn [negb].
  destruct (s ≫= storeConfig) as [cfg|]; [|discriminate].
  destruct (IsValidDigest _ _) eqn:Hvalid; [|discriminate]. cbn [negb].
  destruct (GetActionResult_field req) as [ar0|]; [|discriminate].
  case_bool_decide as Hempty; [by intros _ ?|].
  destruct (Marshal ar0) as [bs|e] eqn:Hm; [|discriminate].
  destruct (Store_Write _ _ _ _) as [[e|] store'] eqn:Hw; [discriminate|].
  intros [= <- <-] _. split; [reflexivity|].
  unfold GetActionResult. simpl. rewrite Hvalid. cbn [negb].
  rewrite bool_decide_eq_false_2 by exact Hempty.
  destruct (Write_Read _ _ _ _ _ Hw) as (r & -> & ->).
  by rewrite (Unmarshal_Marshal _ _ Hm).
Qed.

(** X27.  Under the empty digest nothing is cached: [UpdateActionResult]
    answers the empty action result, not the one it was given, and leaves
    the store alone, and [GetActionResult] answers the empty action result
    without reading the store. *)
Theorem EmptySha_result_not_cached
  now (s : option (casServer St)) cfg d (ar : AR) :
  s ≫= storeConfig = Some cfg ->
  GetHash d = EmptySha ->
  IsValidDigest (GetHash d) (GetSizeBytes d) = true ->
  UpdateActionResult now s
    (Some {| UpdateActionDigest_field := d; ActionResult_field := Some ar |})
    = (inl emptyActionResult, s) /\
  GetActionResult (AR:=AR) s (Some {| GetActionDigest_field := d |})
    = inl emptyActionResult.
Proof.
  intros Hcfg Hempty Hvalid.
  unfold UpdateActionResult, GetActionResult.
  rewrite (init_of_storeConfig s cfg Hcfg), Hcfg. simpl.
  rewrite Hvalid. cbn [negb]. by rewrite bool_decide_eq_true_2.
Qed.

End Laws.

Lemma FindMissingBlobs_error_names_first_failure_witness :
  code (status Internal
          ("Store failed checking existence of "
           +:+ DigestStoreName (Some absentDigest) +:+ ": store unreachable"))
    = Internal /\
  ((IsInitialized flakyServer = false /\
    message (status Internal
               ("Store failed checking existence of "
                +:+ DigestStoreName (Some absentDigest)
                +:+ ": store unreachable")) = "Server not initialized") \/
   exists cfg pre d post b err,
     flakyServer ≫= storeConfig = Some cfg /\
     GetBlobDigests (Some sampleBlobsRequest) = pre ++ d :: post /\
     GetHash d <> EmptySha /\
     Exists (DigestStoreName d) (TheStore cfg) = (b, Some err) /\
     Forall (fun d' => GetHash d' <> EmptySha ->
               (Exists (DigestStoreName d') (TheStore cfg)).2 = None) pre /\
     message (status Internal
                ("Store failed checking existence of "
                 +:+ DigestStoreName (Some absentDigest)
                 +:+ ": store unreachable"))
     = "Store failed checking existence of "
       +:+ DigestStoreName d +:+ ": " +:+ err).
Proof.
  apply (FindMissingBlobs_error_names_first_failure flakyServer
           (Some sampleBlobsRequest)).
  vm_compute. reflexivity.
Defined.

Lemma Write_stores_declared_size_witness :
  afterUpload = mapServer \/
  exists cfg wr0 res reqs rest ttl werr store',
    mapServer ≫= storeConfig = Some cfg /\
    recvs upload = (inl <$> reqs) ++ rest /\
    head reqs = Some wr0 /\
    finished_upload (ResourceName wr0) reqs /\
    ParseWriteResource (ResourceName wr0) = inl res /\
    GetHash (ResDigest res) <> EmptySha /\
    Exists (DigestStoreName (ResDigest res)) (TheStore cfg) = (false, None) /\
    Z.of_nat (length (concat (Data <$> reqs)))
      = GetSizeBytes (ResDigest res) /\
    Store_Write (DigestStoreName (ResDigest res)) (concat (Data <$> reqs))
                ttl (TheStore cfg) = (werr, store') /\
    afterUpload = Some {| storeConfig := Some {| TheStore := store' |} |} /\
    (werr = None ->
     Some {| CommittedSize := 5 |}
       = Some {| CommittedSize := GetSizeBytes (ResDigest res) |}).
Proof.
  apply (Write_stores_declared_size 7 mapServer afterUpload upload None
           (Some {| CommittedSize := 5 |})).
  vm_compute. reflexivity.
Defined.

(** The store after the upload holds the five bytes under the name of the
    uploaded digest. *)
Lemma afterUpload_blob :
  (afterUpload ≫= storeConfig) ≫=
    (fun cfg => blobs (TheStore cfg) !! DigestStoreName (Some absentDigest))
  = Some [Byte.x0a; Byte.x0b; Byte.x0c; Byte.x0d; Byte.x0e].
Proof. vm_compute. reflexivity. Qed.


Lemma Write_then_not_missing_witness :
  FindMissingBlobs afterUpload
    (Some {| InstanceName := "";
             BlobDigests := [ResDigest {| ResDigest := Some absentDigest |}] |})
  = inl {| MissingBlobDigests := [] |}.
Proof.
  apply (Write_then_not_missing 7 mapServer afterUpload upload
           (Some {| CommittedSize := 5 |})
           {| ResourceName := "uploads/u1/blobs/bb/5"; WriteOffset := 0;
              FinishWrite := false;
              Data := [Byte.x0a; Byte.x0b; Byte.x0c] |}
           [inl {| ResourceName := ""; WriteOffset := 0; FinishWrite := true;
                   Data := [Byte.x0d; Byte.x0e] |}]
           {| ResDigest := Some absentDigest |}).
  - vm_compute. reflexivity.
  - reflexivity.
  - vm_compute. reflexivity.
Defined.

Lemma Update_then_Get_witness :
  GetActionResult_field (Some sampleUpdate) = Some sampleResult /\
  GetActionResult afterUpdate
    (Some {| GetActionDigest_field :=
               GetUpdateActionDigest (Some sampleUpdate) |})
  = inl sampleResult.
Proof.
  apply (Update_then_Get 7 mapServer afterUpdate (Some sampleUpdate)
           sampleResult).
  - vm_compute. reflexivity.
  - vm_compute. discriminate.
Defined.

Lemma EmptySha_result_not_cached_witness :
  UpdateActionResult 7 mapServer
    (Some {| UpdateActionDigest_field := Some emptyDigest;
             ActionResult_field := Some sampleResult |})
    = (inl emptyActionResult, mapServer) /\
  GetActionResult (AR:=list Byte.byte) mapServer
    (Some {| GetActionDigest_field := Some emptyDigest |})
    = inl emptyActionResult.
Proof.
  apply (EmptySha_result_not_cached 7 mapServer
           {| TheStore :=
                {| blobs := {[ DigestStoreName (Some storedDigest)
                                 := [Byte.x01; Byte.x02] ]} |} |}
           (Some emptyDigest) sampleResult).
  - reflexivity.
  - reflexivity.
  - vm_compute. reflexivity.
Defined.

End CASOpsFacts.


(** ** The CAS server: [Read] *)

Module CASReadFacts.
Import Bazel CAS CASOps CASRead.

Lemma list_Read_content c (r : list Byte.byte) bs err r' :
  Reader_Read c r = ((bs, err), r') ->
  r = bs ++ r' /\ length bs <= c /\
  (err = ReadEOF -> r' = []) /\
  (bs = [] -> 0 < c -> err <> ReadOk).
Proof.
  simpl. destruct r as [|x r].
  - intros [= <- <- <-]. split_and!; [reflexivity|simpl; lia|done|done].
  - intros [= <- <- <-]. split_and!.
    + by rewrite take_drop.
    + rewrite length_take. lia.
    + discriminate.
    + destruct c; [lia|discriminate].
Qed.

Lemma list_CopyN_content n (r r' : list Byte.byte) :
  CopyN_Discard n r = (None, r') -> r' = drop (Z.to_nat n) r.
Proof.
  simpl. destruct (_ <=? _)%Z; [|discriminate]. by intros [= <-].
Qed.

Lemma list_ReadAll_content (r data : list Byte.byte) :
  ReadAll r = (data, None) -> r = data.
Proof. simpl. by intros [= <-]. Qed.

#[global] Instance list_ReaderLaws : ReaderLaws mapStore (list Byte.byte) := {|
  content := fun r => r;
  Read_content := list_Read_content;
  CopyN_content := list_CopyN_content;
  ReadAll_content := list_ReadAll_content;
|}.

Lemma init_of_config {St} (s : option (casServer St)) cfg :
  s ≫= storeConfig = Some cfg -> IsInitialized s = true.
Proof. destruct s as [[[c|]]|]; simpl; [reflexivity|discriminate..]. Qed.

(** The capacity of the buffer: the default, or a smaller limit. *)
Lemma capacity_bounds (limit : Z) (cap : nat) :
  0 < cap -> (0 <= limit)%Z ->
  let c := if (0 <? limit)%Z && (limit <? Z.of_nat cap)%Z
           then Z.to_nat limit else cap in
  0 < c /\ c <= cap /\ ((0 < limit)%Z -> (Z.of_nat c <= limit)%Z).
Proof.
  intros Hcap Hlimit.
  destruct (0 <? limit)%Z eqn:Hpos; destruct (limit <? Z.of_nat cap)%Z eqn:Hlt;
    simpl; rewrite ?Z.ltb_lt, ?Z.ltb_ge in *; lia.
Qed.

Section Empty.
Context {St Rd : Type}
  `{BazelLib} `{Store St} `{CasLib} `{StoreRW St Rd} `{ReadLib Rd}.


End Empty.

Section Laws.
Context {St Rd : Type}
  `{BazelLib} `{Store St} `{CasLib} `{ReaderLaws St Rd}.

(** The loop gives out all the reader has, with fuel for it. *)
Lemma Read_loop_streams fuel c : forall r send sent,
  0 < c ->
  length (content r) < fuel ->
  exists st chunks,
    Read_loop fuel c (StoreReader r) send sent
      = Some (Returns (st, sent ++ chunks)) /\
    Forall (fun p => p <> [] /\ length p <= c) chunks /\
    (st = None -> concat chunks = content r).
Proof.
  induction fuel as [|fuel IH]; intros r send sent Hc Hfuel; [lia|].
  cbn [Read_loop reader_Read].
  destruct (Reader_Read c r) as [[bs err] r'] eqn:Hr.
  apply Read_content in Hr as (Hcontent & Hlen & Heof & Hprog).
  rewrite (proj2 (Nat.ltb_ge _ _) Hlen).
  destruct bs as [|b bs].
  - destruct err as [| |e].
    + by destruct (Hprog eq_refl Hc).
    + exists None, []. rewrite app_nil_r. split; [reflexivity|].
      split; [constructor|]. intros _. by rewrite Hcontent, (Heof eq_refl).
    + eexists _, []. rewrite app_nil_r. split; [reflexivity|].
      split; [constructor|discriminate].
  - destruct (send (length sent)) as [e|].
    + eexists _, [b :: bs]. split; [reflexivity|].
      split; [by repeat constructor|discriminate].
    + destruct (IH r' send (sent ++ [b :: bs]) Hc) as (st & chunks & -> & Hall & Hcat).
      { rewrite Hcontent, length_app in Hfuel. simpl in Hfuel. lia. }
      exists st, ((b :: bs) :: chunks). rewrite <- app_assoc.
      split; [reflexivity|]. split; [by constructor|].
      intros Hst. simpl. by rewrite (Hcat Hst), Hcontent.
Qed.

(** X29.  A read of a blob the store has, on a stream that takes every
    chunk, returns, given fuel for the blob.  Every chunk sent is not
    empty and no longer than the default capacity, and no longer than a
    positive read limit; and when the read returns nil, the chunks taken
    together are all of the blob from the offset on: the read limit bounds
    the size of a chunk, not what the read returns in all. *)
Theorem Read_streams_to_the_end
  fuel (s : option (casServer St)) cfg req resource r send :
  s ≫= storeConfig = Some cfg ->
  ParseReadResource (GetResourceName req) = inl resource ->
  GetHash (ResDigest resource) <> EmptySha ->
  OpenForRead (DigestStoreName (ResDigest resource)) (TheStore cfg) = inl r ->
  (0 <= GetReadOffset req)%Z ->
  (0 <= GetReadLimit req)%Z ->
  0 < DefaultReadCapacity ->
  length (content r) < fuel ->
  exists st chunks,
    Read fuel s req send = Some (Returns (st, chunks)) /\
    Forall (fun p => p <> [] /\
                     length p <= DefaultReadCapacity /\
                     ((0 < GetReadLimit req)%Z ->
                      (Z.of_nat (length p) <= GetReadLimit req)%Z)) chunks /\
    (st = None ->
     concat chunks = drop (Z.to_nat (GetReadOffset req)) (content r)).
Proof.
  intros Hcfg Hparse Hne Hopen Hoff Hlim Hcap Hfuel. unfold Read.
  rewrite (init_of_config s cfg Hcfg), Hcfg, Hparse. cbn [negb].
  rewrite (proj2 (Z.ltb_ge _ _) Hoff), (proj2 (Z.ltb_ge _ _) Hlim).
  rewrite bool_decide_eq_false_2 by exact Hne. rewrite Hopen.
  destruct (capacity_bounds (GetReadLimit req) DefaultReadCapacity Hcap Hlim)
    as (Hc & Hle & Hlimit).
  assert (Hweak : forall chunks,
    Forall (fun p : list Byte.byte => p <> [] /\
       length p <=
         (if (0 <? GetReadLimit req)%Z
             && (GetReadLimit req <? Z.of_nat DefaultReadCapacity)%Z
          then Z.to_nat (GetReadLimit req) else DefaultReadCapacity)) chunks ->
    Forall (fun p => p <> [] /\
                     length p <= DefaultReadCapacity /\
                     ((0 < GetReadLimit req)%Z ->
                      (Z.of_nat (length p) <= GetReadLimit req)%Z)) chunks).
  { intros chunks Hall. eapply Forall_impl; [exact Hall|].
    intros p [Hp Hlen]. simpl in *.
    split_and!; [exact Hp|lia|]. intros Hpos. specialize (Hlimit Hpos). lia. }
  destruct (0 <? GetReadOffset req)%Z eqn:Hpos.
  - cbn [reader_CopyN].
    destruct (CopyN_Discard (GetReadOffset req) r) as [[e|] r1] eqn:Hcopy.
    + eexists _, []. split; [reflexivity|]. split; [constructor|discriminate].
    + apply CopyN_content in Hcopy.
      destruct (Read_loop_streams fuel _ r1 send [] Hc)
        as (st & chunks & Hrun & Hall & Hcat).
      { rewrite Hcopy, length_drop. lia. }
      exists st, chunks. split; [exact Hrun|]. split; [by apply Hweak|].
      intros Hst. by rewrite (Hcat Hst), Hcopy.
  - apply Z.ltb_ge in Hpos.
    destruct (Read_loop_streams fuel _ r send [] Hc Hfuel)
      as (st & chunks & Hrun & Hall & Hcat).
    exists st, chunks. split; [exact Hrun|]. split; [by apply Hweak|].
    intros Hst. rewrite (Hcat Hst).
    replace (GetReadOffset req) with 0%Z by lia. reflexivity.
Qed.

End Laws.

Section RoundTrip.
Context {St Rd : Type}
  `{BazelLib} `{CasLib} `{Store St} `{StoreRW St Rd} `{ReadLib Rd}
  `{!StoreLaws St Rd} `{!ReaderLaws St Rd}.

(** X30.  A blob the store did not have, once [Write] has taken its upload
    with a nil error, reads back as uploaded: a read of the same digest
    from offset 0, on a stream that takes every chunk, returns, and when
    it returns nil its chunks taken together are the data of the upload's
    requests taken together. *)
Theorem Write_then_Read
  now fuel (s s' : option (casServer St)) cfg ser sent wr rest res req send :
  s ≫= storeConfig = Some cfg ->
  recvs ser = inl wr :: rest ->
  ParseWriteResource (ResourceName wr) = inl res ->
  GetHash (ResDigest res) <> EmptySha ->
  Exists (DigestStoreName (ResDigest res)) (TheStore cfg) = (false, None) ->
  Write now s ser = Returns (None, sent, s') ->
  ParseReadResource (GetResourceName req) = inl res ->
  GetReadOffset req = 0%Z ->
  (0 <= GetReadLimit req)%Z ->
  0 < DefaultReadCapacity ->
  (GetSizeBytes (ResDigest res) < Z.of_nat fuel)%Z ->
  exists st chunks reqs rest',
    Read fuel s' req send = Some (Returns (st, chunks)) /\
    recvs ser = (inl <$> reqs) ++ rest' /\
    finished_upload (ResourceName wr) reqs /\
    (st = None -> concat chunks = concat (Data <$> reqs)).
Proof.
  intros Hcfg Hrecvs Hparse Hne Hex Hrun Hread Hoff Hlim Hcap Hfuel.
  unfold Write in Hrun.
  rewrite (init_of_config s cfg Hcfg), Hcfg, Hrecvs, CASOpsFacts.Write_loop_first
    in Hrun.
  cbn [negb] in Hrun. unfold Write_setup in Hrun. rewrite Hparse in Hrun.
  rewrite bool_decide_eq_false_2 in Hrun by exact Hne.
  destruct (GetSizeBytes (ResDigest res) <? 0)%Z; [discriminate|].
  rewrite Hex in Hrun. cbn [mbind outcome_bind] in Hrun.
  destruct (Write_loop _ _ _ _ _ _ _) as [r| |] eqn:Hloop; try discriminate.
  cbn [mbind outcome_bind] in Hrun.
  apply CASOpsFacts.Write_loop_rest in Hloop.
  destruct r as [p|res' sn' buf'].
  { destruct Hloop as [[st0 Hst] _]. destruct p as [p1 p2]. simpl in Hst.
    subst p1. discriminate. }
  destruct Hloop as (-> & -> & reqs & rest' & Hrs & Hfu & ->).
  rewrite app_nil_l in Hrun.
  case_bool_decide as Hsize; cbn [negb] in Hrun; [|discriminate].
  destruct (Store_Write _ _ _ _) as [[e|] store'] eqn:Hw; [discriminate|].
  injection Hrun as _ _ <-.
  destruct (Write_Read _ _ _ _ _ Hw) as (r & Hopen & Hall).
  apply ReadAll_content in Hall.
  destruct (capacity_bounds (GetReadLimit req) DefaultReadCapacity Hcap Hlim)
    as (Hc & _ & _).
  destruct (Read_loop_streams fuel _ r send [] Hc)
    as (st & chunks & Hrd & _ & Hcat).
  { rewrite Hall. lia. }
  exists st, chunks, reqs, rest'. split_and!.
  - unfold Read. simpl. rewrite Hread, Hoff. simpl.
    rewrite (proj2 (Z.ltb_ge _ _) Hlim).
    rewrite bool_decide_eq_false_2 by exact Hne. rewrite Hopen. exact Hrd.
  - by rewrite Hrecvs.
  - exact Hfu.
  - intros Hst. by rewrite (Hcat Hst), Hall.
Qed.

End RoundTrip.


Lemma Read_streams_to_the_end_witness :
  exists st chunks,
    Read 6 afterUpload (Some readFromOne) sendOk
      = Some (Returns (st, chunks)) /\
    Forall (fun p => p <> [] /\
                     length p <= DefaultReadCapacity /\
                     ((0 < GetReadLimit (Some readFromOne))%Z ->
                      (Z.of_nat (length p)
                       <= GetReadLimit (Some readFromOne))%Z)) chunks /\
    (st = None ->
     concat chunks
     = drop (Z.to_nat (GetReadOffset (Some readFromOne))) (content uploaded)).
Proof.
  apply (Read_streams_to_the_end 6 afterUpload afterUploadConfig
           (Some readFromOne) {| ResDigest := Some absentDigest |}
           uploaded sendOk).
  - reflexivity.
  - reflexivity.
  - vm_compute. discriminate.
  - vm_compute. reflexivity.
  - vm_compute. discriminate.
  - vm_compute. discriminate.
  - vm_compute. lia.
  - vm_compute. lia.
Defined.

(** With a limit of two bytes the read gives the four bytes from the
    offset on, two at a time. *)
Lemma readFromOne_chunks :
  Read 6 afterUpload (Some readFromOne) sendOk
  = Some (Returns (None, [[Byte.x0b; Byte.x0c]; [Byte.x0d; Byte.x0e]])).
Proof. vm_compute. reflexivity. Qed.

Lemma Write_then_Read_witness :
  exists st chunks reqs rest',
    Read 6 afterUpload (Some readAll) sendOk = Some (Returns (st, chunks)) /\
    recvs upload = (inl <$> reqs) ++ rest' /\
    finished_upload "uploads/u1/blobs/bb/5" reqs /\
    (st = None -> concat chunks = concat (Data <$> reqs)).
Proof.
  apply (Write_then_Read 7 6 mapServer afterUpload
           {| TheStore :=
                {| blobs := {[ DigestStoreName (Some storedDigest)
                                 := [Byte.x01; Byte.x02] ]} |} |}
           upload (Some {| CommittedSize := 5 |})
           {| ResourceName := "uploads/u1/blobs/bb/5"; WriteOffset := 0;
              FinishWrite := false;
              Data := [Byte.x0a; Byte.x0b; Byte.x0c] |}
           [inl {| ResourceName := ""; WriteOffset := 0; FinishWrite := true;
                   Data := [Byte.x0d; Byte.x0e] |}]
           {| ResDigest := Some absentDigest |} (Some readAll) sendOk).
  - reflexivity.
  - reflexivity.
  - vm_compute. reflexivity.
  - vm_compute. discriminate.
  - vm_compute. reflexivity.
  - vm_compute. reflexivity.
  - reflexivity.
  - reflexivity.
  - vm_compute. discriminate.
  - vm_compute. lia.
  - vm_compute. reflexivity.
Defined.

End CASReadFacts.
